(** * MultibodyTree: sweep drivers of drake/multibody/multibody_tree/multibody_tree.cc

    A shallow embedding of the tree-wide drivers of [MultibodyTree<T>]
    (kinematics sweeps, inverse dynamics, mass matrix by unit probing, bias
    term, point positions and Jacobians) together with the properties the
    specification states about them.

    The scalar type [T] of the C++ template is kept generic: the drivers only
    move scalars around, and the per-node recursions use ring operations. *)

From stdpp Require Import base option list sorting.
From stdpp Require Import gmap.
From Stdlib Require Import ZArith Lia.

(** ** Outcomes of a call

    A call either returns, stops the process ([DRAKE_DEMAND]), raises a C++
    exception that a caller may catch ([DRAKE_THROW_UNLESS], [throw],
    [std::vector::at], a failed reference [dynamic_cast]), or steps outside
    the language (an unchecked index out of range, a null pointer
    dereference). *)

Inductive exception :=
  | logic_error        (* throw std::logic_error(...) *)
  | throw_unless_error (* DRAKE_THROW_UNLESS(cond) with cond false *)
  | bad_cast           (* dynamic_cast<const MultibodyTreeContext<T>&> *)
  | out_of_range.      (* std::vector::at *)

Inductive Outcome (A : Type) :=
  | Ok (a : A)
  | Fatal                 (* DRAKE_DEMAND failure: the process aborts *)
  | Thrown (e : exception)
  | Undefined.            (* undefined behaviour *)

Arguments Ok {A} a.
Arguments Fatal {A}.
Arguments Thrown {A} e.
Arguments Undefined {A}.

#[global] Instance Outcome_ret : MRet Outcome := @Ok.
#[global] Instance Outcome_bind : MBind Outcome := λ A B f m,
  match m with
  | Ok a => f a
  | Fatal => Fatal
  | Thrown e => Thrown e
  | Undefined => Undefined
  end.
#[global] Instance Outcome_fmap : FMap Outcome := λ A B f m,
  match m with
  | Ok a => Ok (f a)
  | Fatal => Fatal
  | Thrown e => Thrown e
  | Undefined => Undefined
  end.

(** Modelled from the spec: the macro [DRAKE_DEMAND] is defined in
    drake_assert.h; a failed demand is an unconditionally fatal assertion. *)
Definition DRAKE_DEMAND (cond : bool) : Outcome unit :=
  if cond then Ok tt else Fatal.

(** Modelled from the spec: the macro [DRAKE_THROW_UNLESS] is defined in
    drake_throw.h; a failed condition surfaces as a catchable failure. *)
Definition DRAKE_THROW_UNLESS (cond : bool) : Outcome unit :=
  if cond then Ok tt else Thrown throw_unless_error.

(** Unchecked element access [v[i]]. *)
Definition at_unchecked {A} (l : list A) (i : nat) : Outcome A :=
  match l !! i with Some a => Ok a | None => Undefined end.

(** [v->at(i) = x]. *)
Definition assign_at {A} (l : list A) (i : nat) (x : A) : Outcome (list A) :=
  if decide (i < length l) then Ok (<[i := x]> l) else Thrown out_of_range.

(** [v[i] = x]. *)
Definition assign_unchecked {A} (l : list A) (i : nat) (x : A)
  : Outcome (list A) :=
  if decide (i < length l) then Ok (<[i := x]> l) else Undefined.

(** A [for] loop over the elements of [l], threading the state [s]. *)
Fixpoint for_each {A S} (l : list A) (body : A → S → Outcome S) (s : S)
  : Outcome S :=
  match l with
  | [] => Ok s
  | a :: l' => s' ← body a s; for_each l' body s'
  end.

(** ** Scalars *)

(** Modelled from the spec: the scalar type is a generic numeric-type
    parameter with a minimal arithmetic capability set ([double] or
    [AutoDiffXd] in the explicit instantiations at the end of the source).
    The laws are those of exact arithmetic on finite values that the proofs
    below use. *)

Class Scalar (T : Type) := {
  Tzero : T;
  Tone : T;
  Tadd : T → T → T;
  Tsub : T → T → T;
  Tmul : T → T → T;
  (* content of a coefficient that was allocated but never assigned *)
  Tuninit : T;
  Tadd_zero_l : ∀ x, Tadd Tzero x = x;
  Tadd_zero_r : ∀ x, Tadd x Tzero = x;
  Tsub_zero_r : ∀ x, Tsub x Tzero = x;
  Tmul_zero_l : ∀ x, Tmul Tzero x = Tzero;
  Tmul_zero_r : ∀ x, Tmul x Tzero = Tzero;
}.

#[global] Instance Z_Scalar : Scalar Z := {|
  Tzero := 0%Z;
  Tone := 1%Z;
  Tadd := Z.add;
  Tsub := Z.sub;
  Tmul := Z.mul;
  Tuninit := (-1)%Z;
  Tadd_zero_l := Z.add_0_l;
  Tadd_zero_r := Z.add_0_r;
  Tsub_zero_r := Z.sub_0_r;
  Tmul_zero_l := Z.mul_0_l;
  Tmul_zero_r := Z.mul_0_r;
|}.

Section Model.
Context {T : Type} {ST : Scalar T}.

(** ** Vectors and spatial quantities

    Modelled from the spec: the Eigen types and the spatial algebra of
    eigen_types.h, spatial_velocity.h, spatial_acceleration.h and
    spatial_force.h, as lists and records of scalars. *)

(** [VectorX<T>], and [VectorUpTo6<T>]. *)
#[local] Abbreviation VectorX := (list T).

Definition VectorX_Zero (n : nat) : VectorX := replicate n Tzero.

(** [VectorX<T>::Unit(n, j)]: the [j]-th unit basis vector of size [n]. *)
Definition VectorX_Unit (n j : nat) : VectorX :=
  (λ i, if decide (i = j) then Tone else Tzero) <$> seq 0 n.

(** A freshly allocated [VectorX<T>(n)]. *)
Definition VectorX_new (n : nat) : VectorX := replicate n Tuninit.

(** [v.segment(start, n)]. *)
Definition segment {A} (start n : nat) (v : list A) : list A :=
  take n (drop start v).

(** [v.segment(start, n) = w], for [w] of size [n]. *)
Definition set_segment {A} (start : nat) (w : list A) (v : list A) : list A :=
  take start v ++ w ++ drop (start + length w) v.

Record Vector3 := mkVector3 { vx : T; vy : T; vz : T }.

Definition Vector3_Zero : Vector3 := mkVector3 Tzero Tzero Tzero.

Definition v3_add (a b : Vector3) : Vector3 :=
  mkVector3 (Tadd (vx a) (vx b)) (Tadd (vy a) (vy b)) (Tadd (vz a) (vz b)).

Definition v3_sub (a b : Vector3) : Vector3 :=
  mkVector3 (Tsub (vx a) (vx b)) (Tsub (vy a) (vy b)) (Tsub (vz a) (vz b)).

Definition v3_scale (k : T) (a : Vector3) : Vector3 :=
  mkVector3 (Tmul k (vx a)) (Tmul k (vy a)) (Tmul k (vz a)).

Definition v3_dot (a b : Vector3) : T :=
  Tadd (Tadd (Tmul (vx a) (vx b)) (Tmul (vy a) (vy b))) (Tmul (vz a) (vz b)).

(** [a.cross(b)]. *)
Definition cross (a b : Vector3) : Vector3 :=
  mkVector3 (Tsub (Tmul (vy a) (vz b)) (Tmul (vz a) (vy b)))
            (Tsub (Tmul (vz a) (vx b)) (Tmul (vx a) (vz b)))
            (Tsub (Tmul (vx a) (vy b)) (Tmul (vy a) (vx b))).

Definition v3_coeffs (a : Vector3) : list T := [vx a; vy a; vz a].

(** Column of a matrix with three rows, read as a [Vector3]. *)
Definition v3_of_coeffs (l : list T) : Vector3 :=
  mkVector3 (default Tuninit (l !! 0)) (default Tuninit (l !! 1))
            (default Tuninit (l !! 2)).

(** [SpatialVector]: the six coefficients of a spatial velocity, acceleration
    or force, rotational part first; also a column [Vector6<T>] of an
    across-node Jacobian. *)
Record SpatialVector := mkSpatial { rotational : Vector3; translational : Vector3 }.

(** [SpatialVelocity<T>], [SpatialAcceleration<T>], [SpatialForce<T>] and
    [Vector6<T>] all are six coefficients. *)
#[local] Abbreviation SpatialVelocity := SpatialVector.
#[local] Abbreviation SpatialAcceleration := SpatialVector.
#[local] Abbreviation SpatialForce := SpatialVector.
#[local] Abbreviation Vector6 := SpatialVector.

(** [SpatialAcceleration<T>::Zero()], [SpatialForce<T>::Zero()], ... *)
Definition Spatial_Zero : SpatialVector := mkSpatial Vector3_Zero Vector3_Zero.

(** A default-constructed spatial vector: its coefficients are not set. *)
Definition Spatial_new : SpatialVector :=
  mkSpatial (mkVector3 Tuninit Tuninit Tuninit) (mkVector3 Tuninit Tuninit Tuninit).

Definition sv_add (a b : SpatialVector) : SpatialVector :=
  mkSpatial (v3_add (rotational a) (rotational b))
            (v3_add (translational a) (translational b)).

Definition sv_sub (a b : SpatialVector) : SpatialVector :=
  mkSpatial (v3_sub (rotational a) (rotational b))
            (v3_sub (translational a) (translational b)).

Definition sv_scale (k : T) (a : SpatialVector) : SpatialVector :=
  mkSpatial (v3_scale k (rotational a)) (v3_scale k (translational a)).

Definition sv_dot (a b : SpatialVector) : T :=
  Tadd (v3_dot (rotational a) (rotational b))
       (v3_dot (translational a) (translational b)).

(** [get_coeffs()]. *)
Definition get_coeffs (a : SpatialVector) : list T :=
  v3_coeffs (rotational a) ++ v3_coeffs (translational a).

(** [H * x] for a matrix given by its columns [H]: the combination
    [x_0 H_0 + x_1 H_1 + ...]. *)
Fixpoint lincomb (H : list SpatialVector) (x : list T) : SpatialVector :=
  match H, x with
  | h :: H', k :: x' => sv_add (sv_scale k h) (lincomb H' x')
  | _, _ => Spatial_Zero
  end.

(** [H.transpose() * F]. *)
Definition project (H : list SpatialVector) (F : SpatialVector) : list T :=
  (λ h, sv_dot h F) <$> H.

(** [Isometry3<T>]: rotation (by columns) and translation. *)
Record Isometry3 := mkIsometry3 {
  linear : Vector3 * Vector3 * Vector3;
  translation : Vector3 }.

Definition Isometry3_Identity : Isometry3 :=
  mkIsometry3 (mkVector3 Tone Tzero Tzero, mkVector3 Tzero Tone Tzero,
               mkVector3 Tzero Tzero Tone) Vector3_Zero.

(** [R * p]. *)
Definition rotate (R : Vector3 * Vector3 * Vector3) (p : Vector3) : Vector3 :=
  let '(c1, c2, c3) := R in
  v3_add (v3_add (v3_scale (vx p) c1) (v3_scale (vy p) c2)) (v3_scale (vz p) c3).

(** [X * p]. *)
Definition transform (X : Isometry3) (p : Vector3) : Vector3 :=
  v3_add (rotate (linear X) p) (translation X).

(** [X1 * X2]. *)
Definition compose (X1 X2 : Isometry3) : Isometry3 :=
  let '(c1, c2, c3) := linear X2 in
  mkIsometry3 (rotate (linear X1) c1, rotate (linear X1) c2, rotate (linear X1) c3)
              (transform X1 (translation X2)).

(** [X.inverse()]: transposed rotation, and the translation carried back. *)
Definition inverse (X : Isometry3) : Isometry3 :=
  let '(c1, c2, c3) := linear X in
  let Rt := (mkVector3 (vx c1) (vx c2) (vx c3), mkVector3 (vy c1) (vy c2) (vy c3),
             mkVector3 (vz c1) (vz c2) (vz c3)) in
  mkIsometry3 Rt (v3_sub Vector3_Zero (rotate Rt (translation X))).

(** [MatrixX<T>]: a dynamically sized matrix, stored by columns as Eigen
    does; [mrows] is kept apart so that a matrix without columns still has
    a row count. *)
Record MatrixX := mkMatrixX { mrows : nat; mcolumns : list (list T) }.

Definition mcols (M : MatrixX) : nat := length (mcolumns M).


(** ** Topology (read-only once finalized)

    Modelled from the spec: [BodyNodeTopology] and [MultibodyTreeTopology]
    are declared in multibody_tree_topology.h.  A node has its index, its
    depth level, its parent's index, its body, and its slice
    [velocity_start, velocity_start + num_velocities) of the generalized
    velocities; the topology has the nodes, the counts and the height. *)

Definition world_index : nat := 0.

Record BodyNodeTopology := mkBodyNodeTopology {
  index : nat;
  level : nat;
  parent_body_node : nat;
  body : nat;
  num_mobilizer_velocities : nat;
  mobilizer_velocities_start_in_v : nat }.

Record MultibodyTreeTopology := mkTopology {
  is_valid : bool;
  body_nodes : list BodyNodeTopology;
  topology_num_bodies : nat;
  topology_tree_height : nat;
  topology_num_positions : nat;
  topology_num_velocities : nat }.

Definition get_num_body_nodes (topology : MultibodyTreeTopology) : nat :=
  length (body_nodes topology).

(** [topology.get_body_node(i)]. *)
Definition get_body_node (topology : MultibodyTreeTopology) (i : nat)
  : Outcome BodyNodeTopology :=
  at_unchecked (body_nodes topology) i.

(** Modelled from the spec: [MultibodyTreeTopology::GetKinematicPathToWorld]
    is declared in multibody_tree_topology.h; it yields the ancestor chain
    of a node, from the world down to the node. *)
Fixpoint ancestors (topology : MultibodyTreeTopology) (fuel node : nat) : list nat :=
  match fuel with
  | 0 => []
  | S fuel' =>
      if decide (node = world_index) then []
      else match body_nodes topology !! node with
           | Some t => ancestors topology fuel' (parent_body_node t) ++ [node]
           | None => []
           end
  end.

Definition GetKinematicPathToWorld (topology : MultibodyTreeTopology) (from : nat)
  : Outcome (list nat) :=
  t ← get_body_node topology from;
  Ok (world_index :: ancestors topology (level t) from).

(** ** Contexts and caches

    Modelled from the spec: the context holds the generalized positions and
    velocities (multibody_tree_context.h); a cache is a dense array indexed
    by node holding one quantity (position_kinematics_cache.h,
    velocity_kinematics_cache.h). *)

Record MultibodyTreeContext := mkMultibodyTreeContext {
  get_positions : VectorX;
  get_velocities : VectorX }.

(** A [systems::Context<T>]; only a [MultibodyTreeContext<T>] survives the
    [dynamic_cast] every sweep starts with. *)
Inductive systems_Context :=
  | IsMultibodyTreeContext (c : MultibodyTreeContext)
  | OtherContext.

Definition dynamic_cast_MultibodyTreeContext (context : systems_Context)
  : Outcome MultibodyTreeContext :=
  match context with
  | IsMultibodyTreeContext c => Ok c
  | OtherContext => Thrown bad_cast
  end.

Record PositionKinematicsCache := mkPositionKinematicsCache {
  X_WB_pool : list Isometry3 }.

Record VelocityKinematicsCache := mkVelocityKinematicsCache {
  V_WB_pool : list SpatialVelocity }.

Definition get_X_WB (pc : PositionKinematicsCache) (node_index : nat)
  : Outcome Isometry3 :=
  at_unchecked (X_WB_pool pc) node_index.

Definition get_V_WB (vc : VelocityKinematicsCache) (node_index : nat)
  : Outcome SpatialVelocity :=
  at_unchecked (V_WB_pool vc) node_index.

(** [VelocityKinematicsCache<T> vc(topology)]. *)
Definition VelocityKinematicsCache_new (topology : MultibodyTreeTopology)
  : VelocityKinematicsCache :=
  mkVelocityKinematicsCache (replicate (topology_num_bodies topology) Spatial_new).

(** [vc.InitializeToZero()]. *)
Definition InitializeToZero (vc : VelocityKinematicsCache) : VelocityKinematicsCache :=
  mkVelocityKinematicsCache (replicate (length (V_WB_pool vc)) Spatial_Zero).

(** ** Bodies, frames, body nodes

    Modelled from the spec: [Body], [Frame] and [BodyNode] are declared in
    body.h, frame.h and body_node.h; parents and children are kept as indices
    into [body_nodes_]. *)

Record Body := mkBody { body_index : nat; node_index : nat }.

Record Frame := mkFrame {
  frame_body : Body;
  CalcPoseInBodyFrame : systems_Context → Isometry3 }.

(** A [BodyNode<T>]: its topology, the child nodes registered with
    [add_child_node], and whether it has an inboard mobilizer (the world
    node has none). *)
Record BodyNode := mkBodyNode {
  get_topology : BodyNodeTopology;
  children_ : list nat;
  has_mobilizer : bool }.

Definition add_child_node (child : nat) (node : BodyNode) : BodyNode :=
  mkBodyNode (get_topology node) (children_ node ++ [child]) (has_mobilizer node).

(** [segment] with Eigen's range requirement. *)
Definition segment_of {A} (start n : nat) (v : list A) : Outcome (list A) :=
  if decide (start + n ≤ length v) then Ok (segment start n v) else Undefined.

(** Modelled from the spec: [BodyNode::GetJacobianFromArray] is declared in
    body_node.h; it is the block of the node's columns, the slice
    [velocity_start, velocity_start + num_velocities) of the array. *)
Definition GetJacobianFromArray (node : BodyNode) (H_array : list Vector6)
  : Outcome (list Vector6) :=
  segment_of (mobilizer_velocities_start_in_v (get_topology node))
             (num_mobilizer_velocities (get_topology node)) H_array.

(** Modelled from the spec: [Mobilizer::get_generalized_forces_from_array] is
    declared in mobilizer.h; it is the node's slice of a vector of
    generalized forces.  [node.get_mobilizer()] needs the mobilizer. *)
Definition get_generalized_forces_from_array (node : BodyNode) (tau : VectorX)
  : Outcome VectorX :=
  if has_mobilizer node
  then segment_of (mobilizer_velocities_start_in_v (get_topology node))
                  (num_mobilizer_velocities (get_topology node)) tau
  else Undefined.

(** The virtual per-node recursions of [BodyNode<T>] (body_node.h and
    body_node_impl.h), taken as a parameter of the drivers; each takes the
    buffers it is handed and returns them updated. *)
Class BodyNodeImpl := {
  CalcPositionKinematicsCache_BaseToTip :
    BodyNode → MultibodyTreeContext → PositionKinematicsCache →
    Outcome PositionKinematicsCache;
  CalcAcrossNodeGeometricJacobian :
    BodyNode → MultibodyTreeContext → PositionKinematicsCache →
    list Vector6 → Outcome (list Vector6);
  CalcVelocityKinematicsCache_BaseToTip :
    BodyNode → MultibodyTreeContext → PositionKinematicsCache →
    list Vector6 → VelocityKinematicsCache → Outcome VelocityKinematicsCache;
  CalcSpatialAcceleration_BaseToTip :
    BodyNode → MultibodyTreeContext → PositionKinematicsCache →
    VelocityKinematicsCache → VectorX → list SpatialAcceleration →
    Outcome (list SpatialAcceleration);
  CalcInverseDynamics_TipToBase :
    BodyNode → MultibodyTreeContext → PositionKinematicsCache →
    VelocityKinematicsCache → list SpatialAcceleration → SpatialForce →
    VectorX → list SpatialForce → VectorX →
    Outcome (list SpatialForce * VectorX) }.

(** Modelled from the spec: the gravity force element
    (uniform_gravity_field_element.h), a collaborator that supplies its
    generalized forces. *)
Record UniformGravityFieldElement := mkGravity {
  gravity_CalcGravityGeneralizedForces : systems_Context → Outcome VectorX }.

(** ** The tree

    The members of [MultibodyTree<T>] (multibody_tree.h) that the drivers
    below read. *)

Record MultibodyTree := mkMultibodyTree {
  topology_ : MultibodyTreeTopology;
  owned_bodies_ : list Body;
  body_nodes_ : list BodyNode;
  body_node_levels_ : list (list nat);
  gravity_field_ : option UniformGravityFieldElement }.

Definition num_bodies (tree : MultibodyTree) : nat := length (owned_bodies_ tree).
Definition num_velocities (tree : MultibodyTree) : nat :=
  topology_num_velocities (topology_ tree).
Definition tree_height (tree : MultibodyTree) : nat :=
  topology_tree_height (topology_ tree).
Definition topology_is_valid (tree : MultibodyTree) : bool :=
  is_valid (topology_ tree).
Definition get_body (tree : MultibodyTree) (i : nat) : Outcome Body :=
  at_unchecked (owned_bodies_ tree) i.

Definition ThrowIfNotFinalized (tree : MultibodyTree) : Outcome unit :=
  if negb (topology_is_valid tree) then Thrown logic_error else Ok tt.

(** *** FinalizeInternals *)

(** One turn of the loop filling [body_node_levels_]:
    [body_node_levels_[node_topology.level].push_back(body_node_index)]. *)
Definition push_back_level (topology : MultibodyTreeTopology)
    (body_node_index : nat) (levels : list (list nat)) : Outcome (list (list nat)) :=
  node_topology ← get_body_node topology body_node_index;
  lv ← at_unchecked levels (level node_topology);
  Ok (<[level node_topology := lv ++ [body_node_index]]> levels).

(** [CreateBodyNode(body_node_index)]: the node registers itself with its
    parent and is appended to [body_nodes_].  Of the node that
    [mobilizer->CreateBodyNode] makes for the mobilizer looked up in
    [owned_mobilizers_], the tree keeps here that it has a mobilizer; the
    lookup of the mobilizer and the calls on it are not part of this
    model. *)
Definition CreateBodyNode (topology : MultibodyTreeTopology) (bodies : list Body)
    (body_node_index : nat) (nodes : list BodyNode) : Outcome (list BodyNode) :=
  node_topology ← get_body_node topology body_node_index;
  _ ← at_unchecked bodies (body node_topology);
  if decide (body node_topology = world_index)
  then Ok (nodes ++ [mkBodyNode node_topology [] false])
  else
    parent_node ← at_unchecked nodes (parent_body_node node_topology);
    Ok (<[parent_body_node node_topology := add_child_node body_node_index parent_node]> nodes
        ++ [mkBodyNode node_topology [] true]).

(** [FinalizeInternals()], from the finalized topology, the bodies and the
    force elements registered so far.  The level lists are filled from
    body node 1 on; the body nodes are created from body node 0 on.  The
    [SetTopology] calls on the elements and [CreateModelInstances] write
    none of the members kept here and are not part of this model: it gives
    the tree a call leaves behind, and is silent on whether these calls
    return. *)
Definition FinalizeInternals (topology : MultibodyTreeTopology) (bodies : list Body)
    (gravity : option UniformGravityFieldElement) : Outcome MultibodyTree :=
  if negb (is_valid topology) then Thrown logic_error else
  levels ← for_each (seq 1 (get_num_body_nodes topology - 1))
                    (push_back_level topology)
                    (replicate (topology_tree_height topology) []);
  nodes ← for_each (seq 0 (get_num_body_nodes topology))
                   (CreateBodyNode topology bodies) [];
  Ok (mkMultibodyTree topology bodies nodes levels gravity).

(** ** Body nodes

    body_node.h and body_node_impl.h hold the per-node recursions.  They are
    laid out here as the specification describes them, over the quantities a
    mobilizer and a body supply. *)

(** Modelled from the spec: the mobilizer contract and the body's inertia,
    which mobilizer.h, the mobilizer classes and rigid_body.h implement.
    - [X_PB]: the parent-to-body transform, a function of the generalized
      positions only;
    - [H_PB_W]: column [k] of the node's across-node Jacobian, given the
      position kinematics, expressed in the world;
    - [M_B_W]: the six columns of the body's spatial inertia, in the world;
    - [Ab_WB]: the velocity-dependent part of the node's acceleration (the
      bias of the rigid shift and of the time derivative of [H_PB_W]), from
      the parent's and the node's spatial velocities and the node's slice of
      generalized velocities;
    - [Fb_Bo_W]: the velocity-dependent (gyroscopic) part of the body's
      rate of change of momentum. *)
Class NodeKernels := {
  X_PB : nat → VectorX → Isometry3;
  H_PB_W : PositionKinematicsCache → nat → nat → Vector6;
  M_B_W : PositionKinematicsCache → nat → list SpatialVector;
  Ab_WB : PositionKinematicsCache → nat → SpatialVelocity → SpatialVelocity →
          VectorX → SpatialAcceleration;
  Fb_Bo_W : PositionKinematicsCache → nat → SpatialVelocity → SpatialForce }.

Context {K : NodeKernels}.

(** The bias terms are the part of a quantity that nonzero velocity alone
    accounts for: they vanish when the velocities do. *)
Definition bias_terms_vanish : Prop :=
  (∀ pc i n, Ab_WB pc i Spatial_Zero Spatial_Zero (replicate n Tzero) = Spatial_Zero)
  ∧ (∀ pc i, Fb_Bo_W pc i Spatial_Zero = Spatial_Zero).

(** Modelled from the spec: the rigid shift of [SpatialVelocity::Shift] and
    [SpatialAcceleration::Shift].
    Rigid shift of a spatial velocity or acceleration to a point offset by
    [p]: the angular part crossed with the offset adds to the translational
    part.  (The velocity-dependent terms of the shift of an acceleration are
    in [Ab_WB].) *)
Definition shift_motion (V : SpatialVector) (p : Vector3) : SpatialVector :=
  mkSpatial (rotational V) (v3_add (translational V) (cross (rotational V) p)).

(** Modelled from the spec: [SpatialForce::Shift].  A force applied at a
    point offset by [p], as a force at the origin. *)
Definition shift_force (F : SpatialForce) (p : Vector3) : SpatialForce :=
  mkSpatial (v3_add (rotational F) (cross p (translational F))) (translational F).

(** Position of node [b]'s origin from node [a]'s origin, in the world. *)
Definition p_AB_W (pc : PositionKinematicsCache) (a b : nat) : Outcome Vector3 :=
  X_WA ← get_X_WB pc a;
  X_WB ← get_X_WB pc b;
  Ok (v3_sub (translation X_WB) (translation X_WA)).

(** The columns of the node's block [H_PB_W]. *)
Definition node_H_PB_W (pc : PositionKinematicsCache) (t : BodyNodeTopology)
  : list Vector6 :=
  H_PB_W pc (index t) <$> seq 0 (num_mobilizer_velocities t).

Definition node_segment (t : BodyNodeTopology) (v : VectorX) : Outcome VectorX :=
  segment_of (mobilizer_velocities_start_in_v t) (num_mobilizer_velocities t) v.

(** Modelled from the spec: position propagation.  From the parent's world
    pose and the mobilizer's parent-to-body transform, compute and store this
    node's world pose. *)
Definition node_CalcPositionKinematicsCache_BaseToTip (node : BodyNode)
    (context : MultibodyTreeContext) (pc : PositionKinematicsCache)
  : Outcome PositionKinematicsCache :=
  let t := get_topology node in
  X_WP ← get_X_WB pc (parent_body_node t);
  pool ← assign_unchecked (X_WB_pool pc) (index t)
           (compose X_WP (X_PB (index t) (get_positions context)));
  Ok (mkPositionKinematicsCache pool).

(** Modelled from the spec: the node's Jacobian contribution, which depends
    only on the node's own position kinematics. *)
Definition node_CalcAcrossNodeGeometricJacobian (node : BodyNode)
    (context : MultibodyTreeContext) (pc : PositionKinematicsCache)
    (H : list Vector6) : Outcome (list Vector6) :=
  Ok (node_H_PB_W pc (get_topology node)).

(** Modelled from the spec: velocity propagation.  The parent's spatial
    velocity rigidly shifted to this node's body origin, plus [H_PB_W * v]
    for the node's slice [v] of the generalized velocities. *)
Definition node_velocity (V_WP : SpatialVelocity) (p_PB_W : Vector3)
    (H : list Vector6) (v_node : VectorX) : SpatialVelocity :=
  sv_add (shift_motion V_WP p_PB_W) (lincomb H v_node).

Definition node_CalcVelocityKinematicsCache_BaseToTip (node : BodyNode)
    (context : MultibodyTreeContext) (pc : PositionKinematicsCache)
    (H : list Vector6) (vc : VelocityKinematicsCache)
  : Outcome VelocityKinematicsCache :=
  let t := get_topology node in
  V_WP ← get_V_WB vc (parent_body_node t);
  p_PB_W ← p_AB_W pc (parent_body_node t) (index t);
  v_node ← node_segment t (get_velocities context);
  pool ← assign_unchecked (V_WB_pool vc) (index t) (node_velocity V_WP p_PB_W H v_node);
  Ok (mkVelocityKinematicsCache pool).

(** Modelled from the spec: acceleration propagation.  The parent's
    acceleration rigidly shifted, plus the velocity-dependent bias, plus the
    mobility contribution [H_PB_W * vdot] of the node's slice of the known
    generalized accelerations. *)
Definition node_acceleration (pc : PositionKinematicsCache) (t : BodyNodeTopology)
    (A_WP : SpatialAcceleration) (p_PB_W : Vector3) (V_WP V_WB : SpatialVelocity)
    (v_node vdot_node : VectorX) : SpatialAcceleration :=
  sv_add (sv_add (shift_motion A_WP p_PB_W) (Ab_WB pc (index t) V_WP V_WB v_node))
         (lincomb (node_H_PB_W pc t) vdot_node).

Definition node_acceleration_of (t : BodyNodeTopology)
    (context : MultibodyTreeContext) (pc : PositionKinematicsCache)
    (vc : VelocityKinematicsCache) (known_vdot : VectorX)
    (A_WB_array : list SpatialAcceleration) : Outcome SpatialAcceleration :=
  A_WP ← at_unchecked A_WB_array (parent_body_node t);
  p_PB_W ← p_AB_W pc (parent_body_node t) (index t);
  V_WP ← get_V_WB vc (parent_body_node t);
  V_WB ← get_V_WB vc (index t);
  v_node ← node_segment t (get_velocities context);
  vdot_node ← node_segment t known_vdot;
  Ok (node_acceleration pc t A_WP p_PB_W V_WP V_WB v_node vdot_node).

Definition node_CalcSpatialAcceleration_BaseToTip (node : BodyNode)
    (context : MultibodyTreeContext) (pc : PositionKinematicsCache)
    (vc : VelocityKinematicsCache) (known_vdot : VectorX)
    (A_WB_array : list SpatialAcceleration) : Outcome (list SpatialAcceleration) :=
  A_WB ← node_acceleration_of (get_topology node) context pc vc known_vdot A_WB_array;
  assign_unchecked A_WB_array (index (get_topology node)) A_WB.

(** Modelled from the spec: inverse-dynamics force accumulation.  The rate of
    change of the body's momentum [M_B_W * A_WB + Fb_Bo_W], less the applied
    spatial force, plus the forces already accumulated for the children,
    each brought to this body's origin. *)
Definition node_force (pc : PositionKinematicsCache) (t : BodyNodeTopology)
    (A_WB : SpatialAcceleration) (V_WB : SpatialVelocity)
    (Fapplied_Bo_W : SpatialForce) (children : list (Vector3 * SpatialForce))
  : SpatialForce :=
  foldl (λ F child, sv_add F (shift_force child.2 child.1))
        (sv_sub (sv_add (lincomb (M_B_W pc (index t)) (get_coeffs A_WB))
                        (Fb_Bo_W pc (index t) V_WB))
                Fapplied_Bo_W)
        children.

(** The projection through [H_PB_W] transpose onto the node's slice of
    generalized forces, less the applied generalized forces of the slice
    when some are supplied. *)
Definition node_tau (pc : PositionKinematicsCache) (t : BodyNodeTopology)
    (F_BMo_W : SpatialForce) (tau_applied : VectorX) : VectorX :=
  let tau := project (node_H_PB_W pc t) F_BMo_W in
  if decide (length tau_applied ≠ 0) then zip_with Tsub tau tau_applied else tau.

(** The children's accumulated forces, with the position of each child from
    this node. *)
Definition children_forces (pc : PositionKinematicsCache) (t : BodyNodeTopology)
    (children : list nat) (F_BMo_W_array : list SpatialForce)
  : Outcome (list (Vector3 * SpatialForce)) :=
  for_each children (λ c acc,
    F_C ← at_unchecked F_BMo_W_array c;
    p_BC_W ← p_AB_W pc (index t) c;
    Ok (acc ++ [(p_BC_W, F_C)])) [].

Definition node_force_of (node : BodyNode) (pc : PositionKinematicsCache)
    (vc : VelocityKinematicsCache) (A_WB_array : list SpatialAcceleration)
    (Fapplied_Bo_W : SpatialForce) (F_BMo_W_array : list SpatialForce)
  : Outcome SpatialForce :=
  let t := get_topology node in
  A_WB ← at_unchecked A_WB_array (index t);
  V_WB ← get_V_WB vc (index t);
  children ← children_forces pc t (children_ node) F_BMo_W_array;
  Ok (node_force pc t A_WB V_WB Fapplied_Bo_W children).

Definition node_CalcInverseDynamics_TipToBase (node : BodyNode)
    (context : MultibodyTreeContext) (pc : PositionKinematicsCache)
    (vc : VelocityKinematicsCache) (A_WB_array : list SpatialAcceleration)
    (Fapplied_Bo_W : SpatialForce) (tau_applied : VectorX)
    (F_BMo_W_array : list SpatialForce) (tau_array : VectorX)
  : Outcome (list SpatialForce * VectorX) :=
  let t := get_topology node in
  F_BMo_W ← node_force_of node pc vc A_WB_array Fapplied_Bo_W F_BMo_W_array;
  F_BMo_W_array ← assign_unchecked F_BMo_W_array (index t) F_BMo_W;
  _ ← node_segment t tau_array;
  _ ← (if decide (length tau_applied = 0 ∨ length tau_applied = num_mobilizer_velocities t)
       then Ok tt else Undefined);
  Ok (F_BMo_W_array,
      set_segment (mobilizer_velocities_start_in_v t)
                  (node_tau pc t F_BMo_W tau_applied) tau_array).

(** The body node recursions as the specification lays them out. *)
Definition BodyNode_of_kernels : BodyNodeImpl := {|
  CalcPositionKinematicsCache_BaseToTip := node_CalcPositionKinematicsCache_BaseToTip;
  CalcAcrossNodeGeometricJacobian := node_CalcAcrossNodeGeometricJacobian;
  CalcVelocityKinematicsCache_BaseToTip := node_CalcVelocityKinematicsCache_BaseToTip;
  CalcSpatialAcceleration_BaseToTip := node_CalcSpatialAcceleration_BaseToTip;
  CalcInverseDynamics_TipToBase := node_CalcInverseDynamics_TipToBase |}.

(** *** The recurrences the sweeps solve

    What the arrays hold once a sweep over these body nodes is through,
    stated without reference to the order of the sweep. *)

(** The world is at rest, and every other node's acceleration is the one its
    recursion gives from the parent's entry. *)
Definition accelerations_rec (topology : MultibodyTreeTopology)
    (context : MultibodyTreeContext) (pc : PositionKinematicsCache)
    (vc : VelocityKinematicsCache) (known_vdot : VectorX)
    (A_WB_array : list SpatialAcceleration) : Prop :=
  A_WB_array !! world_index = Some Spatial_Zero
  ∧ ∀ i t, body_nodes topology !! i = Some t → i ≠ world_index →
      ∃ A_WB, node_acceleration_of t context pc vc known_vdot A_WB_array = Ok A_WB
              ∧ A_WB_array !! i = Some A_WB.

(** The spatial force applied to node [i], and the generalized forces applied
    to the mobilities of a node, as [CalcInverseDynamics] takes them from the
    contents of its input arrays; an empty array means none. *)
Definition applied_spatial_force (Fapplied : list SpatialForce) (i : nat)
  : SpatialForce :=
  if decide (length Fapplied ≠ 0) then default Spatial_Zero (Fapplied !! i)
  else Spatial_Zero.

Definition applied_generalized_forces (tau_applied : VectorX) (t : BodyNodeTopology)
  : VectorX :=
  if decide (length tau_applied ≠ 0)
  then segment (mobilizer_velocities_start_in_v t) (num_mobilizer_velocities t)
               tau_applied
  else [].

(** Every node but the world holds the force its recursion gives from its
    children's entries, and its slice of the generalized forces holds the
    projection of that force. *)
Definition forces_rec (nodes : list BodyNode) (pc : PositionKinematicsCache)
    (vc : VelocityKinematicsCache) (A_WB_array : list SpatialAcceleration)
    (Fapplied : list SpatialForce) (tau_applied : VectorX)
    (F_BMo_W_array : list SpatialForce) (tau_array : VectorX) : Prop :=
  ∀ i node, nodes !! i = Some node → i ≠ world_index →
    ∃ F_BMo_W,
      node_force_of node pc vc A_WB_array (applied_spatial_force Fapplied i)
        F_BMo_W_array = Ok F_BMo_W
      ∧ F_BMo_W_array !! i = Some F_BMo_W
      ∧ node_segment (get_topology node) tau_array
        = Ok (node_tau pc (get_topology node) F_BMo_W
                (applied_generalized_forces tau_applied (get_topology node))).

(** ** Sweep drivers *)

Context {impl : BodyNodeImpl}.

(** The nested loops every sweep is written with:

      for depth in depths
        for body_node_index in body_node_levels_[depth]
          node = *body_nodes_[body_node_index];  body(node)

    The [DRAKE_ASSERT]s on the node's level and index are compiled out. *)
Definition sweep {S} (tree : MultibodyTree) (depths : list nat)
    (body : nat → BodyNode → S → Outcome S) (s : S) : Outcome S :=
  for_each depths (λ depth s,
    body_node_level ← at_unchecked (body_node_levels_ tree) depth;
    for_each body_node_level (λ body_node_index s,
      node ← at_unchecked (body_nodes_ tree) body_node_index;
      body body_node_index node s) s) s.

(** [for (depth = 1; depth < tree_height(); ++depth)]. *)
Definition base_to_tip (tree : MultibodyTree) : list nat :=
  seq 1 (tree_height tree - 1).

(** [for (depth = tree_height() - 1; depth >= 0; --depth)]. *)
Definition tip_to_base (tree : MultibodyTree) : list nat :=
  reverse (seq 0 (tree_height tree)).

Definition CalcPositionKinematicsCache (tree : MultibodyTree)
    (context : systems_Context) (pc : option PositionKinematicsCache)
  : Outcome PositionKinematicsCache :=
  _ ← DRAKE_DEMAND (bool_decide (is_Some pc));
  pc ← from_option Ok Undefined pc;
  mbt_context ← dynamic_cast_MultibodyTreeContext context;
  sweep tree (base_to_tip tree)
    (λ _ node pc, CalcPositionKinematicsCache_BaseToTip node mbt_context pc) pc.

Definition CalcAcrossNodeGeometricJacobianExpressedInWorld (tree : MultibodyTree)
    (context : systems_Context) (pc : PositionKinematicsCache)
    (H_PB_W_cache : option (list Vector6)) : Outcome (list Vector6) :=
  _ ← DRAKE_DEMAND (bool_decide (is_Some H_PB_W_cache));
  H_PB_W_cache ← from_option Ok Undefined H_PB_W_cache;
  _ ← DRAKE_DEMAND (bool_decide (length H_PB_W_cache = num_velocities tree));
  mbt_context ← dynamic_cast_MultibodyTreeContext context;
  for_each (seq 1 (num_bodies tree - 1)) (λ node_index H_PB_W_cache,
    node ← at_unchecked (body_nodes_ tree) node_index;
    H_PB_W ← GetJacobianFromArray node H_PB_W_cache;
    H_PB_W ← CalcAcrossNodeGeometricJacobian node mbt_context pc H_PB_W;
    Ok (set_segment (mobilizer_velocities_start_in_v (get_topology node))
                    H_PB_W H_PB_W_cache)) H_PB_W_cache.

Definition CalcVelocityKinematicsCache (tree : MultibodyTree)
    (context : systems_Context) (pc : PositionKinematicsCache)
    (vc : option VelocityKinematicsCache) : Outcome VelocityKinematicsCache :=
  _ ← DRAKE_DEMAND (bool_decide (is_Some vc));
  vc ← from_option Ok Undefined vc;
  mbt_context ← dynamic_cast_MultibodyTreeContext context;
  H_PB_W_cache ← CalcAcrossNodeGeometricJacobianExpressedInWorld tree context pc
                   (Some (replicate (num_velocities tree) Spatial_new));
  sweep tree (base_to_tip tree)
    (λ _ node vc,
       H_PB_W ← GetJacobianFromArray node H_PB_W_cache;
       CalcVelocityKinematicsCache_BaseToTip node mbt_context pc H_PB_W vc) vc.

(** Modelled from the spec: [EvalPositionKinematics] and
    [EvalVelocityKinematics] are declared in multibody_tree.h; they retrieve
    from the context the cache that the corresponding sweep computes for the
    context's positions and velocities.  The world's entry of a cache is the
    identity, respectively zero. *)
Definition EvalPositionKinematics (tree : MultibodyTree) (context : systems_Context)
  : Outcome PositionKinematicsCache :=
  CalcPositionKinematicsCache tree context
    (Some (mkPositionKinematicsCache
             (replicate (topology_num_bodies (topology_ tree)) Isometry3_Identity))).

(** Modelled from the spec: [EvalVelocityKinematics], as
    [EvalPositionKinematics] above. *)
Definition EvalVelocityKinematics (tree : MultibodyTree) (context : systems_Context)
  : Outcome VelocityKinematicsCache :=
  pc ← EvalPositionKinematics tree context;
  CalcVelocityKinematicsCache tree context pc
    (Some (InitializeToZero (VelocityKinematicsCache_new (topology_ tree)))).

(** [std::vector::resize(n, value)]. *)
Definition resize {A} (n : nat) (value : A) (l : list A) : list A :=
  take n l ++ replicate (n - length l) value.

Definition CalcAllBodyPosesInWorld (tree : MultibodyTree)
    (context : systems_Context) (X_WB : option (list Isometry3))
  : Outcome (list Isometry3) :=
  _ ← DRAKE_THROW_UNLESS (bool_decide (is_Some X_WB));
  X_WB ← from_option Ok Undefined X_WB;
  let X_WB := if decide (length X_WB ≠ num_bodies tree)
              then resize (num_bodies tree) Isometry3_Identity X_WB else X_WB in
  pc ← EvalPositionKinematics tree context;
  for_each (seq 0 (num_bodies tree)) (λ body_index X_WB,
    body_B ← get_body tree body_index;
    X ← get_X_WB pc (node_index body_B);
    assign_at X_WB body_index X) X_WB.

Definition CalcAllBodySpatialVelocitiesInWorld (tree : MultibodyTree)
    (context : systems_Context) (V_WB : option (list SpatialVelocity))
  : Outcome (list SpatialVelocity) :=
  _ ← DRAKE_THROW_UNLESS (bool_decide (is_Some V_WB));
  V_WB ← from_option Ok Undefined V_WB;
  let V_WB := if decide (length V_WB ≠ num_bodies tree)
              then resize (num_bodies tree) Spatial_Zero V_WB else V_WB in
  vc ← EvalVelocityKinematics tree context;
  for_each (seq 0 (num_bodies tree)) (λ body_index V_WB,
    body_B ← get_body tree body_index;
    V ← get_V_WB vc (node_index body_B);
    assign_at V_WB body_index V) V_WB.

Definition CalcSpatialAccelerationsFromVdot (tree : MultibodyTree)
    (context : systems_Context) (pc : PositionKinematicsCache)
    (vc : VelocityKinematicsCache) (known_vdot : VectorX)
    (A_WB_array : option (list SpatialAcceleration))
  : Outcome (list SpatialAcceleration) :=
  _ ← DRAKE_DEMAND (bool_decide (is_Some A_WB_array));
  A_WB_array ← from_option Ok Undefined A_WB_array;
  _ ← DRAKE_DEMAND (bool_decide (length A_WB_array = num_bodies tree));
  _ ← DRAKE_DEMAND (bool_decide (length known_vdot
                                 = topology_num_velocities (topology_ tree)));
  mbt_context ← dynamic_cast_MultibodyTreeContext context;
  (* The world's spatial acceleration is always zero. *)
  A_WB_array ← assign_at A_WB_array world_index Spatial_Zero;
  sweep tree (base_to_tip tree)
    (λ _ node A_WB_array,
       CalcSpatialAcceleration_BaseToTip node mbt_context pc vc known_vdot A_WB_array)
    A_WB_array.

(** An array argument passed by const reference.  The caller may hand in the
    very object it also passes as the output: then every read of the input
    sees what the output holds at that moment. *)
Inductive InputArray (A : Type) :=
  | Distinct (l : list A)
  | SameAsOutput.
Arguments Distinct {A} l.
Arguments SameAsOutput {A}.

Definition read_input {A} (input : InputArray A) (output : list A) : list A :=
  match input with Distinct l => l | SameAsOutput => output end.

(** The locals and the output buffers of the tip-to-base loop of
    [CalcInverseDynamics]. *)
Record InverseDynamicsState := mkInverseDynamicsState {
  tau_applied_mobilizer : VectorX;
  Fapplied_Bo_W : SpatialForce;
  F_BMo_W_array_ : list SpatialForce;
  tau_array_ : VectorX }.

Definition CalcInverseDynamics (tree : MultibodyTree)
    (context : systems_Context) (pc : PositionKinematicsCache)
    (vc : VelocityKinematicsCache) (known_vdot : VectorX)
    (Fapplied_Bo_W_array : InputArray SpatialForce)
    (tau_applied_array : InputArray T)
    (A_WB_array : option (list SpatialAcceleration))
    (F_BMo_W_array : option (list SpatialForce))
    (tau_array : option VectorX)
  : Outcome (list SpatialAcceleration * list SpatialForce * VectorX) :=
  _ ← DRAKE_DEMAND (bool_decide (length known_vdot = num_velocities tree));
  let Fapplied_size :=
    length (read_input Fapplied_Bo_W_array (default [] F_BMo_W_array)) in
  _ ← DRAKE_DEMAND (bool_decide (Fapplied_size = num_bodies tree ∨ Fapplied_size = 0));
  let tau_applied_size :=
    length (read_input tau_applied_array (default [] tau_array)) in
  _ ← DRAKE_DEMAND (bool_decide (tau_applied_size = num_velocities tree
                                 ∨ tau_applied_size = 0));
  _ ← DRAKE_DEMAND (bool_decide (is_Some A_WB_array));
  _ ← DRAKE_DEMAND (bool_decide (length (default [] A_WB_array) = num_bodies tree));
  _ ← DRAKE_DEMAND (bool_decide (is_Some F_BMo_W_array));
  F_BMo_W_array ← from_option Ok Undefined F_BMo_W_array;
  _ ← DRAKE_DEMAND (bool_decide (length F_BMo_W_array = num_bodies tree));
  (* [tau_array->size()] dereferences the pointer without a null check *)
  tau_array ← from_option Ok Undefined tau_array;
  _ ← DRAKE_DEMAND (bool_decide (length tau_array = num_velocities tree));
  mbt_context ← dynamic_cast_MultibodyTreeContext context;
  A_WB_array ← CalcSpatialAccelerationsFromVdot tree context pc vc known_vdot A_WB_array;
  s ← sweep tree (tip_to_base tree)
    (λ body_node_index node s,
       tau_applied_mobilizer ←
         (if decide (tau_applied_size ≠ 0)
          then get_generalized_forces_from_array node
                 (read_input tau_applied_array (tau_array_ s))
          else Ok (tau_applied_mobilizer s));
       Fapplied_Bo_W ←
         (if decide (Fapplied_size ≠ 0)
          then at_unchecked (read_input Fapplied_Bo_W_array (F_BMo_W_array_ s))
                            body_node_index
          else Ok (Fapplied_Bo_W s));
       '(F_BMo_W_array, tau_array) ←
         CalcInverseDynamics_TipToBase node mbt_context pc vc A_WB_array
           Fapplied_Bo_W tau_applied_mobilizer (F_BMo_W_array_ s) (tau_array_ s);
       Ok (mkInverseDynamicsState tau_applied_mobilizer Fapplied_Bo_W
             F_BMo_W_array tau_array))
    (mkInverseDynamicsState [] Spatial_Zero F_BMo_W_array tau_array);
  Ok (A_WB_array, F_BMo_W_array_ s, tau_array_ s).

(** [H->col(j) = tau]. *)
Definition set_col (j : nat) (tau : VectorX) (H : option MatrixX) : Outcome MatrixX :=
  H ← from_option Ok Undefined H;
  if decide (j < mcols H ∧ length tau = mrows H)
  then Ok (mkMatrixX (mrows H) (<[j := tau]> (mcolumns H)))
  else Undefined.

(** The buffers of [DoCalcMassMatrixViaInverseDynamics] that live across the
    probes. *)
Record MassMatrixState := mkMassMatrixState {
  mm_vdot : VectorX;
  mm_tau : VectorX;
  mm_A_WB_array : list SpatialAcceleration;
  mm_F_BMo_W_array : list SpatialForce;
  mm_H : option MatrixX }.

(** One turn of the loop over the columns. *)
Definition mass_matrix_probe (tree : MultibodyTree) (context : systems_Context)
    (pc : PositionKinematicsCache) (vc : VelocityKinematicsCache)
    (j : nat) (s : MassMatrixState) : Outcome MassMatrixState :=
  let nv := num_velocities tree in
  let vdot := VectorX_Unit nv j in
  let tau := VectorX_Zero (length (mm_tau s)) in
  '(A_WB_array, F_BMo_W_array, tau) ←
    CalcInverseDynamics tree context pc vc vdot (Distinct []) (Distinct [])
      (Some (mm_A_WB_array s)) (Some (mm_F_BMo_W_array s)) (Some tau);
  H ← set_col j tau (mm_H s);
  Ok (mkMassMatrixState vdot tau A_WB_array F_BMo_W_array (Some H)).

Definition DoCalcMassMatrixViaInverseDynamics (tree : MultibodyTree)
    (context : systems_Context) (pc : PositionKinematicsCache)
    (H : option MatrixX) : Outcome (option MatrixX) :=
  let vc := InitializeToZero (VelocityKinematicsCache_new (topology_ tree)) in
  let nv := num_velocities tree in
  s ← for_each (seq 0 nv) (mass_matrix_probe tree context pc vc)
        (mkMassMatrixState (VectorX_new nv) (VectorX_new nv)
           (replicate (num_bodies tree) Spatial_new)
           (replicate (num_bodies tree) Spatial_new) H);
  Ok (mm_H s).


Definition CalcMassMatrixViaInverseDynamics (tree : MultibodyTree)
    (context : systems_Context) (H : option MatrixX) : Outcome (option MatrixX) :=
  _ ← DRAKE_DEMAND (bool_decide (is_Some H));
  _ ← DRAKE_DEMAND (bool_decide (from_option mrows 0 H = num_velocities tree));
  _ ← DRAKE_DEMAND (bool_decide (from_option mcols 0 H = num_velocities tree));
  pc ← EvalPositionKinematics tree context;
  DoCalcMassMatrixViaInverseDynamics tree context pc H.

Definition DoCalcBiasTerm (tree : MultibodyTree) (context : systems_Context)
    (pc : PositionKinematicsCache) (vc : VelocityKinematicsCache)
    (Cv : option VectorX) : Outcome VectorX :=
  let nv := num_velocities tree in
  let vdot := VectorX_Zero nv in
  '(_, _, Cv) ←
    CalcInverseDynamics tree context pc vc vdot (Distinct []) (Distinct [])
      (Some (replicate (num_bodies tree) Spatial_new))
      (Some (replicate (num_bodies tree) Spatial_new)) Cv;
  Ok Cv.

Definition CalcBiasTerm (tree : MultibodyTree) (context : systems_Context)
    (Cv : option VectorX) : Outcome VectorX :=
  _ ← DRAKE_DEMAND (bool_decide (is_Some Cv));
  _ ← DRAKE_DEMAND (bool_decide (from_option length 0 Cv = num_velocities tree));
  (* [Cv->cols() == 1] holds of every [VectorX] *)
  pc ← EvalPositionKinematics tree context;
  vc ← EvalVelocityKinematics tree context;
  DoCalcBiasTerm tree context pc vc Cv.

Definition CalcGravityGeneralizedForces (tree : MultibodyTree)
    (context : systems_Context) : Outcome VectorX :=
  _ ← ThrowIfNotFinalized tree;
  match gravity_field_ tree with
  | Some gravity => gravity_CalcGravityGeneralizedForces gravity context
  | None => Ok (VectorX_Zero (num_velocities tree))
  end.

(** *** Point positions and Jacobians *)

Definition CalcRelativeTransform (tree : MultibodyTree) (context : systems_Context)
    (frame_A frame_B : Frame) : Outcome Isometry3 :=
  pc ← EvalPositionKinematics tree context;
  X_WAb ← get_X_WB pc (node_index (frame_body frame_A));
  let X_WA := compose X_WAb (CalcPoseInBodyFrame frame_A context) in
  X_WBb ← get_X_WB pc (node_index (frame_body frame_B));
  let X_WB := compose X_WBb (CalcPoseInBodyFrame frame_B context) in
  Ok (compose (inverse X_WA) X_WB).

Definition CalcPointsPositions (tree : MultibodyTree) (context : systems_Context)
    (frame_B : Frame) (p_BQi : MatrixX) (frame_A : Frame) (p_AQi : option MatrixX)
  : Outcome MatrixX :=
  _ ← DRAKE_THROW_UNLESS (bool_decide (mrows p_BQi = 3));
  _ ← DRAKE_THROW_UNLESS (bool_decide (is_Some p_AQi));
  p_AQi ← from_option Ok Undefined p_AQi;
  _ ← DRAKE_THROW_UNLESS (bool_decide (mrows p_AQi = 3));
  _ ← DRAKE_THROW_UNLESS (bool_decide (mcols p_AQi = mcols p_BQi));
  X_AB ← CalcRelativeTransform tree context frame_A frame_B;
  Ok (mkMatrixX (mrows p_AQi)
        ((λ p, v3_coeffs (transform X_AB (v3_of_coeffs p))) <$> mcolumns p_BQi)).

(** [world_frame()]: the body frame of the world body. *)
Definition world_frame (tree : MultibodyTree) : Frame :=
  mkFrame (default (mkBody world_index world_index) (owned_bodies_ tree !! world_index))
          (λ _, Isometry3_Identity).

(** [M->setZero()]. *)
Definition setZero (M : MatrixX) : MatrixX :=
  mkMatrixX (mrows M) (replicate (mcols M) (replicate (mrows M) Tzero)).

(** [M.block(row, col, 3, n) = B], for [B] given by its [n] columns. *)
Definition set_block (row col : nat) (B : list (list T)) (M : MatrixX) : MatrixX :=
  mkMatrixX (mrows M)
    (imap (λ c column,
             if decide (col ≤ c)
             then from_option (λ b, set_segment row b column) column (B !! (c - col))
             else column) (mcolumns M)).

Definition CalcFrameJacobianExpressedInWorld (tree : MultibodyTree)
    (context : systems_Context) (frame_F : Frame) (p_WQ_list : MatrixX)
    (Jw_WFq Jv_WFq : option MatrixX) : Outcome (option MatrixX * option MatrixX) :=
  _ ← DRAKE_THROW_UNLESS (bool_decide (is_Some Jw_WFq ∨ is_Some Jv_WFq));
  _ ← from_option (λ Jw,
        _ ← DRAKE_THROW_UNLESS (bool_decide (mrows Jw = 3));
        DRAKE_THROW_UNLESS (bool_decide (mcols Jw = num_velocities tree)))
      (Ok tt) Jw_WFq;
  let num_points := mcols p_WQ_list in
  let Jv_nrows := 3 * num_points in
  _ ← from_option (λ Jv,
        _ ← DRAKE_THROW_UNLESS (bool_decide (mrows Jv = Jv_nrows));
        DRAKE_THROW_UNLESS (bool_decide (mcols Jv = num_velocities tree)))
      (Ok tt) Jv_WFq;
  let Jw_WFq := setZero <$> Jw_WFq in
  let Jv_WFq := setZero <$> Jv_WFq in
  let body_B := frame_body frame_F in
  if decide (body_index body_B = world_index) then Ok (Jw_WFq, Jv_WFq) else
  path_to_world ← GetKinematicPathToWorld (topology_ tree) (node_index body_B);
  pc ← EvalPositionKinematics tree context;
  H_PB_W_cache ← CalcAcrossNodeGeometricJacobianExpressedInWorld tree context pc
                   (Some (replicate (num_velocities tree) Spatial_new));
  for_each (seq 1 (length path_to_world - 1)) (λ ilevel '(Jw_WFq, Jv_WFq),
    body_node_index ← at_unchecked path_to_world ilevel;
    node ← at_unchecked (body_nodes_ tree) body_node_index;
    let start_index_in_v := mobilizer_velocities_start_in_v (get_topology node) in
    H_PB_W ← GetJacobianFromArray node H_PB_W_cache;
    let Jw_WFq :=
      set_block 0 start_index_in_v ((λ h, v3_coeffs (rotational h)) <$> H_PB_W)
        <$> Jw_WFq in
    Jv_WFq ← from_option (λ Jv,
        X_WBi ← get_X_WB pc body_node_index;
        let p_WBi := translation X_WBi in
        Jv ← for_each (seq 0 num_points) (λ ipoint Jv,
               p_WQ ← at_unchecked (mcolumns p_WQ_list) ipoint;
               let p_BiQ_W := v3_sub (v3_of_coeffs p_WQ) p_WBi in
               Ok (set_block (3 * ipoint) start_index_in_v
                     ((λ h, v3_coeffs (v3_add (translational h)
                                              (cross (rotational h) p_BiQ_W)))
                        <$> H_PB_W) Jv)) Jv;
        Ok (Some Jv)) (Ok None) Jv_WFq;
    Ok (Jw_WFq, Jv_WFq)) (Jw_WFq, Jv_WFq).

(** The overload taking the points already expressed in the world. *)
Definition CalcPointsGeometricJacobianExpressedInWorld_W (tree : MultibodyTree)
    (context : systems_Context) (frame_F : Frame) (p_WQ_list : MatrixX)
    (Jv_WFq : option MatrixX) : Outcome MatrixX :=
  _ ← DRAKE_THROW_UNLESS (bool_decide (mrows p_WQ_list = 3));
  let num_points := mcols p_WQ_list in
  _ ← DRAKE_THROW_UNLESS (bool_decide (is_Some Jv_WFq));
  _ ← DRAKE_THROW_UNLESS (bool_decide (from_option mrows 0 Jv_WFq = 3 * num_points));
  _ ← DRAKE_THROW_UNLESS (bool_decide (from_option mcols 0 Jv_WFq = num_velocities tree));
  '(_, Jv_WFq) ← CalcFrameJacobianExpressedInWorld tree context frame_F p_WQ_list
                   None Jv_WFq;
  from_option Ok Undefined Jv_WFq.

(** The overload taking the points in frame B; returns [p_WQi_set] and
    [Jv_WQi]. *)
Definition CalcPointsGeometricJacobianExpressedInWorld (tree : MultibodyTree)
    (context : systems_Context) (frame_B : Frame) (p_BQi_set : MatrixX)
    (p_WQi_set Jv_WQi : option MatrixX) : Outcome (MatrixX * MatrixX) :=
  _ ← DRAKE_THROW_UNLESS (bool_decide (mrows p_BQi_set = 3));
  let num_points := mcols p_BQi_set in
  _ ← DRAKE_THROW_UNLESS (bool_decide (is_Some p_WQi_set));
  _ ← DRAKE_THROW_UNLESS (bool_decide (from_option mcols 0 p_WQi_set = num_points));
  _ ← DRAKE_THROW_UNLESS (bool_decide (is_Some Jv_WQi));
  _ ← DRAKE_THROW_UNLESS (bool_decide (from_option mrows 0 Jv_WQi = 3 * num_points));
  _ ← DRAKE_THROW_UNLESS (bool_decide (from_option mcols 0 Jv_WQi = num_velocities tree));
  p_WQi_set ← CalcPointsPositions tree context frame_B p_BQi_set
                (world_frame tree) p_WQi_set;
  Jv_WQi ← CalcPointsGeometricJacobianExpressedInWorld_W tree context frame_B
             p_WQi_set Jv_WQi;
  Ok (p_WQi_set, Jv_WQi).

End Model.

Arguments Distinct {A} l.
Arguments SameAsOutput {A}.

Abbreviation VectorX := (list _) (only parsing).
Abbreviation SpatialVelocity := SpatialVector (only parsing).
Abbreviation SpatialAcceleration := SpatialVector (only parsing).
Abbreviation SpatialForce := SpatialVector (only parsing).
Abbreviation Vector6 := SpatialVector (only parsing).

(** ** Well-formed topologies

    What the topology provider guarantees of a finalized topology: the world
    is node 0 at level 0 and has no mobilities; every other node comes after
    its parent, one level below it; the velocity slices of the nodes
    partition the generalized velocities. *)

Definition owns (t : BodyNodeTopology) (k : nat) : Prop :=
  mobilizer_velocities_start_in_v t ≤ k
  ∧ k < mobilizer_velocities_start_in_v t + num_mobilizer_velocities t.

Definition node_topology_wf (topology : MultibodyTreeTopology)
    (i : nat) (t : BodyNodeTopology) : Prop :=
  index t = i
  ∧ level t < topology_tree_height topology
  ∧ mobilizer_velocities_start_in_v t + num_mobilizer_velocities t
    ≤ topology_num_velocities topology
  ∧ body t < topology_num_bodies topology
  ∧ if decide (i = world_index)
    then body t = world_index ∧ level t = 0 ∧ num_mobilizer_velocities t = 0
    else body t ≠ world_index ∧ parent_body_node t < i ∧ 0 < level t
         ∧ level <$> body_nodes topology !! parent_body_node t = Some (level t - 1).

Definition slices_disjoint (t1 t2 : BodyNodeTopology) : Prop :=
  index t1 = index t2
  ∨ mobilizer_velocities_start_in_v t1 + num_mobilizer_velocities t1
    ≤ mobilizer_velocities_start_in_v t2
  ∨ mobilizer_velocities_start_in_v t2 + num_mobilizer_velocities t2
    ≤ mobilizer_velocities_start_in_v t1.

Definition topology_wf (topology : MultibodyTreeTopology) : Prop :=
  is_valid topology = true
  ∧ 0 < length (body_nodes topology)
  ∧ length (body_nodes topology) = topology_num_bodies topology
  ∧ Forall (λ it, node_topology_wf topology it.1 it.2)
           (zip (seq 0 (length (body_nodes topology))) (body_nodes topology))
  ∧ Forall (λ k, Exists (λ t, owns t k) (body_nodes topology))
           (seq 0 (topology_num_velocities topology))
  ∧ Forall (λ t1, Forall (slices_disjoint t1) (body_nodes topology))
           (body_nodes topology).

#[global] Instance node_topology_wf_dec topology i t :
  Decision (node_topology_wf topology i t).
Proof. unfold node_topology_wf. destruct (decide (i = world_index)); apply _. Defined.

#[global] Instance topology_wf_dec topology : Decision (topology_wf topology).
Proof. unfold topology_wf, owns, slices_disjoint. apply _. Defined.

(** Level of node [i], as the topology has it. *)
Definition node_level (topology : MultibodyTreeTopology) (i : nat) : nat :=
  from_option level 0 (body_nodes topology !! i).

(** The non-world nodes of level [d], in index order. *)
Definition nodes_of_level (topology : MultibodyTreeTopology) (d : nat) : list nat :=
  filter (λ i, level <$> body_nodes topology !! i = Some d)
         (seq 1 (length (body_nodes topology) - 1)).

(** What [FinalizeInternals] makes of body node [i]: it carries the topology
    of node [i]; every node but the world has a mobilizer; the children
    registered with a node are non-world nodes whose parent it is. *)
Definition node_spec (topology : MultibodyTreeTopology) (i : nat) (node : BodyNode)
  : Prop :=
  body_nodes topology !! i = Some (get_topology node)
  ∧ has_mobilizer node = bool_decide (i ≠ 0)
  ∧ ∀ c, c ∈ children_ node →
      c ≠ 0 ∧ ∃ tc, body_nodes topology !! c = Some tc ∧ parent_body_node tc = i.

(** ** A small mechanism over the integers

    World, a one-mobility link and a welded link on the world, and a
    two-mobility link on the first link. *)

Module Example.

Definition topology : MultibodyTreeTopology :=
  mkTopology true
    [ mkBodyNodeTopology 0 0 0 0 0 0;
      mkBodyNodeTopology 1 1 0 1 1 0;
      mkBodyNodeTopology 2 1 0 2 0 1;
      mkBodyNodeTopology 3 2 1 3 2 1 ]
    4 3 3 3.

Definition bodies : list Body :=
  [ mkBody 0 0; mkBody 1 1; mkBody 2 2; mkBody 3 3 ].

Definition e (a b c : Z) : Vector3 := mkVector3 a b c.

#[local] Instance kernels : NodeKernels (T := Z) := {|
  X_PB := λ i q,
    mkIsometry3 (e 1 0 0, e 0 1 0, e 0 0 1)
      (match i with 1 => e 1 0 0 | 2 => e 0 1 0 | _ => e 1 1 0 end);
  H_PB_W := λ pc i k,
    match i, k with
    | 1, _ => mkSpatial (e 0 0 1) (e 0 0 0)
    | 3, 0 => mkSpatial (e 0 0 1) (e 0 0 0)
    | _, _ => mkSpatial (e 0 0 0) (e 1 0 0)
    end;
  M_B_W := λ pc i,
    [ mkSpatial (e 1 0 0) (e 0 0 0); mkSpatial (e 0 1 0) (e 0 0 0);
      mkSpatial (e 0 0 1) (e 0 0 0); mkSpatial (e 0 0 0) (e 2 0 0);
      mkSpatial (e 0 0 0) (e 0 2 0); mkSpatial (e 0 0 0) (e 0 0 2) ];
  Ab_WB := λ pc i V_WP V_WB v,
    mkSpatial (cross (rotational V_WP) (rotational V_WB))
              (cross (rotational V_WP) (translational V_WB));
  Fb_Bo_W := λ pc i V,
    mkSpatial (cross (rotational V) (rotational V))
              (v3_scale 2%Z (cross (rotational V) (translational V))) |}.

Definition impl : BodyNodeImpl (T := Z) := BodyNode_of_kernels.

(** The same body nodes, except that the bias of the acceleration also
    takes in the node's slice of the generalized velocities of the context,
    whatever the velocity cache holds. *)
Definition kernels_reading_context : NodeKernels (T := Z) := {|
  X_PB := X_PB (NodeKernels := kernels);
  H_PB_W := H_PB_W (NodeKernels := kernels);
  M_B_W := M_B_W (NodeKernels := kernels);
  Ab_WB := λ pc i V_WP V_WB v,
    mkSpatial (cross (rotational V_WP) (rotational V_WB))
              (v3_add (cross (rotational V_WP) (translational V_WB))
                      (e (foldr Z.add 0%Z v) 0 0));
  Fb_Bo_W := Fb_Bo_W (NodeKernels := kernels) |}.

Definition tree : MultibodyTree (T := Z) :=
  mkMultibodyTree topology bodies
    [ mkBodyNode (mkBodyNodeTopology 0 0 0 0 0 0) [1; 2] false;
      mkBodyNode (mkBodyNodeTopology 1 1 0 1 1 0) [3] true;
      mkBodyNode (mkBodyNodeTopology 2 1 0 2 0 1) [] true;
      mkBodyNode (mkBodyNodeTopology 3 2 1 3 2 1) [] true ]
    [ []; [1; 2]; [3] ] None.

Definition context : systems_Context (T := Z) :=
  IsMultibodyTreeContext (mkMultibodyTreeContext [0; 0; 0; 0]%Z [1; 2; 3]%Z).

Definition context_at_rest : systems_Context (T := Z) :=
  IsMultibodyTreeContext (mkMultibodyTreeContext [0; 0; 0; 0]%Z [0; 0; 0]%Z).

Definition mbt : MultibodyTreeContext (T := Z) :=
  mkMultibodyTreeContext [0; 0; 0; 0]%Z [1; 2; 3]%Z.

Definition mbt_at_rest : MultibodyTreeContext (T := Z) :=
  mkMultibodyTreeContext [0; 0; 0; 0]%Z [0; 0; 0]%Z.

(** The caches of [context]. *)
Definition pc : PositionKinematicsCache (T := Z) :=
  Eval vm_compute in
    match EvalPositionKinematics (impl := impl) tree context with
    | Ok pc => pc
    | _ => mkPositionKinematicsCache []
    end.

Definition vc : VelocityKinematicsCache (T := Z) :=
  Eval vm_compute in
    match EvalVelocityKinematics (impl := impl) tree context with
    | Ok vc => vc
    | _ => mkVelocityKinematicsCache []
    end.

Definition zero : SpatialVector (T := Z) := mkSpatial (e 0 0 0) (e 0 0 0).

(** Forces applied to the four bodies, the world included, and to the three
    mobilities. *)
Definition Fapplied : list (SpatialVector (T := Z)) :=
  [ mkSpatial (e 0 0 0) (e 0 0 5); mkSpatial (e 0 0 1) (e 1 0 0); zero;
    mkSpatial (e 0 0 0) (e 0 1 0) ].

Definition tau_applied : list Z := [1; 2; 3]%Z.

Definition H0 : MatrixX (T := Z) :=
  mkMatrixX 3 [ [0; 0; 0]; [0; 0; 0]; [0; 0; 0] ]%Z.

Definition frame : Frame (T := Z) :=
  mkFrame (mkBody 3 3) (λ _, mkIsometry3 (e 1 0 0, e 0 1 0, e 0 0 1) (e 0 0 0)).

End Example.


(** ** Mobilizers, joints and actuators

    The drivers below read members of [MultibodyTree<T>] that the sweeps do
    not: the mobilizers, the joints and the joint actuators the tree owns,
    and two more counts of its topology. *)

Section Elements.
Context {T : Type} {ST : Scalar T}.

(** Modelled from the spec: a [Mobilizer<T>] (mobilizer.h) has a contiguous
    slice [positions_start, positions_start + num_positions) of the
    generalized positions and a slice of the generalized velocities, and
    maps a velocity slice to the time derivative of its position slice and
    back; each map fills the buffer it is handed. *)
Record Mobilizer := mkMobilizer {
  mobilizer_num_positions : nat;
  mobilizer_positions_start : nat;
  mobilizer_num_velocities : nat;
  mobilizer_velocities_start : nat;
  mobilizer_MapQDotToVelocity : MultibodyTreeContext (T := T) → list T → Outcome (list T);
  mobilizer_MapVelocityToQDot : MultibodyTreeContext (T := T) → list T → Outcome (list T) }.

(** [mobilizer->get_positions_from_array(q)]. *)
Definition get_positions_from_array (mobilizer : Mobilizer) (q : list T)
  : Outcome (list T) :=
  segment_of (mobilizer_positions_start mobilizer)
             (mobilizer_num_positions mobilizer) q.

(** [mobilizer->get_velocities_from_array(v)]. *)
Definition get_velocities_from_array (mobilizer : Mobilizer) (v : list T)
  : Outcome (list T) :=
  segment_of (mobilizer_velocities_start mobilizer)
             (mobilizer_num_velocities mobilizer) v.

(** [v.segment(start, n) = w]: Eigen requires the segment to lie within [v]
    and [w] to have [n] coefficients. *)
Definition assign_segment {A} (start n : nat) (w v : list A) : Outcome (list A) :=
  if decide (start + n ≤ length v ∧ length w = n)
  then Ok (set_segment start w v) else Undefined.

(** [mobilizer->get_mutable_positions_from_array(q) = w]. *)
Definition set_positions_in_array (mobilizer : Mobilizer) (w q : list T)
  : Outcome (list T) :=
  assign_segment (mobilizer_positions_start mobilizer)
                 (mobilizer_num_positions mobilizer) w q.

(** [mobilizer->get_mutable_velocities_from_array(v) = w]. *)
Definition set_velocities_in_array (mobilizer : Mobilizer) (w v : list T)
  : Outcome (list T) :=
  assign_segment (mobilizer_velocities_start mobilizer)
                 (mobilizer_num_velocities mobilizer) w v.

(** What the selector matrices read of a [Joint<T>] (joint.h): how many
    positions and velocities it has and where they start. *)
Record Joint := mkJoint {
  joint_num_positions : nat;
  position_start : nat;
  joint_num_velocities : nat;
  velocity_start : nat }.

(** What the selector matrices read of a [JointActuator<T>]
    (joint_actuator.h): [joint().index()]. *)
Record JointActuator := mkJointActuator { actuator_joint_index : nat }.

Record MultibodyTreeElements := mkMultibodyTreeElements {
  owned_mobilizers_ : list Mobilizer;
  owned_joints_ : list Joint;
  owned_actuators_ : list JointActuator;
  (* [num_actuated_dofs()] and [num_states()], as the topology counts them *)
  num_actuated_dofs : nat;
  num_states : nat }.

Definition num_positions (tree : MultibodyTree (T := T)) : nat :=
  topology_num_positions (topology_ tree).
Definition num_joints (elements : MultibodyTreeElements) : nat :=
  length (owned_joints_ elements).
Definition num_actuators (elements : MultibodyTreeElements) : nat :=
  length (owned_actuators_ elements).
Definition get_joint (elements : MultibodyTreeElements) (joint_index : nat)
  : Outcome Joint :=
  at_unchecked (owned_joints_ elements) joint_index.
Definition get_joint_actuator (elements : MultibodyTreeElements)
    (actuator_index : nat) : Outcome JointActuator :=
  at_unchecked (owned_actuators_ elements) actuator_index.

(** *** MapQDotToVelocity and MapVelocityToQDot *)

(** [VectorUpTo6<T>::resize(n)]: the storage holds six coefficients. *)
Definition resize_up_to (max n : nat) : Outcome unit :=
  if decide (n ≤ max) then Ok tt else Undefined.

Definition MapQDotToVelocity (tree : MultibodyTree (T := T))
    (elements : MultibodyTreeElements) (context : systems_Context (T := T))
    (qdot : list T) (v : option (list T)) : Outcome (list T) :=
  _ ← DRAKE_DEMAND (bool_decide (length qdot = num_positions tree));
  _ ← DRAKE_DEMAND (bool_decide (is_Some v));
  v ← from_option Ok Undefined v;
  _ ← DRAKE_DEMAND (bool_decide (length v = num_velocities tree));
  mbt_context ← dynamic_cast_MultibodyTreeContext context;
  for_each (owned_mobilizers_ elements) (λ mobilizer v,
    qdot_mobilizer ← get_positions_from_array mobilizer qdot;
    _ ← resize_up_to 6 (mobilizer_num_velocities mobilizer);
    v_mobilizer ← mobilizer_MapQDotToVelocity mobilizer mbt_context qdot_mobilizer;
    set_velocities_in_array mobilizer v_mobilizer v) v.

Definition kMaxQdot : nat := 7.

Definition MapVelocityToQDot (tree : MultibodyTree (T := T))
    (elements : MultibodyTreeElements) (context : systems_Context (T := T))
    (v : list T) (qdot : option (list T)) : Outcome (list T) :=
  _ ← DRAKE_DEMAND (bool_decide (length v = num_velocities tree));
  _ ← DRAKE_DEMAND (bool_decide (is_Some qdot));
  qdot ← from_option Ok Undefined qdot;
  _ ← DRAKE_DEMAND (bool_decide (length qdot = num_positions tree));
  mbt_context ← dynamic_cast_MultibodyTreeContext context;
  for_each (owned_mobilizers_ elements) (λ mobilizer qdot,
    v_mobilizer ← get_velocities_from_array mobilizer v;
    _ ← DRAKE_DEMAND (bool_decide (mobilizer_num_positions mobilizer ≤ kMaxQdot));
    qdot_mobilizer ← mobilizer_MapVelocityToQDot mobilizer mbt_context v_mobilizer;
    set_positions_in_array mobilizer qdot_mobilizer qdot) qdot.

(** *** Selector matrices

    The selector matrices are [MatrixX<double>] whatever [T] is; the scalar
    of this section stands for [double] in them. *)

(** [MatrixX<double>::Zero(rows, cols)]. *)
Definition MatrixX_Zero (rows cols : nat) : MatrixX (T := T) :=
  mkMatrixX rows (replicate cols (VectorX_Zero rows)).

(** [MatrixX<double>::Identity(n, n)]. *)
Definition MatrixX_Identity (n : nat) : MatrixX (T := T) :=
  mkMatrixX n (VectorX_Unit n <$> seq 0 n).

(** [M.block(row, col, B.rows(), B.cols()) = B]: Eigen requires the block
    to lie within [M]. *)
Definition assign_block (row col : nat) (B M : MatrixX (T := T)) : Outcome MatrixX :=
  if decide (row + mrows B ≤ mrows M ∧ col + mcols B ≤ mcols M)
  then Ok (set_block row col (mcolumns B) M) else Undefined.

(** [M(row, col) = x]. *)
Definition assign_coeff (row col : nat) (x : T) (M : MatrixX (T := T)) : Outcome MatrixX :=
  if decide (row < mrows M ∧ col < mcols M)
  then Ok (mkMatrixX (mrows M) (alter (<[row := x]>) col (mcolumns M)))
  else Undefined.

(** [M(row, col)]. *)
Definition coeff (M : MatrixX (T := T)) (row col : nat) : option T :=
  mcolumns M !! col ≫= (.!! row).

(** The locals of the loop of [MakeStateSelectorMatrix] that places the
    identity blocks. *)
Record StateSelectorState := mkStateSelectorState {
  Sx_ : MatrixX (T := T);
  selected_positions_index : nat;
  selected_velocities_index : nat }.

Definition MakeStateSelectorMatrix (tree : MultibodyTree (T := T))
    (elements : MultibodyTreeElements) (user_to_joint_index_map : list nat)
  : Outcome MatrixX :=
  _ ← ThrowIfNotFinalized tree;
  (* We create a set in order to verify that joint indexes appear only once. *)
  _ ← for_each user_to_joint_index_map
        (λ joint_index (already_selected_joints : gset nat),
           if decide (joint_index ∈ already_selected_joints)
           then (_ ← get_joint elements joint_index; Thrown logic_error)
           else Ok ({[joint_index]} ∪ already_selected_joints)) ∅;
  (* Determine the size of the vector of selected states. *)
  '(num_selected_positions, num_selected_velocities) ←
    for_each user_to_joint_index_map
      (λ joint_index '(num_selected_positions, num_selected_velocities),
         joint ← get_joint elements joint_index;
         Ok (num_selected_positions + joint_num_positions joint,
             num_selected_velocities + joint_num_velocities joint)) (0, 0);
  let num_selected_states := num_selected_positions + num_selected_velocities in
  let Sx := MatrixX_Zero num_selected_states (num_states elements) in
  let nq := num_positions tree in
  s ← for_each user_to_joint_index_map
        (λ joint_index s,
           joint ← get_joint elements joint_index;
           let pos_start := position_start joint in
           let num_pos := joint_num_positions joint in
           let vel_start := velocity_start joint in
           let num_vel := joint_num_velocities joint in
           Sx ← assign_block (selected_positions_index s) pos_start
                  (MatrixX_Identity num_pos) (Sx_ s);
           Sx ← assign_block (selected_velocities_index s) (nq + vel_start)
                  (MatrixX_Identity num_vel) Sx;
           Ok (mkStateSelectorState Sx (selected_positions_index s + num_pos)
                 (selected_velocities_index s + num_vel)))
        (mkStateSelectorState Sx 0 num_selected_positions);
  Ok (Sx_ s).

(** How many positions, and how many velocities, the joints of a list have
    between them: [num_selected_positions] and [num_selected_velocities] of
    [MakeStateSelectorMatrix], for the whole list or for a part of it. *)
Definition selected_positions (elements : MultibodyTreeElements)
    (joint_indexes : list nat) : nat :=
  sum_list_with
    (λ j, from_option joint_num_positions 0 (owned_joints_ elements !! j))
    joint_indexes.

Definition selected_velocities (elements : MultibodyTreeElements)
    (joint_indexes : list nat) : nat :=
  sum_list_with
    (λ j, from_option joint_num_velocities 0 (owned_joints_ elements !! j))
    joint_indexes.

(** The overload taking actuator indexes. *)
Definition MakeActuatorSelectorMatrix (tree : MultibodyTree (T := T))
    (elements : MultibodyTreeElements) (user_to_actuator_index_map : list nat)
  : Outcome MatrixX :=
  _ ← ThrowIfNotFinalized tree;
  let num_selected_actuators := length user_to_actuator_index_map in
  let Su := MatrixX_Zero (num_actuated_dofs elements) num_selected_actuators in
  s ← for_each user_to_actuator_index_map
        (λ actuator_index '(Su, user_index),
           Su ← assign_coeff actuator_index user_index Tone Su;
           Ok (Su, S user_index)) (Su, 0);
  Ok s.1.

(** The overload taking joint indexes.  A [JointActuatorIndex] that was
    default-constructed is not valid: [None]. *)
Definition MakeActuatorSelectorMatrix_of_joints (tree : MultibodyTree (T := T))
    (elements : MultibodyTreeElements) (user_to_joint_index_map : list nat)
  : Outcome MatrixX :=
  _ ← ThrowIfNotFinalized tree;
  joint_to_actuator_index ←
    for_each (seq 0 (num_actuators elements))
      (λ actuator_index joint_to_actuator_index,
         actuator ← get_joint_actuator elements actuator_index;
         assign_unchecked joint_to_actuator_index (actuator_joint_index actuator)
           (Some actuator_index))
      (replicate (num_joints elements) None);
  user_to_actuator_index_map ←
    for_each user_to_joint_index_map
      (λ joint_index user_to_actuator_index_map,
         _ ← get_joint elements joint_index;
         actuator_index ← at_unchecked joint_to_actuator_index joint_index;
         match actuator_index with
         | None => Thrown logic_error
         | Some actuator_index =>
             Ok (user_to_actuator_index_map ++ [actuator_index])
         end) [];
  MakeActuatorSelectorMatrix tree elements user_to_actuator_index_map.

(** *** The articulated-body-inertia sweep *)

Context {impl : BodyNodeImpl (T := T)}.

(** [for (depth = tree_height() - 1; depth > 0; depth--)]. *)
Definition tip_to_base_skipping_world (tree : MultibodyTree (T := T)) : list nat :=
  reverse (seq 1 (tree_height tree - 1)).

(** [CalcArticulatedBodyInertiaCache], for any cache type and any
    [BodyNode::CalcArticulatedBodyInertiaCache_TipToBase]. *)
Definition CalcArticulatedBodyInertiaCache {ArticulatedBodyInertiaCache : Type}
    (CalcArticulatedBodyInertiaCache_TipToBase :
       BodyNode → MultibodyTreeContext (T := T) → PositionKinematicsCache (T := T) →
       list (Vector6 (T := T)) → ArticulatedBodyInertiaCache →
       Outcome ArticulatedBodyInertiaCache)
    (tree : MultibodyTree (T := T)) (context : systems_Context (T := T))
    (pc : PositionKinematicsCache (T := T))
    (abc : option ArticulatedBodyInertiaCache)
  : Outcome ArticulatedBodyInertiaCache :=
  _ ← DRAKE_DEMAND (bool_decide (is_Some abc));
  abc ← from_option Ok Undefined abc;
  mbt_context ← dynamic_cast_MultibodyTreeContext context;
  H_PB_W_cache ← CalcAcrossNodeGeometricJacobianExpressedInWorld tree context pc
                   (Some (replicate (num_velocities tree) Spatial_new));
  sweep tree (tip_to_base_skipping_world tree)
    (λ _ node abc,
       H_PB_W ← GetJacobianFromArray node H_PB_W_cache;
       CalcArticulatedBodyInertiaCache_TipToBase node mbt_context pc H_PB_W abc) abc.

End Elements.

(** ** The joints, actuators and mobilizers of the small mechanism

    The link on the world has one position and one velocity; the link on it
    has two of each, which its mobilizer hands over in swapped order.  The
    second joint carries two actuators. *)

Module ExampleElements.

Definition swap (l : list Z) : list Z :=
  match l with
  | [a; b] => [b; a]
  | _ => l
  end.

Definition mobilizers : list (Mobilizer (T := Z)) :=
  [ mkMobilizer 1 0 1 0 (λ _ qdot, Ok qdot) (λ _ v, Ok v);
    mkMobilizer 0 1 0 1 (λ _ qdot, Ok qdot) (λ _ v, Ok v);
    mkMobilizer 2 1 2 1 (λ _ qdot, Ok (swap qdot)) (λ _ v, Ok (swap v)) ].

Definition joints : list Joint :=
  [ mkJoint 1 0 1 0; mkJoint 2 1 2 1 ].

Definition actuators : list JointActuator :=
  [ mkJointActuator 0; mkJointActuator 1; mkJointActuator 1 ].

Definition elements : MultibodyTreeElements (T := Z) :=
  mkMultibodyTreeElements mobilizers joints actuators 3 6.

(** A frame fixed to the first link. *)
Definition frame_on_first_link : Frame (T := Z) :=
  mkFrame (mkBody 1 1)
    (λ _, mkIsometry3 (Example.e 1 0 0, Example.e 0 1 0, Example.e 0 0 1)
                      (Example.e 0 0 0)).

(** Two points, given in the world. *)
Definition points : MatrixX (T := Z) := mkMatrixX 3 [ [1; 0; 0]; [0; 2; 0] ]%Z.

Definition Jw0 : MatrixX (T := Z) :=
  mkMatrixX 3 [ [7; 7; 7]; [7; 7; 7]; [7; 7; 7] ]%Z.

Definition Jv0 : MatrixX (T := Z) :=
  mkMatrixX 6 [ [7; 7; 7; 7; 7; 7]; [7; 7; 7; 7; 7; 7]; [7; 7; 7; 7; 7; 7] ]%Z.

End ExampleElements.

(** ** Zero generalized velocity

    [DoCalcMassMatrixViaInverseDynamics] probes with a velocity kinematics
    cache initialized to zero and hands the caller's context on to the
    sweeps as it is; its comment considers a flag "to tell
    CalcInverseDynamics() to ignore velocity dependent terms" in place of
    the zeroed cache. *)

Section Velocity_input.
Context {T : Type} {ST : Scalar T} {impl : BodyNodeImpl (T := T)}.



End Velocity_input.

(** ** The other operations that check their arguments *)

Section Checked_operations.
Context {T : Type} {ST : Scalar T} {impl : BodyNodeImpl (T := T)}.

(** Modelled from the spec: [AccelerationKinematicsCache<T>]
    (acceleration_kinematics_cache.h), the dense array of the spatial
    accelerations, indexed by node. *)
Record AccelerationKinematicsCache := mkAccelerationKinematicsCache {
  A_WB_pool : list (SpatialAcceleration (T := T)) }.

Definition CalcAccelerationKinematicsCache (tree : MultibodyTree (T := T))
    (context : systems_Context (T := T)) (pc : PositionKinematicsCache (T := T))
    (vc : VelocityKinematicsCache (T := T)) (known_vdot : list T)
    (ac : option AccelerationKinematicsCache)
  : Outcome AccelerationKinematicsCache :=
  _ ← DRAKE_DEMAND (bool_decide (is_Some ac));
  _ ← DRAKE_DEMAND (bool_decide (length known_vdot
                                 = topology_num_velocities (topology_ tree)));
  ac ← from_option Ok Undefined ac;
  A_WB_array ← CalcSpatialAccelerationsFromVdot tree context pc vc known_vdot
                 (Some (A_WB_pool ac));
  Ok (mkAccelerationKinematicsCache A_WB_array).

(** Modelled from the spec: [MultibodyForces<T>] (multibody_forces.h) holds
    the spatial force applied to each body and the applied generalized
    forces.  It has the right size for a model when it holds a spatial force
    per body and a generalized force per generalized velocity. *)
Record MultibodyForces := mkMultibodyForces {
  body_forces : list (SpatialForce (T := T));
  generalized_forces : list T }.

Definition CheckHasRightSizeForModel (forces : MultibodyForces)
    (model : MultibodyTree (T := T)) : bool :=
  bool_decide (length (generalized_forces forces) = num_velocities model
               ∧ length (body_forces forces) = num_bodies model).

(** [forces->SetZero()]. *)
Definition SetZero (forces : MultibodyForces) : MultibodyForces :=
  mkMultibodyForces (replicate (length (body_forces forces)) Spatial_Zero)
                    (VectorX_Zero (length (generalized_forces forces))).

(** The form of [CalcInverseDynamics] that returns the generalized forces. *)
Definition CalcInverseDynamics_of_forces (tree : MultibodyTree (T := T))
    (context : systems_Context (T := T)) (known_vdot : list T)
    (external_forces : MultibodyForces) : Outcome (list T) :=
  pc ← EvalPositionKinematics tree context;
  vc ← EvalVelocityKinematics tree context;
  '(_, _, tau) ←
    CalcInverseDynamics tree context pc vc known_vdot
      (Distinct (body_forces external_forces))
      (Distinct (generalized_forces external_forces))
      (Some (replicate (num_bodies tree) Spatial_new))
      (Some (replicate (num_bodies tree) Spatial_new))
      (Some (VectorX_new (num_velocities tree)));
  Ok tau.

(** What [CalcForceElementsContribution] calls of a [ForceElement<T>]
    (force_element.h). *)
Record ForceElement := mkForceElement {
  CalcAndAddForceContribution :
    MultibodyTreeContext (T := T) → PositionKinematicsCache (T := T) →
    VelocityKinematicsCache (T := T) → MultibodyForces → Outcome MultibodyForces }.

(** [AddJointDampingForces], for any [Joint::AddInDamping]. *)
Definition AddJointDampingForces
    (AddInDamping : Joint → systems_Context (T := T) → MultibodyForces →
                    Outcome MultibodyForces)
    (elements : MultibodyTreeElements (T := T)) (context : systems_Context (T := T))
    (forces : option MultibodyForces) : Outcome MultibodyForces :=
  _ ← DRAKE_DEMAND (bool_decide (is_Some forces));
  forces ← from_option Ok Undefined forces;
  for_each (owned_joints_ elements)
    (λ joint forces, AddInDamping joint context forces) forces.

(** [CalcForceElementsContribution], over the force elements in
    [owned_force_elements_]. *)
Definition CalcForceElementsContribution
    (AddInDamping : Joint → systems_Context (T := T) → MultibodyForces →
                    Outcome MultibodyForces)
    (owned_force_elements_ : list ForceElement)
    (tree : MultibodyTree (T := T)) (elements : MultibodyTreeElements (T := T))
    (context : systems_Context (T := T)) (pc : PositionKinematicsCache (T := T))
    (vc : VelocityKinematicsCache (T := T)) (forces : option MultibodyForces)
  : Outcome MultibodyForces :=
  _ ← DRAKE_DEMAND (bool_decide (is_Some forces));
  _ ← DRAKE_DEMAND (from_option (λ forces, CheckHasRightSizeForModel forces tree)
                                false forces);
  forces ← from_option Ok Undefined forces;
  mbt_context ← dynamic_cast_MultibodyTreeContext context;
  let forces := SetZero forces in
  forces ← for_each owned_force_elements_
             (λ force_element forces,
                CalcAndAddForceContribution force_element mbt_context pc vc forces)
             forces;
  AddJointDampingForces AddInDamping elements context (Some forces).

(** Modelled from the spec: [SpatialAcceleration::Shift(p, w)]
    (spatial_acceleration.h), the rigid shift of the acceleration of a body
    with angular velocity [w] to a point offset by [p], with the terms of
    the shift that depend on the angular velocity. *)
Definition Shift (A : SpatialAcceleration (T := T)) (p w : Vector3 (T := T))
  : SpatialAcceleration (T := T) :=
  mkSpatial (rotational A)
    (v3_add (v3_add (translational A) (cross (rotational A) p))
            (cross w (cross w p))).

(** [CalcBiasForPointsGeometricJacobianExpressedInWorld], for any
    [Frame::GetFixedPoseInBodyFrame]. *)
Definition CalcBiasForPointsGeometricJacobianExpressedInWorld
    (GetFixedPoseInBodyFrame : Frame (T := T) → Isometry3 (T := T))
    (tree : MultibodyTree (T := T)) (context : systems_Context (T := T))
    (frame_F : Frame (T := T)) (p_FQ_list : MatrixX (T := T)) : Outcome (list T) :=
  _ ← DRAKE_THROW_UNLESS (bool_decide (mrows p_FQ_list = 3));
  pc ← EvalPositionKinematics tree context;
  vc ← EvalVelocityKinematics tree context;
  A_WB_array ← CalcSpatialAccelerationsFromVdot tree context pc vc
                 (VectorX_Zero (num_velocities tree))
                 (Some (replicate (num_bodies tree) Spatial_new));
  let body_B := frame_body frame_F in
  (* Bias for body B spatial acceleration. *)
  Ab_WB ← at_unchecked A_WB_array (node_index body_B);
  let num_points := mcols p_FQ_list in
  for_each (seq 0 num_points) (λ ipoint Ab_WB_array,
    p_FQi ← at_unchecked (mcolumns p_FQ_list) ipoint;
    X_WB ← get_X_WB pc (node_index body_B);
    let R_WB := linear X_WB in
    let X_BF := GetFixedPoseInBodyFrame frame_F in
    let p_BQi := transform X_BF (v3_of_coeffs p_FQi) in
    let p_BQi_W := rotate R_WB p_BQi in
    V_WB ← get_V_WB vc (node_index body_B);
    let w_WB := rotational V_WB in
    let Ab_WBq := Shift Ab_WB p_BQi_W w_WB in
    assign_segment (3 * ipoint) 3 (v3_coeffs (translational Ab_WBq)) Ab_WB_array)
    (VectorX_new (3 * num_points)).

(** [M.topRows<k>()] and [M.bottomRows<k>()], and the matrix made of two
    such blocks. *)
Definition topRows (k : nat) (M : MatrixX (T := T)) : MatrixX (T := T) :=
  mkMatrixX k (take k <$> mcolumns M).

Definition bottomRows (k : nat) (M : MatrixX (T := T)) : MatrixX (T := T) :=
  mkMatrixX k (drop (mrows M - k) <$> mcolumns M).

Definition stack_rows (top bottom : MatrixX (T := T)) : MatrixX (T := T) :=
  mkMatrixX (mrows top + mrows bottom)
            (zip_with app (mcolumns top) (mcolumns bottom)).

Definition CalcFrameGeometricJacobianExpressedInWorld
    (tree : MultibodyTree (T := T)) (context : systems_Context (T := T))
    (frame_F : Frame (T := T)) (p_FQ : Vector3 (T := T))
    (Jv_WFq : option (MatrixX (T := T))) : Outcome (MatrixX (T := T)) :=
  _ ← DRAKE_THROW_UNLESS (bool_decide (is_Some Jv_WFq));
  _ ← DRAKE_THROW_UNLESS (bool_decide (from_option mrows 0 Jv_WFq = 6));
  _ ← DRAKE_THROW_UNLESS (bool_decide (from_option mcols 0 Jv_WFq
                                       = num_velocities tree));
  Jv_WFq ← from_option Ok Undefined Jv_WFq;
  (* Compute the position of Fq's origin Q in the world frame. *)
  p_WoQ_W ← CalcPointsPositions tree context frame_F
              (mkMatrixX 3 [v3_coeffs p_FQ]) (world_frame tree)
              (Some (mkMatrixX 3 [replicate 3 Tuninit]));
  '(Jv_WFq_angular, Jv_WFq_translational) ←
    CalcFrameJacobianExpressedInWorld tree context frame_F p_WoQ_W
      (Some (topRows 3 Jv_WFq)) (Some (bottomRows 3 Jv_WFq));
  Jv_WFq_angular ← from_option Ok Undefined Jv_WFq_angular;
  Jv_WFq_translational ← from_option Ok Undefined Jv_WFq_translational;
  Ok (stack_rows Jv_WFq_angular Jv_WFq_translational).

End Checked_operations.

(** * Properties *)

(** ** Outcomes and loops *)

Lemma bind_Ok {A B} (m : Outcome A) (f : A → Outcome B) (b : B) :
  m ≫= f = Ok b ↔ ∃ a, m = Ok a ∧ f a = Ok b.
Proof.
  destruct m; simpl; split; try (intros [? [? ?]]); try discriminate; eauto.
  congruence.
Qed.

Lemma DRAKE_DEMAND_Ok (c : bool) (u : unit) : DRAKE_DEMAND c = Ok u ↔ c = true.
Proof. destruct c, u; simpl; split; congruence. Qed.

Lemma DRAKE_DEMAND_false (c : bool) : c = false → DRAKE_DEMAND c = Fatal.
Proof. by intros ->. Qed.

Lemma DRAKE_THROW_UNLESS_Ok (c : bool) (u : unit) :
  DRAKE_THROW_UNLESS c = Ok u ↔ c = true.
Proof. destruct c, u; simpl; split; congruence. Qed.

Lemma at_unchecked_Ok {A} (l : list A) i a : at_unchecked l i = Ok a ↔ l !! i = Some a.
Proof. unfold at_unchecked. destruct (l !! i); split; congruence. Qed.

Lemma at_unchecked_lookup {A} (l : list A) i a :
  l !! i = Some a → at_unchecked l i = Ok a.
Proof. apply at_unchecked_Ok. Qed.

Lemma assign_unchecked_Ok {A} (l : list A) i x l' :
  assign_unchecked l i x = Ok l' ↔ i < length l ∧ l' = <[i := x]> l.
Proof.
  unfold assign_unchecked. destruct (decide (i < length l)); split;
    try intros [? ?]; try congruence; try lia.
  intros [= <-]. done.
Qed.

Lemma assign_at_Ok {A} (l : list A) i x l' :
  assign_at l i x = Ok l' ↔ i < length l ∧ l' = <[i := x]> l.
Proof.
  unfold assign_at. destruct (decide (i < length l)); split;
    try intros [? ?]; try congruence; try lia.
  intros [= <-]. done.
Qed.

Lemma from_option_Ok {A} (o : option A) a :
  from_option Ok Undefined o = Ok a ↔ o = Some a.
Proof. destruct o; simpl; split; congruence. Qed.

Lemma segment_of_Ok {A} start n (v w : list A) :
  segment_of start n v = Ok w ↔ start + n ≤ length v ∧ w = segment start n v.
Proof.
  unfold segment_of. destruct (decide (start + n ≤ length v)); split;
    try intros [? ?]; try congruence; try lia.
  intros [= <-]. done.
Qed.

(** Everything a successful run of a monadic program says about its steps. *)
Ltac inv_Ok :=
  repeat match goal with
  | H : _ ≫= _ = Ok _ |- _ => apply bind_Ok in H; destruct H as (? & ? & H)
  | H : Ok _ = Ok _ |- _ => injection H as H
  | H : DRAKE_DEMAND _ = Ok _ |- _ => apply DRAKE_DEMAND_Ok in H
  | H : DRAKE_THROW_UNLESS _ = Ok _ |- _ => apply DRAKE_THROW_UNLESS_Ok in H
  | H : bool_decide _ = true |- _ => apply bool_decide_eq_true_1 in H
  | H : from_option Ok Undefined _ = Ok _ |- _ => apply from_option_Ok in H
  | H : at_unchecked _ _ = Ok _ |- _ => apply at_unchecked_Ok in H
  | H : assign_unchecked _ _ _ = Ok _ |- _ =>
      apply assign_unchecked_Ok in H; destruct H as [? H]
  | H : assign_at _ _ _ = Ok _ |- _ => apply assign_at_Ok in H; destruct H as [? H]
  | H : segment_of _ _ _ = Ok _ |- _ => apply segment_of_Ok in H; destruct H as [? H]
  end.

Lemma for_each_app {A S} (l1 l2 : list A) (body : A → S → Outcome S) (s : S) :
  for_each (l1 ++ l2) body s = for_each l1 body s ≫= for_each l2 body.
Proof.
  revert s. induction l1 as [|a l1 IH]; intros s; simpl; [done|].
  destruct (body a s); simpl; auto.
Qed.

Lemma for_each_ext {A S} (l : list A) (body1 body2 : A → S → Outcome S) (s : S) :
  (∀ a s, a ∈ l → body1 a s = body2 a s) →
  for_each l body1 s = for_each l body2 s.
Proof.
  revert s. induction l as [|a l IH]; intros s Hext; simpl; [done|].
  rewrite Hext by left. destruct (body2 a s); simpl; auto.
  apply IH. intros; apply Hext. by right.
Qed.

(** Loop invariant, for a loop whose every turn returns. *)
Lemma for_each_total {A S} (P : list A → S → Prop) (l : list A)
    (body : A → S → Outcome S) (s0 : S) :
  P [] s0 →
  (∀ l1 a l2 s, l = l1 ++ a :: l2 → P l1 s →
     ∃ s', body a s = Ok s' ∧ P (l1 ++ [a]) s') →
  ∃ s', for_each l body s0 = Ok s' ∧ P l s'.
Proof.
  intros H0 Hstep.
  assert (∀ l2 l1 s, l = l1 ++ l2 → P l1 s →
            ∃ s', for_each l2 body s = Ok s' ∧ P l s') as Hgen.
  { induction l2 as [|a l2 IH]; intros l1 s Hl HP.
    - rewrite app_nil_r in Hl. subst. eauto.
    - destruct (Hstep l1 a l2 s Hl HP) as (s' & Hb & HP').
      simpl. rewrite Hb. simpl. apply (IH (l1 ++ [a])); [|done].
      by rewrite <- app_assoc. }
  by apply (Hgen l []).
Qed.

(** Loop invariant, for a loop that is known to have returned. *)
Lemma for_each_partial {A S} (P : list A → S → Prop) (l : list A)
    (body : A → S → Outcome S) (s0 s1 : S) :
  P [] s0 →
  (∀ l1 a l2 s s', l = l1 ++ a :: l2 → P l1 s → body a s = Ok s' → P (l1 ++ [a]) s') →
  for_each l body s0 = Ok s1 → P l s1.
Proof.
  intros H0 Hstep.
  assert (∀ l2 l1 s, l = l1 ++ l2 → P l1 s → for_each l2 body s = Ok s1 → P l s1)
    as Hgen.
  { induction l2 as [|a l2 IH]; intros l1 s Hl HP Hrun.
    - rewrite app_nil_r in Hl. simpl in Hrun. congruence.
    - simpl in Hrun. inv_Ok. apply (IH (l1 ++ [a]) x); [|eauto|done].
      by rewrite <- app_assoc. }
  by apply (Hgen l []).
Qed.

(** ** The drivers, for any implementation of the body nodes *)

Section Drivers.
Context {T : Type} {ST : Scalar T} {impl : BodyNodeImpl (T := T)}.
Implicit Types (tree : MultibodyTree (T := T)) (context : systems_Context (T := T)).
Implicit Types (pc : PositionKinematicsCache (T := T)).
Implicit Types (vc : VelocityKinematicsCache (T := T)).

Lemma length_VectorX_Zero n : length (VectorX_Zero (T := T) n) = n.
Proof. apply length_replicate. Qed.

(** What a call of [CalcInverseDynamics] that returned says about its
    arguments. *)
Lemma CalcInverseDynamics_Ok_sizes tree context pc vc vdot Fapp tauapp A F tau r :
  CalcInverseDynamics tree context pc vc vdot Fapp tauapp A F tau = Ok r →
  length vdot = num_velocities tree
  ∧ (∃ A0, A = Some A0 ∧ length A0 = num_bodies tree)
  ∧ (∃ F0, F = Some F0 ∧ length F0 = num_bodies tree)
  ∧ (∃ tau0, tau = Some tau0 ∧ length tau0 = num_velocities tree).
Proof.
  unfold CalcInverseDynamics. intros H. inv_Ok.
  repeat match goal with H : is_Some _ |- _ => destruct H as [? ->] end.
  simpl in *. subst. eauto 10.
Qed.

(** C10.  A finalized tree without a gravity field element answers
    [CalcGravityGeneralizedForces] with the zero vector of as many entries as
    there are generalized velocities, whatever the context. *)
Theorem CalcGravityGeneralizedForces_without_gravity tree context :
  topology_is_valid tree = true →
  gravity_field_ tree = None →
  CalcGravityGeneralizedForces tree context
  = Ok (replicate (num_velocities tree) Tzero).
Proof.
  intros Hvalid Hnone. unfold CalcGravityGeneralizedForces, ThrowIfNotFinalized.
  rewrite Hvalid, Hnone. reflexivity.
Qed.

Lemma length_resize {A} n (x : A) l : length (resize n x l) = n.
Proof. unfold resize. rewrite length_app, length_take, length_replicate. lia. Qed.

(** The loop that copies one cache entry per body into the output. *)
Lemma copy_per_body_loop {A} tree (pool out0 : list A) :
  length out0 = num_bodies tree →
  Forall (λ b, node_index b < length pool) (owned_bodies_ tree) →
  ∃ out,
    for_each (seq 0 (num_bodies tree)) (λ body_index out,
      body_B ← get_body tree body_index;
      X ← at_unchecked pool (node_index body_B);
      assign_at out body_index X) out0 = Ok out
    ∧ length out = num_bodies tree
    ∧ ∀ i b, owned_bodies_ tree !! i = Some b → out !! i = pool !! node_index b.
Proof.
  intros Hlen Hrange.
  edestruct (for_each_total
    (λ l1 (out : list A), length out = num_bodies tree
       ∧ ∀ i b, i ∈ l1 → owned_bodies_ tree !! i = Some b →
                out !! i = pool !! node_index b)) as (out & Hrun & Hlen' & Hout);
    [| |exists out; split; [exact Hrun|]].
  - split; [done|]. intros i b Hi. by apply elem_of_nil in Hi.
  - intros l1 a l2 out Hl [Hlo Hinv].
    assert (a ∈ seq 0 (num_bodies tree)) as Ha
      by (rewrite Hl; apply elem_of_app; right; left).
    apply elem_of_seq in Ha. destruct Ha as [_ Ha]. simpl in Ha.
    destruct (lookup_lt_is_Some_2 (owned_bodies_ tree) a Ha) as [b Hb].
    pose proof (proj1 (Forall_lookup _ _) Hrange a b Hb) as Hr. simpl in Hr.
    destruct (lookup_lt_is_Some_2 pool _ Hr) as [X HX].
    exists (<[a := X]> out). split.
    + unfold get_body. rewrite (at_unchecked_lookup _ _ _ Hb). simpl.
      rewrite (at_unchecked_lookup _ _ _ HX). simpl.
      unfold assign_at. rewrite decide_True by lia. done.
    + split; [by rewrite length_insert|].
      intros i b' Hi Hb'. destruct (decide (i = a)) as [->|Hne].
      * rewrite list_lookup_insert_eq by lia. congruence.
      * rewrite list_lookup_insert_ne by done. apply Hinv; [|done].
        apply elem_of_app in Hi. destruct Hi as [Hi|Hi]; [done|].
        apply list_elem_of_singleton in Hi. done.
  - split; [done|]. intros i b Hb. apply Hout; [|done].
    apply elem_of_seq. split; [lia|]. simpl. by apply lookup_lt_Some in Hb.
Qed.

(** C9.  Handed a non-null output vector of any size, in particular one whose
    size is not the number of bodies, [CalcAllBodyPosesInWorld] and
    [CalcAllBodySpatialVelocitiesInWorld] return: the output has one entry
    per body, and entry [i], from the world's entry 0 on, is the cache entry
    of the node of body [i]. *)
Theorem CalcAllBody_resizes_and_fills tree context pc vc
    (X_WB : list Isometry3) (V_WB : list SpatialVelocity) :
  EvalPositionKinematics tree context = Ok pc →
  EvalVelocityKinematics tree context = Ok vc →
  Forall (λ b, node_index b < length (X_WB_pool pc)) (owned_bodies_ tree) →
  Forall (λ b, node_index b < length (V_WB_pool vc)) (owned_bodies_ tree) →
  (∃ X, CalcAllBodyPosesInWorld tree context (Some X_WB) = Ok X
        ∧ length X = num_bodies tree
        ∧ ∀ i b, owned_bodies_ tree !! i = Some b →
                 X !! i = X_WB_pool pc !! node_index b)
  ∧ (∃ V, CalcAllBodySpatialVelocitiesInWorld tree context (Some V_WB) = Ok V
          ∧ length V = num_bodies tree
          ∧ ∀ i b, owned_bodies_ tree !! i = Some b →
                   V !! i = V_WB_pool vc !! node_index b).
Proof.
  intros Hpc Hvc HrX HrV. split.
  - unfold CalcAllBodyPosesInWorld. simpl. rewrite Hpc. simpl.
    apply copy_per_body_loop; [|done].
    case_decide as Hne; [apply length_resize|].
    destruct (decide (length X_WB = num_bodies tree)); [done|contradiction].
  - unfold CalcAllBodySpatialVelocitiesInWorld. simpl. rewrite Hvc. simpl.
    apply copy_per_body_loop; [|done].
    case_decide as Hne; [apply length_resize|].
    destruct (decide (length V_WB = num_bodies tree)); [done|contradiction].
Qed.

(** C4.  [CalcBiasTerm] returns exactly what one evaluation of
    [CalcInverseDynamics] returns as generalized forces, when that evaluation
    is run on the context's position and velocity kinematics with the
    generalized accelerations held at zero, an empty array of applied spatial
    forces and an empty vector of applied generalized forces. *)
Theorem CalcBiasTerm_is_inverse_dynamics_at_zero_vdot tree context Cv r :
  CalcBiasTerm tree context Cv = Ok r ↔
  ∃ Cv0 pc vc A F,
    Cv = Some Cv0
    ∧ EvalPositionKinematics tree context = Ok pc
    ∧ EvalVelocityKinematics tree context = Ok vc
    ∧ CalcInverseDynamics tree context pc vc
        (replicate (num_velocities tree) Tzero) (Distinct []) (Distinct [])
        (Some (replicate (num_bodies tree) Spatial_new))
        (Some (replicate (num_bodies tree) Spatial_new)) (Some Cv0)
      = Ok (A, F, r).
Proof.
  unfold CalcBiasTerm, DoCalcBiasTerm. split.
  - intros H.
    apply bind_Ok in H as (? & H1 & H).
    apply DRAKE_DEMAND_Ok, bool_decide_eq_true_1 in H1. destruct H1 as [Cv0 ->].
    apply bind_Ok in H as (? & _ & H).
    apply bind_Ok in H as (pc & Hpc & H).
    apply bind_Ok in H as (vc & Hvc & H).
    apply bind_Ok in H as ([[A F] Cv1] & Hid & H). injection H as ->.
    exists Cv0, pc, vc, A, F. done.
  - intros (Cv0 & pc & vc & A & F & -> & Hpc & Hvc & Hid).
    destruct (CalcInverseDynamics_Ok_sizes _ _ _ _ _ _ _ _ _ _ _ Hid)
      as (_ & _ & _ & tau0 & [= <-] & Hlen).
    simpl. rewrite bool_decide_eq_true_2 by done. simpl.
    rewrite Hpc. simpl. rewrite Hvc. simpl.
    unfold VectorX_Zero. rewrite Hid. reflexivity.
Qed.









(** What the checks at the head of each operation make of an argument that
    breaks them: [DRAKE_DEMAND] ends the process, [DRAKE_THROW_UNLESS] raises
    an exception. *)
Lemma DRAKE_DEMAND_bind_false {A} (c : bool) (k : unit → Outcome A) :
  c = false → DRAKE_DEMAND c ≫= k = Fatal.
Proof. by intros ->. Qed.

Lemma DRAKE_THROW_UNLESS_bind_false {A} (c : bool) (k : unit → Outcome A) :
  c = false → DRAKE_THROW_UNLESS c ≫= k = Thrown throw_unless_error.
Proof. by intros ->. Qed.

End Drivers.

(** ** The tree that [FinalizeInternals] builds *)

Section Finalized.
Context {T : Type} {ST : Scalar T}.
Context (topology : MultibodyTreeTopology) (bodies : list Body).
Context (gravity : option (UniformGravityFieldElement (T := T))).
Context (tree : MultibodyTree (T := T)).
Hypothesis Hfin : FinalizeInternals topology bodies gravity = Ok tree.
Hypothesis Hwf : topology_wf topology.

Let n := length (body_nodes topology).
Let h := topology_tree_height topology.

#[local] Abbreviation lev := (node_level topology).
#[local] Abbreviation level_list := (nodes_of_level topology).

Lemma wf_node i t :
  body_nodes topology !! i = Some t → node_topology_wf topology i t.
Proof using Hwf.
  intros Hi. destruct Hwf as (_ & _ & _ & Hnodes & _).
  apply (proj1 (Forall_lookup _ _) Hnodes i (i, t)).
  apply lookup_zip_with_Some. exists i, t. split; [done|]. split; [|done].
  apply lookup_seq. split; [done|]. by apply lookup_lt_Some in Hi.
Qed.

Lemma wf_index i t : body_nodes topology !! i = Some t → index t = i.
Proof using Hwf. intros Hi. by destruct (wf_node i t Hi) as (? & _). Qed.

Lemma wf_level_lt i t : body_nodes topology !! i = Some t → level t < h.
Proof using Hwf. intros Hi. by destruct (wf_node i t Hi) as (_ & ? & _). Qed.

Lemma wf_slice i t :
  body_nodes topology !! i = Some t →
  mobilizer_velocities_start_in_v t + num_mobilizer_velocities t
  ≤ topology_num_velocities topology.
Proof using Hwf. intros Hi. by destruct (wf_node i t Hi) as (_ & _ & ? & _). Qed.

Lemma wf_world t :
  body_nodes topology !! 0 = Some t →
  body t = world_index ∧ level t = 0 ∧ num_mobilizer_velocities t = 0.
Proof using Hwf. intros Hi. by destruct (wf_node 0 t Hi) as (_ & _ & _ & _ & ?). Qed.

Lemma wf_parent i t :
  body_nodes topology !! i = Some t → i ≠ 0 →
  body t ≠ world_index ∧ parent_body_node t < i
  ∧ ∃ p, body_nodes topology !! parent_body_node t = Some p
         ∧ level t = S (level p).
Proof using Hwf.
  intros Hi Hne. destruct (wf_node i t Hi) as (_ & _ & _ & _ & Hrest).
  rewrite decide_False in Hrest by done.
  destruct Hrest as (Hb & Hp & Hl & Hpl). split; [done|]. split; [done|].
  destruct (body_nodes topology !! parent_body_node t) as [p|]; [|done].
  exists p. split; [done|]. simpl in Hpl. injection Hpl as Hpl. lia.
Qed.

Lemma n_pos : 0 < n.
Proof using Hwf. by destruct Hwf as (_ & ? & _). Qed.

Lemma lev_lookup i t : body_nodes topology !! i = Some t → lev i = level t.
Proof. unfold node_level. by intros ->. Qed.

Lemma lev_pos i : 1 ≤ i → i < n → 1 ≤ lev i < h.
Proof using Hwf.
  intros H1 Hn. destruct (lookup_lt_is_Some_2 (body_nodes topology) i Hn) as [t Ht].
  rewrite (lev_lookup i t Ht). pose proof (wf_level_lt i t Ht).
  destruct (wf_parent i t Ht) as (_ & _ & p & _ & Hl); [lia|]. lia.
Qed.

Lemma elem_of_level_list i d : i ∈ level_list d ↔ 1 ≤ i ∧ i < n ∧ lev i = d.
Proof.
  unfold nodes_of_level. rewrite list_elem_of_filter, elem_of_seq. fold n. split.
  - intros (Hl & H1 & Hn). split; [done|]. split; [lia|].
    unfold node_level. destruct (body_nodes topology !! i); simpl in *; congruence.
  - intros (H1 & Hn & Hl). split; [|lia].
    destruct (lookup_lt_is_Some_2 (body_nodes topology) i Hn) as [t Ht].
    rewrite Ht. simpl. f_equal. by rewrite <- (lev_lookup i t Ht).
Qed.

(** The level lists after [FinalizeInternals]: one per level, holding the
    non-world nodes of the level.  The world is in none of them. *)
Lemma body_node_levels_spec :
  body_node_levels_ tree = level_list <$> seq 0 h.
Proof using Hfin Hwf.
  unfold FinalizeInternals in Hfin.
  destruct (is_valid topology); simpl in Hfin; [|discriminate].
  apply bind_Ok in Hfin as (levels & Hlevels & Hrest).
  apply bind_Ok in Hrest as (nodes & _ & Hrest). injection Hrest as <-. simpl.
  apply (for_each_partial (λ l1 levels,
    levels = (λ d, filter (λ i, level <$> body_nodes topology !! i = Some d) l1)
             <$> seq 0 h)) in Hlevels; [done| |].
  - apply list_eq. intros d. rewrite list_lookup_fmap.
    destruct (decide (d < h)) as [Hd|Hd].
    + rewrite lookup_replicate_2, lookup_seq_lt by done. done.
    + rewrite (proj1 (lookup_replicate_None _ _ _)), lookup_seq_ge by lia. done.
  - intros l1 a l2 s s' Hl -> Hstep. unfold push_back_level, get_body_node in Hstep.
    apply bind_Ok in Hstep as (t & Ht & Hstep). apply at_unchecked_Ok in Ht.
    apply bind_Ok in Hstep as (lv & Hlv & Hstep). apply at_unchecked_Ok in Hlv.
    injection Hstep as <-.
    pose proof (lookup_lt_Some _ _ _ Hlv) as Hlt.
    rewrite length_fmap, length_seq in Hlt.
    rewrite list_lookup_fmap, lookup_seq_lt in Hlv by done. simpl in Hlv.
    injection Hlv as <-.
    apply list_eq. intros d. rewrite list_lookup_fmap.
    destruct (decide (d = level t)) as [->|Hne].
    + rewrite list_lookup_insert_eq by (by rewrite length_fmap, length_seq).
      rewrite lookup_seq_lt by done. simpl. f_equal.
      rewrite filter_app. f_equal.
      rewrite filter_cons, decide_True by (by rewrite Ht). done.
    + rewrite list_lookup_insert_ne by done. rewrite list_lookup_fmap.
      destruct (seq 0 h !! d) as [d'|] eqn:Hd; [|done]. simpl. f_equal.
      apply lookup_seq in Hd as [-> _]. simpl.
      rewrite filter_app, filter_cons, decide_False, app_nil_r; [done|].
      rewrite Ht. simpl. congruence.
Qed.

Lemma seq_split_at m l1 a l2 : seq 0 m = l1 ++ a :: l2 → a = length l1.
Proof.
  intros Hl. assert (seq 0 m !! length l1 = Some a) as Ha.
  { rewrite Hl, lookup_app_r, Nat.sub_diag by done. done. }
  apply lookup_seq in Ha. lia.
Qed.

#[local] Abbreviation node_spec := (node_spec topology).

Lemma body_nodes_spec :
  topology_ tree = topology ∧ owned_bodies_ tree = bodies
  ∧ length (body_nodes_ tree) = n
  ∧ ∀ i node, body_nodes_ tree !! i = Some node → node_spec i node.
Proof using Hfin Hwf.
  unfold FinalizeInternals in Hfin.
  destruct (is_valid topology); simpl in Hfin; [|discriminate].
  apply bind_Ok in Hfin as (levels & _ & Hrest).
  apply bind_Ok in Hrest as (nodes & Hnodes & Hrest). injection Hrest as <-. simpl.
  split; [done|]. split; [done|].
  apply (for_each_partial (λ l1 (nodes : list BodyNode),
    length nodes = length l1
    ∧ ∀ i node, nodes !! i = Some node → node_spec i node)) in Hnodes.
  - destruct Hnodes as [Hlen Hspec]. split; [|done].
    rewrite Hlen. unfold get_num_body_nodes. by rewrite length_seq.
  - split; [done|]. intros i node Hi. by rewrite lookup_nil in Hi.
  - intros l1 a l2 s s' Hl [Hlen Hspec] Hstep.
    pose proof (seq_split_at _ _ _ _ Hl) as ->.
    unfold CreateBodyNode, get_body_node in Hstep.
    apply bind_Ok in Hstep as (t & Ht & Hstep). apply at_unchecked_Ok in Ht.
    apply bind_Ok in Hstep as (? & _ & Hstep).
    assert (∀ c, c ∈ @nil nat → c ≠ 0 ∧ ∃ tc, body_nodes topology !! c = Some tc
                   ∧ parent_body_node tc = length l1) as Hnil
      by (intros c Hc; by apply elem_of_nil in Hc).
    case_decide as Hworld.
    + injection Hstep as <-. split; [rewrite !length_app; simpl; lia|].
      assert (length l1 = 0) as H0.
      { destruct (decide (length l1 = 0)) as [|Hne]; [done|].
        by destruct (wf_parent _ _ Ht Hne) as [? _]. }
      intros i node Hi. apply lookup_app_Some in Hi as [Hi|[Hge Hi]];
        [by apply Hspec|].
      apply list_lookup_singleton_Some in Hi as [Hi <-].
      assert (i = length l1) as -> by lia.
      split; [done|]. split; [|done]. simpl. rewrite H0.
      by rewrite bool_decide_eq_false_2 by lia.
    + apply bind_Ok in Hstep as (parent & Hparent & Hstep).
      apply at_unchecked_Ok in Hparent. injection Hstep as <-.
      split; [rewrite !length_app, length_insert; simpl; lia|].
      assert (length l1 ≠ 0) as Hne.
      { intros H0. rewrite H0 in Ht. by destruct (wf_world _ Ht) as [? _]. }
      intros i node Hi. apply lookup_app_Some in Hi as [Hi|[Hge Hi]].
      * destruct (decide (i = parent_body_node t)) as [->|Hnp].
        -- rewrite list_lookup_insert_eq in Hi by (by eapply lookup_lt_Some).
           injection Hi as <-. destruct (Hspec _ _ Hparent) as (Hp1 & Hp2 & Hp3).
           split; [done|]. split; [done|]. simpl. intros c Hc.
           apply elem_of_app in Hc as [Hc|Hc]; [by apply Hp3|].
           apply list_elem_of_singleton in Hc as ->. split; [done|]. eauto.
        -- rewrite list_lookup_insert_ne in Hi by done. by apply Hspec.
      * rewrite length_insert in Hge, Hi.
        apply list_lookup_singleton_Some in Hi as [Hi <-].
        assert (i = length l1) as -> by lia.
        split; [done|]. split; [|done]. simpl.
        by rewrite bool_decide_eq_true_2.
Qed.

(** *** The order in which a sweep visits the nodes *)

Lemma sweep_flat {S} depths (body : nat → BodyNode → S → Outcome S) (s : S) :
  (∀ d, d ∈ depths → d < h) →
  sweep tree depths body s
  = for_each (depths ≫= level_list)
      (λ idx s, node ← at_unchecked (body_nodes_ tree) idx; body idx node s) s.
Proof using Hfin Hwf.
  unfold sweep. revert s. induction depths as [|d depths IH]; intros s Hd; [done|].
  simpl. rewrite for_each_app.
  assert (d < h) as Hlt by (apply Hd; left).
  assert (at_unchecked (body_node_levels_ tree) d = Ok (level_list d)) as ->.
  { apply at_unchecked_lookup. rewrite body_node_levels_spec.
    rewrite list_lookup_fmap, lookup_seq_lt by done. done. }
  simpl. destruct (for_each (level_list d) _ s); simpl; [|done..].
  apply IH. intros d' Hd'. apply Hd. by right.
Qed.

Lemma elem_of_order ds i :
  i ∈ ds ≫= level_list ↔ 1 ≤ i ∧ i < n ∧ lev i ∈ ds.
Proof.
  rewrite list_elem_of_bind. split.
  - intros (d & Hi & Hd). apply elem_of_level_list in Hi as (? & ? & <-). done.
  - intros (H1 & Hn & Hl). exists (lev i). split; [|done].
    by apply elem_of_level_list.
Qed.

Lemma NoDup_order ds : NoDup ds → NoDup (ds ≫= level_list).
Proof.
  intros Hnd. apply NoDup_bind; [| |done].
  - intros d1 d2 i _ _ H1 H2.
    apply elem_of_level_list in H1 as (_ & _ & <-).
    apply elem_of_level_list in H2 as (_ & _ & <-). done.
  - intros d _. apply NoDup_filter, NoDup_seq.
Qed.

Lemma sorted_order (R : relation nat) ds :
  (∀ d, R d d) → StronglySorted R ds →
  StronglySorted (λ a b, R (lev a) (lev b)) (ds ≫= level_list).
Proof.
  intros Hrefl Hs. induction Hs as [|d ds Hs IH Hall]; simpl; [constructor|].
  apply StronglySorted_app_2; [| |done].
  - intros a b Ha Hb. apply elem_of_level_list in Ha as (_ & _ & ->).
    apply elem_of_order in Hb as (_ & _ & Hb).
    by apply (proj1 (Forall_forall _ _) Hall).
  - assert (∀ l, (∀ a, a ∈ l → lev a = d) →
              StronglySorted (λ a b, R (lev a) (lev b)) l) as Hsame.
    { induction l as [|a l IHl]; intros Hl; constructor.
      - apply IHl. intros b Hb. apply Hl. by right.
      - apply Forall_forall. intros b Hb.
        rewrite (Hl a), (Hl b); [done|by right|by left]. }
    apply Hsame. intros a Ha. by apply elem_of_level_list in Ha as (_ & _ & ->).
Qed.

(** Where a node stands in a sweep, relative to the nodes of other levels. *)
Lemma order_before (R : relation nat) ds l1 i l2 :
  (∀ d, R d d) → StronglySorted R ds → NoDup ds →
  (ds ≫= level_list) = l1 ++ i :: l2 →
  1 ≤ i ∧ i < n ∧ (i ∉ l1)
  ∧ (∀ j, j ∈ l1 → 1 ≤ j ∧ j < n ∧ R (lev j) (lev i))
  ∧ (∀ j, 1 ≤ j → j < n → lev j ∈ ds → ¬ R (lev i) (lev j) → j ∈ l1).
Proof.
  intros Hrefl Hs Hnd Ho.
  pose proof (sorted_order R ds Hrefl Hs) as Hsorted.
  pose proof (NoDup_order ds Hnd) as Hnodup.
  rewrite Ho in Hsorted, Hnodup.
  assert (∀ j, j ∈ l1 ++ (i :: l2) → 1 ≤ j ∧ j < n ∧ lev j ∈ ds) as Hin.
  { intros j Hj. rewrite <- Ho in Hj. by apply elem_of_order in Hj. }
  apply StronglySorted_app in Hsorted as (H12 & _ & H2).
  apply StronglySorted_cons in H2 as [H2 _].
  apply NoDup_app in Hnodup as (_ & Hdis & _).
  destruct (Hin i) as (? & ? & ?); [apply elem_of_app; right; left|].
  split; [done|]. split; [done|]. split.
  { intros Hi. apply (Hdis i Hi). left. }
  split.
  - intros j Hj. destruct (Hin j) as (? & ? & ?); [apply elem_of_app; by left|].
    split; [done|]. split; [done|]. apply H12; [done|left].
  - intros j Hj1 Hjn Hl HR.
    assert (j ∈ l1 ++ i :: l2) as Hj by (rewrite <- Ho; by apply elem_of_order).
    apply elem_of_app in Hj as [Hj|Hj]; [done|].
    apply elem_of_cons in Hj as [->|Hj]; [by destruct HR|].
    destruct HR. by apply (proj1 (Forall_forall _ _) H2).
Qed.

Lemma StronglySorted_seq_le j m : StronglySorted le (seq j m).
Proof.
  revert j. induction m as [|m IH]; intros j; simpl; constructor; [done|].
  apply Forall_forall. intros k Hk. apply elem_of_seq in Hk. lia.
Qed.

Lemma NoDup_reverse_seq m : NoDup (reverse (seq 0 m)).
Proof. rewrite reverse_Permutation. apply NoDup_seq. Qed.

Lemma StronglySorted_reverse_seq_ge m : StronglySorted ge (reverse (seq 0 m)).
Proof.
  induction m as [|m IH]; [constructor|].
  rewrite seq_S, reverse_app. simpl. constructor; [done|].
  apply Forall_forall. intros k Hk. apply elem_of_reverse, elem_of_seq in Hk. lia.
Qed.

(** Base to tip: a node comes after the nodes of the levels above it. *)
Lemma base_to_tip_before l1 i l2 :
  (base_to_tip tree ≫= level_list) = l1 ++ i :: l2 →
  1 ≤ i ∧ i < n ∧ (i ∉ l1)
  ∧ (∀ j, j ∈ l1 → 1 ≤ j ∧ j < n ∧ lev j ≤ lev i)
  ∧ (∀ j, 1 ≤ j → j < n → lev j < lev i → j ∈ l1).
Proof using Hfin Hwf.
  unfold base_to_tip, tree_height.
  destruct body_nodes_spec as (-> & _). fold h. intros Ho.
  destruct (order_before le _ _ _ _ (λ d, le_n d) (StronglySorted_seq_le _ _)
              (NoDup_seq _ _) Ho) as (H1 & Hn & Hni & Hb & Ha).
  repeat (split; [done|]). intros j Hj1 Hjn Hlt. apply Ha; [done..| |lia].
  apply elem_of_seq. pose proof (lev_pos j Hj1 Hjn). fold h in H. lia.
Qed.

(** Tip to base: a node comes after the nodes of the levels below it. *)
Lemma tip_to_base_before l1 i l2 :
  (tip_to_base tree ≫= level_list) = l1 ++ i :: l2 →
  1 ≤ i ∧ i < n ∧ (i ∉ l1)
  ∧ (∀ j, j ∈ l1 → 1 ≤ j ∧ j < n ∧ lev i ≤ lev j)
  ∧ (∀ j, 1 ≤ j → j < n → lev i < lev j → j ∈ l1).
Proof using Hfin Hwf.
  unfold tip_to_base, tree_height.
  destruct body_nodes_spec as (-> & _). fold h. intros Ho.
  destruct (order_before ge _ _ _ _ (λ d, le_n d) (StronglySorted_reverse_seq_ge _)
              (NoDup_reverse_seq _) Ho)
    as (H1 & Hn & Hni & Hb & Ha).
  split; [done|]. split; [done|]. split; [done|]. split.
  - intros j Hj. destruct (Hb j Hj) as (? & ? & ?). lia.
  - intros j Hj1 Hjn Hlt. apply Ha; [done..| |lia].
    apply elem_of_reverse, elem_of_seq. pose proof (lev_pos j Hj1 Hjn). fold h in H. lia.
Qed.

(** Either sweep visits every node but the world, once. *)
Lemma elem_of_base_to_tip i :
  i ∈ base_to_tip tree ≫= level_list ↔ 1 ≤ i ∧ i < n.
Proof using Hfin Hwf.
  unfold base_to_tip, tree_height. destruct body_nodes_spec as (-> & _). fold h.
  rewrite elem_of_order. split; [intros (? & ? & _); done|]. intros [H1 Hn].
  split; [done|]. split; [done|].
  apply elem_of_seq. pose proof (lev_pos i H1 Hn). fold h in H. lia.
Qed.

Lemma elem_of_tip_to_base i :
  i ∈ tip_to_base tree ≫= level_list ↔ 1 ≤ i ∧ i < n.
Proof using Hfin Hwf.
  unfold tip_to_base, tree_height. destruct body_nodes_spec as (-> & _). fold h.
  rewrite elem_of_order. split; [intros (? & ? & _); done|]. intros [H1 Hn].
  split; [done|]. split; [done|].
  apply elem_of_reverse, elem_of_seq. pose proof (lev_pos i H1 Hn). fold h in H. lia.
Qed.

Lemma base_to_tip_depths d : d ∈ base_to_tip tree → d < h.
Proof using Hfin Hwf.
  unfold base_to_tip, tree_height. destruct body_nodes_spec as (-> & _). fold h.
  intros Hd. apply elem_of_seq in Hd. lia.
Qed.

Lemma tip_to_base_depths d : d ∈ tip_to_base tree → d < h.
Proof using Hfin Hwf.
  unfold tip_to_base, tree_height. destruct body_nodes_spec as (-> & _). fold h.
  intros Hd. apply elem_of_reverse, elem_of_seq in Hd. lia.
Qed.

End Finalized.

(** ** Segments of a vector *)

Lemma length_segment {A} start m (v : list A) :
  start + m ≤ length v → length (segment start m v) = m.
Proof. intros H. unfold segment. rewrite length_take, length_drop. lia. Qed.

Lemma lookup_segment {A} start m (v : list A) j :
  j < m → segment start m v !! j = v !! (start + j).
Proof. intros H. unfold segment. by rewrite lookup_take_lt, lookup_drop. Qed.

Lemma segment_ext {A} start m (v1 v2 : list A) :
  (∀ k, start ≤ k → k < start + m → v1 !! k = v2 !! k) →
  segment start m v1 = segment start m v2.
Proof.
  intros H. apply list_eq. intros j. unfold segment. rewrite !lookup_take.
  case_decide; [|done]. rewrite !lookup_drop. apply H; lia.
Qed.

Lemma length_set_segment {A} start (w v : list A) :
  start + length w ≤ length v → length (set_segment start w v) = length v.
Proof.
  intros H. unfold set_segment.
  rewrite !length_app, length_take, length_drop. lia.
Qed.

Lemma lookup_set_segment_out {A} start (w v : list A) k :
  start + length w ≤ length v → k < start ∨ start + length w ≤ k →
  set_segment start w v !! k = v !! k.
Proof.
  intros Hlen Hk. unfold set_segment. destruct Hk as [Hk|Hk].
  - rewrite lookup_app_l by (rewrite length_take; lia). by rewrite lookup_take_lt.
  - rewrite lookup_app_r by (rewrite length_take; lia).
    rewrite length_take_le by lia.
    rewrite lookup_app_r by lia. rewrite lookup_drop. f_equal. lia.
Qed.

Lemma lookup_set_segment_in {A} start (w v : list A) k :
  start + length w ≤ length v → start ≤ k → k < start + length w →
  set_segment start w v !! k = w !! (k - start).
Proof.
  intros Hlen H1 H2. unfold set_segment.
  rewrite lookup_app_r by (rewrite length_take; lia).
  rewrite length_take_le by lia. by rewrite lookup_app_l by lia.
Qed.

Lemma segment_set_segment {A} start (w v : list A) :
  start + length w ≤ length v →
  segment start (length w) (set_segment start w v) = w.
Proof.
  intros Hlen. apply list_eq. intros j.
  destruct (decide (j < length w)) as [Hj|Hj].
  - rewrite lookup_segment by done.
    rewrite lookup_set_segment_in by lia. f_equal. lia.
  - rewrite (lookup_ge_None_2 w) by lia. apply lookup_ge_None_2.
    rewrite length_segment; [lia|]. by rewrite length_set_segment.
Qed.

Lemma segment_set_segment_disjoint {A} start (w v : list A) start' m :
  start + length w ≤ length v →
  start' + m ≤ start ∨ start + length w ≤ start' →
  segment start' m (set_segment start w v) = segment start' m v.
Proof.
  intros Hlen Hdis. apply segment_ext. intros k H1 H2.
  apply lookup_set_segment_out; [done|lia].
Qed.

Lemma segment_lookup {A} start m (v : list A) k :
  start ≤ k → k < start + m → v !! k = segment start m v !! (k - start).
Proof. intros H1 H2. rewrite lookup_segment by lia. f_equal. lia. Qed.

(** ** The sweeps over the body nodes of the specification *)

Section Recursions.
Context {T : Type} {ST : Scalar T} {K : NodeKernels (T := T)}.
#[local] Existing Instance BodyNode_of_kernels.
Context (topology : MultibodyTreeTopology) (bodies : list Body).
Context (gravity : option (UniformGravityFieldElement (T := T))).
Context (tree : MultibodyTree (T := T)).
Hypothesis Hfin : FinalizeInternals topology bodies gravity = Ok tree.
Hypothesis Hwf : topology_wf topology.
Hypothesis Hbodies : length bodies = topology_num_bodies topology.

Implicit Types (pc : PositionKinematicsCache (T := T)).
Implicit Types (vc : VelocityKinematicsCache (T := T)).
Implicit Types (mbt : MultibodyTreeContext (T := T)).

#[local] Abbreviation n := (length (body_nodes topology)).
#[local] Abbreviation nv := (topology_num_velocities topology).
#[local] Abbreviation lev := (node_level topology).
#[local] Abbreviation level_list := (nodes_of_level topology).

Lemma num_bodies_n : num_bodies tree = n.
Proof.
  unfold num_bodies.
  destruct (body_nodes_spec _ _ _ _ Hfin Hwf) as (_ & -> & _).
  destruct Hwf as (_ & _ & -> & _). done.
Qed.

Lemma num_velocities_nv : num_velocities tree = nv.
Proof.
  unfold num_velocities.
  by destruct (body_nodes_spec _ _ _ _ Hfin Hwf) as (-> & _).
Qed.

(** The body node at index [i]. *)
Lemma node_at i :
  i < n →
  ∃ node, body_nodes_ tree !! i = Some node
          ∧ body_nodes topology !! i = Some (get_topology node)
          ∧ index (get_topology node) = i
          ∧ node_spec topology i node.
Proof.
  intros Hi. destruct (body_nodes_spec _ _ _ _ Hfin Hwf) as (_ & _ & Hlen & Hspec).
  destruct (lookup_lt_is_Some_2 (body_nodes_ tree) i) as [node Hnode]; [lia|].
  exists node. pose proof (Hspec i node Hnode) as Hs.
  pose proof (proj1 Hs) as Ht.
  split; [done|]. split; [done|]. split; [|done].
  by apply (wf_index topology Hwf).
Qed.

Lemma node_acceleration_of_ext t mbt pc vc vdot (A1 A2 : list SpatialAcceleration) :
  A1 !! parent_body_node t = A2 !! parent_body_node t →
  node_acceleration_of t mbt pc vc vdot A1 = node_acceleration_of t mbt pc vc vdot A2.
Proof. intros H. unfold node_acceleration_of, at_unchecked. by rewrite H. Qed.

(** A node's acceleration can be computed once its parent's is in place. *)
Lemma node_acceleration_of_Ok i t mbt pc vc vdot (A : list SpatialAcceleration) :
  body_nodes topology !! i = Some t → i ≠ 0 →
  length (X_WB_pool pc) = n → length (V_WB_pool vc) = n →
  length (get_velocities mbt) = nv → length vdot = nv → length A = n →
  ∃ a, node_acceleration_of t mbt pc vc vdot A = Ok a.
Proof.
  intros Ht Hne Hpc Hvc Hv Hvdot HA.
  destruct (wf_parent topology Hwf i t Ht Hne) as (_ & Hp & _).
  pose proof (wf_index topology Hwf i t Ht) as Hidx.
  pose proof (wf_slice topology Hwf i t Ht) as Hslice.
  pose proof (lookup_lt_Some _ _ _ Ht) as Hi.
  unfold node_acceleration_of, p_AB_W, get_X_WB, get_V_WB, node_segment.
  destruct (lookup_lt_is_Some_2 A (parent_body_node t)) as [? ->%at_unchecked_lookup]; [lia|].
  destruct (lookup_lt_is_Some_2 (X_WB_pool pc) (parent_body_node t))
    as [? ->%at_unchecked_lookup]; [lia|].
  destruct (lookup_lt_is_Some_2 (X_WB_pool pc) (index t))
    as [? ->%at_unchecked_lookup]; [lia|].
  destruct (lookup_lt_is_Some_2 (V_WB_pool vc) (parent_body_node t))
    as [? ->%at_unchecked_lookup]; [lia|].
  destruct (lookup_lt_is_Some_2 (V_WB_pool vc) (index t))
    as [? ->%at_unchecked_lookup]; [lia|].
  simpl. unfold segment_of. rewrite !decide_True by lia. simpl. eauto.
Qed.

(** The world's entry survives every turn of the acceleration sweep. *)
Lemma acceleration_step_preserves_world i node mbt pc vc vdot
    (A A' : list SpatialAcceleration) :
  body_nodes_ tree !! i = Some node → i ≠ 0 →
  CalcSpatialAcceleration_BaseToTip node mbt pc vc vdot A = Ok A' →
  A' !! world_index = A !! world_index ∧ length A' = length A.
Proof.
  intros Hnode Hne Hstep. simpl in Hstep.
  unfold node_CalcSpatialAcceleration_BaseToTip in Hstep.
  apply bind_Ok in Hstep as (a & _ & Hstep).
  apply assign_unchecked_Ok in Hstep as [Hlt ->].
  destruct (body_nodes_spec _ _ _ _ Hfin Hwf) as (_ & _ & _ & Hspec).
  destruct (Hspec i node Hnode) as (Ht & _).
  rewrite (wf_index topology Hwf i _ Ht).
  split; [by apply list_lookup_insert_ne|by rewrite length_insert].
Qed.

(** The acceleration sweep, when it returns, has the world at rest. *)
Lemma acceleration_sweep_world context pc vc vdot A (A' : list SpatialAcceleration) :
  CalcSpatialAccelerationsFromVdot tree context pc vc vdot A = Ok A' →
  A' !! world_index = Some Spatial_Zero.
Proof.
  unfold CalcSpatialAccelerationsFromVdot. intros Hrun.
  apply bind_Ok in Hrun as (? & _ & Hrun).
  apply bind_Ok in Hrun as (A0 & _ & Hrun).
  apply bind_Ok in Hrun as (? & _ & Hrun).
  apply bind_Ok in Hrun as (? & _ & Hrun).
  apply bind_Ok in Hrun as (mbt & _ & Hrun).
  apply bind_Ok in Hrun as (A1 & HA1 & Hrun).
  apply assign_at_Ok in HA1 as [Hlt ->].
  rewrite (sweep_flat _ _ _ _ Hfin Hwf) in Hrun
    by apply (base_to_tip_depths _ _ _ _ Hfin Hwf).
  apply (for_each_partial (λ _ (A : list SpatialAcceleration),
           A !! world_index = Some Spatial_Zero)) in Hrun; [done| |].
  - by apply list_lookup_insert_eq.
  - intros l1 i l2 s s' Hl Hs Hstep.
    apply bind_Ok in Hstep as (node & Hnode%at_unchecked_Ok & Hstep).
    destruct (base_to_tip_before _ _ _ _ Hfin Hwf _ _ _ Hl) as (H1 & _).
    destruct (acceleration_step_preserves_world _ _ _ _ _ _ _ _ Hnode ltac:(lia) Hstep)
      as [Heq _]. simpl. by rewrite Heq.
Qed.

(** The acceleration sweep returns on arguments of the right sizes, and the
    array it returns solves the recurrence. *)
Lemma acceleration_sweep mbt pc vc vdot (A0 : list SpatialAcceleration) :
  length (X_WB_pool pc) = n → length (V_WB_pool vc) = n →
  length (get_velocities mbt) = nv → length vdot = nv → length A0 = n →
  ∃ A, CalcSpatialAccelerationsFromVdot tree (IsMultibodyTreeContext mbt) pc vc
         vdot (Some A0) = Ok A
       ∧ length A = n
       ∧ accelerations_rec topology mbt pc vc vdot A.
Proof.
  intros Hpc Hvc Hv Hvdot HA0. unfold CalcSpatialAccelerationsFromVdot. simpl.
  rewrite num_bodies_n.
  destruct (body_nodes_spec _ _ _ _ Hfin Hwf) as (Htopo & _ & Hlen & Hspec).
  rewrite Htopo.
  rewrite !bool_decide_eq_true_2 by done. simpl.
  pose proof (n_pos topology Hwf) as Hpos.
  unfold assign_at. rewrite decide_True by (unfold world_index; lia). simpl.
  rewrite (sweep_flat _ _ _ _ Hfin Hwf) by apply (base_to_tip_depths _ _ _ _ Hfin Hwf).
  edestruct (for_each_total (λ l1 (A : list SpatialAcceleration),
      length A = n ∧ A !! world_index = Some Spatial_Zero
      ∧ ∀ i t, i ∈ l1 → body_nodes topology !! i = Some t →
          ∃ a, node_acceleration_of t mbt pc vc vdot A = Ok a ∧ A !! i = Some a))
    as (A & Hrun & HlenA & Hworld & Hrec); [| |exists A; split; [exact Hrun|]].
  - split; [by rewrite length_insert|].
    split; [apply list_lookup_insert_eq; unfold world_index; lia|].
    intros i t Hi. by apply elem_of_nil in Hi.
  - intros l1 i l2 A Hl (HlenA & Hworld & Hrec).
    destruct (base_to_tip_before _ _ _ _ Hfin Hwf _ _ _ Hl)
      as (H1 & Hn & Hni & Hbefore & _).
    destruct (node_at i Hn) as (node & Hnode & Ht & Hidx & _).
    destruct (node_acceleration_of_Ok i _ mbt pc vc vdot A Ht ltac:(lia)
                Hpc Hvc Hv Hvdot HlenA) as [a Ha].
    destruct (wf_parent topology Hwf i _ Ht ltac:(lia)) as (_ & Hp & p & Hpt & Hlv).
    exists (<[i := a]> A). split.
    + rewrite (at_unchecked_lookup _ _ _ Hnode). simpl.
      unfold node_CalcSpatialAcceleration_BaseToTip. rewrite Ha. simpl.
      rewrite Hidx. unfold assign_unchecked. by rewrite decide_True by lia.
    + split; [by rewrite length_insert|].
      split; [rewrite list_lookup_insert_ne by (unfold world_index; lia); done|].
      intros j tj Hj Htj. apply elem_of_app in Hj as [Hj|Hj].
      * destruct (Hrec j tj Hj Htj) as (aj & Haj & Hlj).
        destruct (Hbefore j Hj) as (Hj1 & Hjn & Hjl).
        assert (j ≠ i) as Hji by (intros ->; done).
        exists aj. split; [|by rewrite list_lookup_insert_ne].
        rewrite <- Haj. apply node_acceleration_of_ext.
        apply list_lookup_insert_ne.
        destruct (wf_parent topology Hwf j tj Htj ltac:(lia)) as (_ & _ & pj & Hpj & Hlj').
        intros Heq. rewrite <- Heq in Hpj.
        rewrite (lev_lookup topology _ _ Htj), (lev_lookup topology _ _ Hpj) in Hjl.
        lia.
      * apply list_elem_of_singleton in Hj as ->.
        assert (tj = get_topology node) as -> by congruence.
        exists a. split; [|by apply list_lookup_insert_eq; lia].
        rewrite <- Ha. apply node_acceleration_of_ext.
        apply list_lookup_insert_ne. lia.
  - split; [done|]. split; [done|]. intros i t Ht Hne.
    apply Hrec; [|done]. apply (elem_of_base_to_tip _ _ _ _ Hfin Hwf).
    apply lookup_lt_Some in Ht. unfold world_index in Hne. lia.
Qed.

(** The recurrence has one solution. *)
Lemma accelerations_rec_unique mbt pc vc vdot (A1 A2 : list SpatialAcceleration) :
  length A1 = n → length A2 = n →
  accelerations_rec topology mbt pc vc vdot A1 →
  accelerations_rec topology mbt pc vc vdot A2 →
  A1 = A2.
Proof.
  intros Hl1 Hl2 [Hw1 Hr1] [Hw2 Hr2]. apply list_eq. intros i.
  induction i as [i IH] using lt_wf_ind.
  destruct (decide (i < n)) as [Hi|Hi];
    [|by rewrite !lookup_ge_None_2 by lia].
  destruct (decide (i = 0)) as [->|Hne]; [unfold world_index in *; congruence|].
  destruct (lookup_lt_is_Some_2 (body_nodes topology) i Hi) as [t Ht].
  destruct (Hr1 i t Ht Hne) as (a1 & Ha1 & ->).
  destruct (Hr2 i t Ht Hne) as (a2 & Ha2 & ->).
  destruct (wf_parent topology Hwf i t Ht Hne) as (_ & Hp & _).
  rewrite (node_acceleration_of_ext t _ _ _ _ A1 A2 (IH _ Hp)) in Ha1. congruence.
Qed.

(** *** The inverse-dynamics sweep *)

Lemma wf_disjoint i j ti tj :
  body_nodes topology !! i = Some ti → body_nodes topology !! j = Some tj → i ≠ j →
  mobilizer_velocities_start_in_v ti + num_mobilizer_velocities ti
  ≤ mobilizer_velocities_start_in_v tj
  ∨ mobilizer_velocities_start_in_v tj + num_mobilizer_velocities tj
    ≤ mobilizer_velocities_start_in_v ti.
Proof.
  intros Hi Hj Hne. destruct Hwf as (_ & _ & _ & _ & _ & Hdis).
  pose proof (proj1 (Forall_lookup _ _) Hdis i ti Hi) as Hdi. simpl in Hdi.
  pose proof (proj1 (Forall_lookup _ _) Hdi j tj Hj) as [Heq|Hd]; [|done].
  rewrite (wf_index topology Hwf i ti Hi), (wf_index topology Hwf j tj Hj) in Heq.
  done.
Qed.

Lemma wf_cover k :
  k < nv → ∃ i t, body_nodes topology !! i = Some t ∧ i ≠ 0 ∧ owns t k.
Proof.
  intros Hk. destruct Hwf as (_ & _ & _ & _ & Hcov & _).
  assert (k ∈ seq 0 nv) as Hin by (apply elem_of_seq; lia).
  pose proof (proj1 (Forall_forall _ _) Hcov k Hin) as Hex. simpl in Hex.
  apply Exists_exists in Hex as (t & Ht & Hown).
  apply list_elem_of_lookup in Ht as [i Hi]. exists i, t. split; [done|].
  split; [|done]. intros ->.
  destruct (wf_world topology Hwf t Hi) as (_ & _ & H0).
  unfold owns in Hown. lia.
Qed.

Lemma children_forces_ext pc t children (F1 F2 : list SpatialForce) :
  (∀ c, c ∈ children → F1 !! c = F2 !! c) →
  children_forces pc t children F1 = children_forces pc t children F2.
Proof.
  intros H. unfold children_forces. apply for_each_ext. intros c acc Hc.
  unfold at_unchecked. by rewrite (H c Hc).
Qed.

Lemma node_force_of_ext node pc vc A Fa (F1 F2 : list SpatialForce) :
  (∀ c, c ∈ children_ node → F1 !! c = F2 !! c) →
  node_force_of node pc vc A Fa F1 = node_force_of node pc vc A Fa F2.
Proof.
  intros H. unfold node_force_of.
  by rewrite (children_forces_ext pc _ _ F1 F2 H).
Qed.

Lemma children_forces_Ok i pc t children (F : list SpatialForce) :
  index t = i → i < n →
  (∀ c, c ∈ children → c < n) →
  length (X_WB_pool pc) = n → length F = n →
  ∃ l, children_forces pc t children F = Ok l.
Proof.
  intros Hidx Hi Hc Hpc HF. unfold children_forces.
  destruct (for_each_total (A := nat)
              (λ _ (_ : list (Vector3 * SpatialForce)), True) children
              (λ c acc, F_C ← at_unchecked F c;
                        p_BC_W ← p_AB_W pc (index t) c;
                        Ok (acc ++ [(p_BC_W, F_C)])) [] I)
    as (l & Hrun & _); [|exists l; exact Hrun].
  intros l1 c l2 acc Hl _.
  assert (c < n) as Hcn by (apply Hc; rewrite Hl; apply elem_of_app; right; left).
  destruct (lookup_lt_is_Some_2 F c) as [? ->%at_unchecked_lookup]; [lia|].
  unfold p_AB_W, get_X_WB.
  destruct (lookup_lt_is_Some_2 (X_WB_pool pc) (index t))
    as [? ->%at_unchecked_lookup]; [lia|].
  destruct (lookup_lt_is_Some_2 (X_WB_pool pc) c)
    as [? ->%at_unchecked_lookup]; [lia|].
  simpl. eauto.
Qed.

Lemma node_force_of_Ok i node pc vc (A : list SpatialAcceleration) Fa
    (F : list SpatialForce) :
  body_nodes_ tree !! i = Some node → node_spec topology i node →
  length (X_WB_pool pc) = n → length (V_WB_pool vc) = n →
  length A = n → length F = n →
  ∃ f, node_force_of node pc vc A Fa F = Ok f.
Proof.
  intros Hnode (Ht & _ & Hch) Hpc Hvc HA HF.
  pose proof (wf_index topology Hwf i _ Ht) as Hidx.
  pose proof (lookup_lt_Some _ _ _ Ht) as Hi.
  unfold node_force_of, get_V_WB. rewrite Hidx.
  destruct (lookup_lt_is_Some_2 A i) as [? ->%at_unchecked_lookup]; [lia|].
  destruct (lookup_lt_is_Some_2 (V_WB_pool vc) i) as [? ->%at_unchecked_lookup]; [lia|].
  simpl.
  destruct (children_forces_Ok i pc (get_topology node) (children_ node) F)
    as [l ->]; try done.
  - intros c Hc. destruct (Hch c Hc) as (_ & tc & Htc & _).
    by apply lookup_lt_Some in Htc.
  - simpl. eauto.
Qed.

Lemma length_node_H_PB_W pc t :
  length (node_H_PB_W pc t) = num_mobilizer_velocities t.
Proof. unfold node_H_PB_W. by rewrite length_fmap, length_seq. Qed.

Lemma length_node_tau pc t (f : SpatialForce) (tau_applied : VectorX) :
  length tau_applied = 0 ∨ length tau_applied = num_mobilizer_velocities t →
  length (node_tau pc t f tau_applied) = num_mobilizer_velocities t.
Proof.
  intros H. unfold node_tau, project. case_decide.
  - rewrite length_zip_with, length_fmap, length_node_H_PB_W. lia.
  - by rewrite length_fmap, length_node_H_PB_W.
Qed.

(** A child sits one level below its parent. *)
Lemma child_level i node c :
  node_spec topology i node → c ∈ children_ node →
  c < n ∧ i < c ∧ lev c = S (lev i).
Proof.
  intros (Ht & _ & Hch) Hc. destruct (Hch c Hc) as (Hc0 & tc & Htc & Hpar).
  destruct (wf_parent topology Hwf c tc Htc Hc0) as (_ & Hlt & p & Hp & Hl).
  split; [by apply lookup_lt_Some in Htc|]. split; [lia|].
  rewrite (lev_lookup topology c tc Htc), Hl. f_equal.
  rewrite Hpar in Hp. by rewrite (lev_lookup topology i p Hp).
Qed.

(** [CalcInverseDynamics] returns on arguments of the right sizes, whether or
    not an array of applied forces is the corresponding output array.  The
    accelerations it returns solve their recurrence; the forces and the
    generalized forces solve theirs, for the applied forces that the input
    arrays held on entry; the world's entry of the force array is left as it
    was. *)
Lemma inverse_dynamics_sweep mbt pc vc vdot Fapplied tau_applied
    (A0 : list SpatialAcceleration) (F0 : list SpatialForce) (tau0 : VectorX) :
  length (X_WB_pool pc) = n → length (V_WB_pool vc) = n →
  length (get_velocities mbt) = nv → length vdot = nv →
  length A0 = n → length F0 = n → length tau0 = nv →
  length (read_input Fapplied F0) = n ∨ length (read_input Fapplied F0) = 0 →
  length (read_input tau_applied tau0) = nv ∨ length (read_input tau_applied tau0) = 0 →
  ∃ A F tau,
    CalcInverseDynamics tree (IsMultibodyTreeContext mbt) pc vc vdot
      Fapplied tau_applied (Some A0) (Some F0) (Some tau0) = Ok (A, F, tau)
    ∧ length A = n ∧ accelerations_rec topology mbt pc vc vdot A
    ∧ length F = n ∧ length tau = nv
    ∧ F !! world_index = F0 !! world_index
    ∧ forces_rec (body_nodes_ tree) pc vc A (read_input Fapplied F0)
        (read_input tau_applied tau0) F tau.
Proof.
  intros Hpc Hvc Hv Hvdot HA0 HF0 Htau0 HFin Htin.
  destruct (acceleration_sweep mbt pc vc vdot A0 Hpc Hvc Hv Hvdot HA0)
    as (A & HrunA & HlenA & HrecA).
  set (Fin := read_input Fapplied F0) in *.
  set (tin := read_input tau_applied tau0) in *.
  exists A.
  unfold CalcInverseDynamics. simpl. fold Fin. fold tin.
  rewrite num_bodies_n, num_velocities_nv.
  rewrite !bool_decide_eq_true_2 by done. simpl.
  rewrite HrunA. simpl.
  rewrite (sweep_flat _ _ _ _ Hfin Hwf) by apply (tip_to_base_depths _ _ _ _ Hfin Hwf).
  assert (∀ (Fc : list SpatialForce) i,
            Fc !! i = F0 !! i → read_input Fapplied Fc !! i = Fin !! i) as HreadF.
  { intros Fc i Hi. unfold Fin. destruct Fapplied; simpl; done. }
  assert (∀ (tc : VectorX) s m,
            segment s m tc = segment s m tau0 →
            segment s m (read_input tau_applied tc) = segment s m tin) as HreadT.
  { intros tc s m Hs. unfold tin. destruct tau_applied; simpl; done. }
  assert (∀ tc : VectorX, length tc = nv → length tin ≠ 0 →
            length (read_input tau_applied tc) = nv) as HlenT.
  { intros tc Htc Hne. destruct tau_applied; simpl in *; [|done].
    unfold tin in *. simpl in *. lia. }
  edestruct (for_each_total (λ l1 (st : InverseDynamicsState),
      (length (F_BMo_W_array_ st) = n ∧ length (tau_array_ st) = nv)
      ∧ (∀ i, i ∉ l1 → F_BMo_W_array_ st !! i = F0 !! i)
      ∧ (∀ k, (∀ j tj, j ∈ l1 → body_nodes topology !! j = Some tj → ¬ owns tj k) →
              tau_array_ st !! k = tau0 !! k)
      ∧ (∀ i node, i ∈ l1 → body_nodes_ tree !! i = Some node →
           ∃ f, node_force_of node pc vc A (applied_spatial_force Fin i)
                  (F_BMo_W_array_ st) = Ok f
                ∧ F_BMo_W_array_ st !! i = Some f
                ∧ node_segment (get_topology node) (tau_array_ st)
                  = Ok (node_tau pc (get_topology node) f
                          (applied_generalized_forces tin (get_topology node))))
      ∧ (length Fin = 0 → Fapplied_Bo_W st = Spatial_Zero)
      ∧ (length tin = 0 → tau_applied_mobilizer st = [])))
    as (st & Hrun & (HlenF & Hlentau) & Hunt & _ & Hrec & _);
    [| |exists (F_BMo_W_array_ st), (tau_array_ st); split; [by rewrite Hrun|]].
  - simpl. repeat split; try done. intros i node Hi. by apply elem_of_nil in Hi.
  - intros l1 i l2 st Hl ((HlenF & Hlentau) & Hunt & Huntau & Hrec & HFa0 & Hta0).
    destruct (tip_to_base_before _ _ _ _ Hfin Hwf _ _ _ Hl)
      as (H1 & Hn & Hni & Hbefore & Hafter).
    destruct (node_at i Hn) as (node & Hnode & Ht & Hidx & Hspec).
    pose proof (wf_slice topology Hwf i _ Ht) as Hslice.
    pose proof Hspec as (_ & Hmob & _).
    rewrite bool_decide_eq_true_2 in Hmob by lia.
    rewrite (at_unchecked_lookup _ _ _ Hnode). simpl.
    (* the applied generalized forces of the node *)
    assert (segment (mobilizer_velocities_start_in_v (get_topology node))
              (num_mobilizer_velocities (get_topology node)) (tau_array_ st)
            = segment (mobilizer_velocities_start_in_v (get_topology node))
                (num_mobilizer_velocities (get_topology node)) tau0) as Hseg0.
    { apply segment_ext. intros k Hk1 Hk2. apply Huntau.
      intros j tj Hj Htj [Ho1 Ho2].
      assert (j ≠ i) as Hji by (intros ->; done).
      destruct (wf_disjoint j i tj _ Htj Ht Hji); lia. }
    assert ((if decide (length tin ≠ 0)
             then get_generalized_forces_from_array node
                    (read_input tau_applied (tau_array_ st))
             else Ok (tau_applied_mobilizer st))
            = Ok (applied_generalized_forces tin (get_topology node))) as ->.
    { unfold applied_generalized_forces. case_decide as Hsz.
      - unfold get_generalized_forces_from_array. rewrite Hmob.
        unfold segment_of. rewrite decide_True by (rewrite HlenT by done; lia).
        by rewrite (HreadT _ _ _ Hseg0).
      - rewrite Hta0 by lia. done. }
    simpl.
    assert ((if decide (length Fin ≠ 0)
             then at_unchecked (read_input Fapplied (F_BMo_W_array_ st)) i
             else Ok (Fapplied_Bo_W st))
            = Ok (applied_spatial_force Fin i)) as ->.
    { unfold applied_spatial_force. case_decide as Hsz.
      - unfold at_unchecked. rewrite (HreadF _ _ (Hunt i Hni)).
        destruct (lookup_lt_is_Some_2 Fin i) as [f ->]; [lia|]. done.
      - rewrite HFa0 by lia. done. }
    simpl. unfold node_CalcInverseDynamics_TipToBase.
    destruct (node_force_of_Ok i node pc vc A (applied_spatial_force Fin i)
                (F_BMo_W_array_ st) Hnode Hspec Hpc Hvc HlenA HlenF) as [f Hf].
    rewrite Hf. simpl. rewrite Hidx.
    unfold assign_unchecked.
    rewrite (decide_True (P := i < length (F_BMo_W_array_ st))) by lia. simpl.
    unfold node_segment, segment_of.
    rewrite (decide_True (P := _ + _ ≤ length (tau_array_ st))) by lia. simpl.
    assert (length (applied_generalized_forces tin (get_topology node)) = 0
            ∨ length (applied_generalized_forces tin (get_topology node))
              = num_mobilizer_velocities (get_topology node)) as Hlta.
    { unfold applied_generalized_forces. case_decide; [right|by left].
      apply length_segment. lia. }
    rewrite decide_True by done. simpl.
    pose proof (length_node_tau pc (get_topology node) f _ Hlta) as Hlnt.
    eexists. split; [reflexivity|]. simpl.
    split; [split; [by rewrite length_insert|rewrite length_set_segment; lia]|].
    split.
    { intros j Hj. rewrite list_lookup_insert_ne; [apply Hunt|].
      - intros Hj'. apply Hj. apply elem_of_app. by left.
      - intros ->. apply Hj. apply elem_of_app. right. left. }
    split.
    { intros k Hk. rewrite lookup_set_segment_out; [apply Huntau| lia |].
      - intros j tj Hj Htj. apply (Hk j); [|done]. apply elem_of_app. by left.
      - rewrite Hlnt.
        assert (¬ owns (get_topology node) k) as Hno.
        { apply (Hk i); [|done]. apply elem_of_app. right. left. }
        unfold owns in Hno. lia. }
    split; [|split; intros Hz; simpl;
             [unfold applied_spatial_force| unfold applied_generalized_forces];
             by rewrite decide_False by lia].
    intros j nodej Hj Hnodej. apply elem_of_app in Hj as [Hj|Hj].
    + destruct (Hrec j nodej Hj Hnodej) as (fj & Hfj & Hlj & Hsj).
      destruct (Hbefore j Hj) as (Hj1 & Hjn & Hjl).
      assert (j ≠ i) as Hji by (intros ->; done).
      destruct (node_at j Hjn) as (nodej' & Hnodej' & Htj & Hidxj & Hspecj).
      assert (nodej' = nodej) as -> by congruence.
      exists fj. split; [|split].
      * rewrite <- Hfj. apply node_force_of_ext. intros c Hc.
        apply list_lookup_insert_ne.
        destruct (child_level j nodej c Hspecj Hc) as (_ & _ & Hlc). intros ->. lia.
      * by rewrite list_lookup_insert_ne.
      * rewrite <- Hsj. unfold node_segment, segment_of.
        pose proof (wf_slice topology Hwf j _ Htj) as Hslicej.
        rewrite !decide_True by (try rewrite length_set_segment; lia).
        f_equal. apply segment_set_segment_disjoint; [lia|].
        rewrite Hlnt. destruct (wf_disjoint j i _ _ Htj Ht Hji); lia.
    + apply list_elem_of_singleton in Hj as ->.
      assert (nodej = node) as -> by congruence.
      exists f. split; [|split].
      * rewrite <- Hf. apply node_force_of_ext. intros c Hc.
        apply list_lookup_insert_ne.
        destruct (child_level i node c Hspec Hc) as (_ & Hlt & _). lia.
      * apply list_lookup_insert_eq. lia.
      * unfold node_segment, segment_of.
        rewrite decide_True by (rewrite length_set_segment; lia).
        f_equal. rewrite <- Hlnt at 1. apply segment_set_segment. lia.
  - split; [done|]. split; [done|]. split; [done|]. split; [done|]. split.
    + apply Hunt. intros H0. apply (elem_of_tip_to_base _ _ _ _ Hfin Hwf) in H0.
      unfold world_index in H0. lia.
    + intros i node Hnode Hne. apply Hrec; [|done].
      apply (elem_of_tip_to_base _ _ _ _ Hfin Hwf).
      apply lookup_lt_Some in Hnode.
      destruct (body_nodes_spec _ _ _ _ Hfin Hwf) as (_ & _ & Hlen & _).
      unfold world_index in Hne. lia.
Qed.

(** The force recurrence has one solution, the world's entry apart. *)
Lemma forces_rec_unique pc vc (A : list SpatialAcceleration) Fin tin
    (F1 F2 : list SpatialForce) (tau1 tau2 : VectorX) :
  length F1 = n → length F2 = n → length tau1 = nv → length tau2 = nv →
  forces_rec (body_nodes_ tree) pc vc A Fin tin F1 tau1 →
  forces_rec (body_nodes_ tree) pc vc A Fin tin F2 tau2 →
  (∀ i, i ≠ world_index → F1 !! i = F2 !! i) ∧ tau1 = tau2.
Proof.
  intros HF1 HF2 Ht1 Ht2 Hr1 Hr2.
  assert (∀ m i, n - i ≤ m → i ≠ world_index → F1 !! i = F2 !! i) as HF.
  { induction m as [|m IH]; intros i Hm Hne.
    - by rewrite !lookup_ge_None_2 by lia.
    - destruct (decide (i < n)) as [Hi|Hi];
        [|by rewrite !lookup_ge_None_2 by lia].
      destruct (node_at i Hi) as (node & Hnode & _ & _ & Hspec).
      destruct (Hr1 i node Hnode Hne) as (f1 & Hf1 & -> & _).
      destruct (Hr2 i node Hnode Hne) as (f2 & Hf2 & -> & _).
      rewrite (node_force_of_ext node pc vc A _ F1 F2) in Hf1; [congruence|].
      intros c Hc. destruct (child_level i node c Hspec Hc) as (Hcn & Hic & _).
      apply IH; [lia|unfold world_index; lia]. }
  split; [intros i Hne; by apply (HF (n - i))|].
  apply list_eq. intros k.
  destruct (decide (k < nv)) as [Hk|Hk]; [|by rewrite !lookup_ge_None_2 by lia].
  destruct (wf_cover k Hk) as (i & t & Ht & Hne & Hown1 & Hown2).
  destruct (node_at i (lookup_lt_Some _ _ _ Ht)) as (node & Hnode & Ht' & _).
  assert (t = get_topology node) as -> by congruence.
  destruct (Hr1 i node Hnode Hne) as (f1 & _ & Hl1 & Hs1).
  destruct (Hr2 i node Hnode Hne) as (f2 & _ & Hl2 & Hs2).
  assert (f1 = f2) as -> by (rewrite (HF (n - i) i) in Hl1 by done; congruence).
  unfold node_segment in Hs1, Hs2.
  apply segment_of_Ok in Hs1 as [_ Hs1]. apply segment_of_Ok in Hs2 as [_ Hs2].
  rewrite (segment_lookup _ _ tau1 k Hown1 Hown2).
  rewrite (segment_lookup _ _ tau2 k Hown1 Hown2). congruence.
Qed.

(** What [CalcInverseDynamics] returns is settled by the context, the caches,
    the generalized accelerations and the applied forces its input arrays
    hold on entry: neither the contents of the output buffers nor an input
    being the output object bear on the accelerations, on the generalized
    forces, or on the forces of the nodes other than the world.  The world's
    force entry is whatever the force buffer held. *)
Lemma inverse_dynamics_determined mbt pc vc vdot
    Fapplied1 tau_applied1 (A1 : list SpatialAcceleration) (F1 : list SpatialForce)
    (tau1 : VectorX)
    Fapplied2 tau_applied2 (A2 : list SpatialAcceleration) (F2 : list SpatialForce)
    (tau2 : VectorX) :
  length (X_WB_pool pc) = n → length (V_WB_pool vc) = n →
  length (get_velocities mbt) = nv → length vdot = nv →
  length A1 = n → length F1 = n → length tau1 = nv →
  length A2 = n → length F2 = n → length tau2 = nv →
  read_input Fapplied1 F1 = read_input Fapplied2 F2 →
  read_input tau_applied1 tau1 = read_input tau_applied2 tau2 →
  length (read_input Fapplied1 F1) = n ∨ length (read_input Fapplied1 F1) = 0 →
  length (read_input tau_applied1 tau1) = nv
  ∨ length (read_input tau_applied1 tau1) = 0 →
  ∃ A F F' tau,
    CalcInverseDynamics tree (IsMultibodyTreeContext mbt) pc vc vdot
      Fapplied1 tau_applied1 (Some A1) (Some F1) (Some tau1) = Ok (A, F, tau)
    ∧ CalcInverseDynamics tree (IsMultibodyTreeContext mbt) pc vc vdot
        Fapplied2 tau_applied2 (Some A2) (Some F2) (Some tau2) = Ok (A, F', tau)
    ∧ length A = n ∧ length F = n ∧ length F' = n ∧ length tau = nv
    ∧ (∀ i, i ≠ world_index → F !! i = F' !! i)
    ∧ F !! world_index = F1 !! world_index
    ∧ F' !! world_index = F2 !! world_index.
Proof.
  intros Hpc Hvc Hv Hvdot HA1 HF1 Ht1 HA2 HF2 Ht2 HeqF Heqt HszF Hszt.
  destruct (inverse_dynamics_sweep mbt pc vc vdot Fapplied1 tau_applied1 A1 F1 tau1)
    as (A & F & tau & Hrun1 & HlA & HrA & HlF & Hlt & Hw & Hrec); try done.
  destruct (inverse_dynamics_sweep mbt pc vc vdot Fapplied2 tau_applied2 A2 F2 tau2)
    as (A' & F' & tau' & Hrun2 & HlA' & HrA' & HlF' & Hlt' & Hw' & Hrec');
    try done; try (by rewrite <- HeqF); try (by rewrite <- Heqt).
  assert (A' = A) as -> by (by apply (accelerations_rec_unique mbt pc vc vdot)).
  rewrite <- HeqF, <- Heqt in Hrec'.
  destruct (forces_rec_unique pc vc A _ _ F F' tau tau' HlF HlF' Hlt Hlt' Hrec Hrec')
    as [HF <-].
  exists A, F, F', tau. done.
Qed.

(** *** Zero velocity *)

Lemma v3_add_zero : v3_add (T := T) Vector3_Zero Vector3_Zero = Vector3_Zero.
Proof. unfold v3_add, Vector3_Zero. simpl. by rewrite Tadd_zero_l. Qed.

Lemma cross_zero_l (p : Vector3 (T := T)) : cross Vector3_Zero p = Vector3_Zero.
Proof. unfold cross, Vector3_Zero. simpl. by rewrite !Tmul_zero_l, Tsub_zero_r. Qed.

Lemma cross_zero_r (p : Vector3 (T := T)) : cross p Vector3_Zero = Vector3_Zero.
Proof. unfold cross, Vector3_Zero. simpl. by rewrite !Tmul_zero_r, Tsub_zero_r. Qed.

Lemma sv_add_zero : sv_add (T := T) Spatial_Zero Spatial_Zero = Spatial_Zero.
Proof. unfold sv_add, Spatial_Zero. simpl. by rewrite v3_add_zero. Qed.

Lemma sv_sub_zero : sv_sub (T := T) Spatial_Zero Spatial_Zero = Spatial_Zero.
Proof.
  unfold sv_sub, Spatial_Zero, v3_sub, Vector3_Zero. simpl.
  by rewrite Tsub_zero_r.
Qed.

Lemma sv_scale_zero (h : SpatialVector (T := T)) : sv_scale Tzero h = Spatial_Zero.
Proof.
  unfold sv_scale, v3_scale, Spatial_Zero, Vector3_Zero.
  by rewrite !Tmul_zero_l.
Qed.

Lemma sv_dot_zero (h : SpatialVector (T := T)) : sv_dot h Spatial_Zero = Tzero.
Proof.
  unfold sv_dot, v3_dot, Spatial_Zero, Vector3_Zero. simpl.
  by rewrite !Tmul_zero_r, !Tadd_zero_l.
Qed.

Lemma shift_motion_zero (p : Vector3 (T := T)) :
  shift_motion Spatial_Zero p = Spatial_Zero.
Proof.
  unfold shift_motion, Spatial_Zero. simpl. by rewrite cross_zero_l, v3_add_zero.
Qed.

Lemma shift_force_zero (p : Vector3 (T := T)) :
  shift_force Spatial_Zero p = Spatial_Zero.
Proof.
  unfold shift_force, Spatial_Zero. simpl. by rewrite cross_zero_r, v3_add_zero.
Qed.

(** A matrix times the zero vector. *)
Lemma lincomb_zero (H : list (SpatialVector (T := T))) (x : list T) :
  Forall (λ k, k = Tzero) x → lincomb H x = Spatial_Zero.
Proof.
  intros Hx. revert H. induction Hx as [|k x -> _ IH]; intros [|h H]; simpl; try done.
  by rewrite sv_scale_zero, IH, sv_add_zero.
Qed.

Lemma project_zero (H : list (SpatialVector (T := T))) :
  project H Spatial_Zero = replicate (length H) Tzero.
Proof.
  unfold project. induction H as [|h H IH]; simpl; [done|].
  rewrite sv_dot_zero. f_equal. exact IH.
Qed.

Lemma segment_replicate {A} start m k (x : A) :
  start + m ≤ k → segment start m (replicate k x) = replicate m x.
Proof.
  intros H. unfold segment. rewrite drop_replicate, take_replicate. f_equal. lia.
Qed.

(** With all velocities and generalized accelerations zero, the recursions
    give zero. *)
Lemma node_velocity_zero (p : Vector3 (T := T)) H m :
  node_velocity Spatial_Zero p H (replicate m Tzero) = Spatial_Zero.
Proof.
  unfold node_velocity.
  rewrite shift_motion_zero, lincomb_zero, sv_add_zero; [done|].
  by apply Forall_replicate.
Qed.

Lemma node_acceleration_zero pc t (p : Vector3 (T := T)) m1 m2 :
  bias_terms_vanish →
  node_acceleration pc t Spatial_Zero p Spatial_Zero Spatial_Zero
    (replicate m1 Tzero) (replicate m2 Tzero) = Spatial_Zero.
Proof.
  intros [HAb _]. unfold node_acceleration.
  rewrite shift_motion_zero, HAb, sv_add_zero, lincomb_zero, sv_add_zero; [done|].
  by apply Forall_replicate.
Qed.

Lemma node_force_zero pc t (children : list (Vector3 * SpatialForce)) :
  bias_terms_vanish →
  Forall (λ child, child.2 = Spatial_Zero (T := T)) children →
  node_force pc t Spatial_Zero Spatial_Zero Spatial_Zero children = Spatial_Zero.
Proof.
  intros [_ HFb] Hch. unfold node_force.
  rewrite HFb, lincomb_zero, sv_add_zero, sv_sub_zero.
  - induction Hch as [|[p F] children HF _ IH]; simpl; [done|].
    simpl in HF. subst F. by rewrite shift_force_zero, sv_add_zero.
  - unfold get_coeffs, v3_coeffs, Spatial_Zero, Vector3_Zero. simpl.
    repeat constructor.
Qed.

(** *** The position and velocity sweeps *)

Lemma position_sweep mbt :
  ∃ pc, EvalPositionKinematics tree (IsMultibodyTreeContext mbt) = Ok pc
        ∧ length (X_WB_pool pc) = n.
Proof.
  unfold EvalPositionKinematics, CalcPositionKinematicsCache. simpl.
  rewrite (sweep_flat _ _ _ _ Hfin Hwf) by apply (base_to_tip_depths _ _ _ _ Hfin Hwf).
  destruct (body_nodes_spec _ _ _ _ Hfin Hwf) as (Htopo & _).
  apply (for_each_total (λ (_ : list nat) (pc : PositionKinematicsCache),
                           length (X_WB_pool pc) = n)).
  - simpl. rewrite length_replicate, Htopo. by destruct Hwf as (_ & _ & -> & _).
  - intros l1 i l2 pc Hl Hlen.
    destruct (base_to_tip_before _ _ _ _ Hfin Hwf _ _ _ Hl) as (H1 & Hn & _).
    destruct (node_at i Hn) as (node & Hnode & Ht & Hidx & _).
    destruct (wf_parent topology Hwf i _ Ht ltac:(lia)) as (_ & Hp & _).
    rewrite (at_unchecked_lookup _ _ _ Hnode). simpl.
    unfold node_CalcPositionKinematicsCache_BaseToTip, get_X_WB.
    destruct (lookup_lt_is_Some_2 (X_WB_pool pc) (parent_body_node (get_topology node)))
      as [X ->%at_unchecked_lookup]; [lia|].
    simpl. rewrite Hidx. unfold assign_unchecked. rewrite decide_True by lia.
    simpl. eexists. split; [done|]. simpl. by rewrite length_insert.
Qed.

Lemma across_node_jacobian_sweep mbt pc :
  ∃ H, CalcAcrossNodeGeometricJacobianExpressedInWorld tree
         (IsMultibodyTreeContext mbt) pc
         (Some (replicate (num_velocities tree) Spatial_new)) = Ok H
       ∧ length H = nv.
Proof.
  unfold CalcAcrossNodeGeometricJacobianExpressedInWorld. simpl.
  rewrite length_replicate, bool_decide_eq_true_2 by done. simpl.
  rewrite num_bodies_n, num_velocities_nv.
  apply (for_each_total (λ (_ : list nat) (H : list SpatialVector), length H = nv));
    [apply length_replicate|].
  intros l1 i l2 H Hl Hlen.
  assert (i ∈ seq 1 (n - 1)) as Hi by (rewrite Hl; apply elem_of_app; right; left).
  apply elem_of_seq in Hi.
  destruct (node_at i ltac:(lia)) as (node & Hnode & Ht & Hidx & _).
  pose proof (wf_slice topology Hwf i _ Ht) as Hslice.
  rewrite (at_unchecked_lookup _ _ _ Hnode). simpl.
  unfold GetJacobianFromArray, segment_of. rewrite decide_True by lia. simpl.
  eexists. split; [done|].
  rewrite length_set_segment; [done|]. rewrite length_node_H_PB_W. lia.
Qed.

(** At zero generalized velocities the velocity kinematics are zero. *)
Lemma velocity_sweep_at_rest mbt :
  get_velocities mbt = replicate nv Tzero →
  EvalVelocityKinematics tree (IsMultibodyTreeContext mbt)
  = Ok (mkVelocityKinematicsCache (replicate n Spatial_Zero)).
Proof.
  intros Hv. unfold EvalVelocityKinematics.
  destruct (position_sweep mbt) as (pc & -> & Hpc). simpl.
  unfold CalcVelocityKinematicsCache. simpl.
  destruct (across_node_jacobian_sweep mbt pc) as (H & -> & HlenH). simpl.
  rewrite (sweep_flat _ _ _ _ Hfin Hwf) by apply (base_to_tip_depths _ _ _ _ Hfin Hwf).
  destruct (body_nodes_spec _ _ _ _ Hfin Hwf) as (Htopo & _).
  edestruct (for_each_total (λ (_ : list nat) (vc : VelocityKinematicsCache),
               vc = mkVelocityKinematicsCache (replicate n Spatial_Zero)))
    as (vc & Hrun & ->); [| |exact Hrun].
  - unfold InitializeToZero, VelocityKinematicsCache_new. simpl.
    rewrite length_replicate, Htopo. by destruct Hwf as (_ & _ & -> & _).
  - intros l1 i l2 vc Hl ->.
    destruct (base_to_tip_before _ _ _ _ Hfin Hwf _ _ _ Hl) as (H1 & Hn & _).
    destruct (node_at i Hn) as (node & Hnode & Ht & Hidx & _).
    destruct (wf_parent topology Hwf i _ Ht ltac:(lia)) as (_ & Hp & _).
    pose proof (wf_slice topology Hwf i _ Ht) as Hslice.
    rewrite (at_unchecked_lookup _ _ _ Hnode). simpl.
    unfold GetJacobianFromArray, segment_of. rewrite decide_True by lia. simpl.
    unfold node_CalcVelocityKinematicsCache_BaseToTip, get_V_WB, p_AB_W, get_X_WB.
    simpl. rewrite Hidx.
    rewrite (at_unchecked_lookup _ _ Spatial_Zero)
      by (apply lookup_replicate_2; lia). simpl.
    destruct (lookup_lt_is_Some_2 (X_WB_pool pc) (parent_body_node (get_topology node)))
      as [X ->%at_unchecked_lookup]; [lia|].
    destruct (lookup_lt_is_Some_2 (X_WB_pool pc) i)
      as [X' ->%at_unchecked_lookup]; [lia|].
    simpl. unfold node_segment, segment_of.
    rewrite Hv, length_replicate, decide_True by lia. simpl.
    rewrite segment_replicate by lia. rewrite node_velocity_zero.
    unfold assign_unchecked. rewrite length_replicate, decide_True by lia. simpl.
    rewrite insert_replicate. eauto.
Qed.

Lemma accelerations_at_rest mbt pc vc vdot (A : list SpatialAcceleration) :
  bias_terms_vanish →
  V_WB_pool vc = replicate n Spatial_Zero →
  get_velocities mbt = replicate nv Tzero → vdot = replicate nv Tzero →
  accelerations_rec topology mbt pc vc vdot A →
  ∀ i, i < n → A !! i = Some Spatial_Zero.
Proof.
  intros Hbias Hvc Hv -> [Hw Hrec] i.
  induction i as [i IH] using lt_wf_ind. intros Hi.
  destruct (decide (i = 0)) as [->|Hne]; [done|].
  destruct (lookup_lt_is_Some_2 (body_nodes topology) i Hi) as [t Ht].
  destruct (Hrec i t Ht Hne) as (a & Ha & ->). f_equal.
  destruct (wf_parent topology Hwf i t Ht Hne) as (_ & Hp & _).
  pose proof (wf_slice topology Hwf i t Ht) as Hslice.
  unfold node_acceleration_of, get_V_WB, node_segment in Ha.
  apply bind_Ok in Ha as (A_WP & HA_WP%at_unchecked_Ok & Ha).
  apply bind_Ok in Ha as (p & _ & Ha).
  apply bind_Ok in Ha as (V_WP & HV_WP%at_unchecked_Ok & Ha).
  apply bind_Ok in Ha as (V_WB & HV_WB%at_unchecked_Ok & Ha).
  apply bind_Ok in Ha as (v_node & Hv_node%segment_of_Ok & Ha).
  apply bind_Ok in Ha as (vdot_node & Hvdot_node%segment_of_Ok & Ha).
  injection Ha as <-.
  rewrite IH in HA_WP by lia. injection HA_WP as <-.
  rewrite Hvc in HV_WP, HV_WB.
  apply lookup_replicate in HV_WP as [-> _]. apply lookup_replicate in HV_WB as [-> _].
  destruct Hv_node as [_ ->]. destruct Hvdot_node as [_ ->].
  rewrite Hv, !segment_replicate by lia.
  by apply node_acceleration_zero.
Qed.

Lemma children_forces_zero pc t children (F : list SpatialForce)
    (l : list (Vector3 * SpatialForce)) :
  children_forces pc t children F = Ok l →
  (∀ c, c ∈ children → F !! c = Some Spatial_Zero) →
  Forall (λ child, child.2 = Spatial_Zero) l.
Proof.
  intros Hrun Hzero. unfold children_forces in Hrun.
  apply (for_each_partial (λ (_ : list nat) (acc : list (Vector3 * SpatialForce)),
           Forall (λ child, child.2 = Spatial_Zero) acc)) in Hrun; [done|done|].
  intros l1 c l2 acc acc' Hl Hacc Hstep.
  apply bind_Ok in Hstep as (F_C & HF_C%at_unchecked_Ok & Hstep).
  apply bind_Ok in Hstep as (p & _ & Hstep). injection Hstep as <-.
  apply Forall_app. split; [done|]. constructor; [|done]. simpl.
  rewrite Hzero in HF_C by (rewrite Hl; apply elem_of_app; right; left).
  congruence.
Qed.

Lemma forces_at_rest pc vc (A : list SpatialAcceleration) (F : list SpatialForce)
    (tau : VectorX) :
  bias_terms_vanish →
  V_WB_pool vc = replicate n Spatial_Zero →
  (∀ i, i < n → A !! i = Some Spatial_Zero) →
  length tau = nv →
  forces_rec (body_nodes_ tree) pc vc A [] [] F tau →
  tau = replicate nv Tzero.
Proof.
  intros Hbias Hvc HA Hlt Hrec.
  assert (∀ m i, n - i ≤ m → i ≠ 0 → i < n → F !! i = Some Spatial_Zero) as HF.
  { induction m as [|m IH]; intros i Hm Hne Hi; [lia|].
    destruct (node_at i Hi) as (node & Hnode & Ht & Hidx & Hspec).
    destruct (Hrec i node Hnode Hne) as (f & Hf & -> & _). f_equal.
    unfold node_force_of, get_V_WB in Hf. rewrite Hidx in Hf.
    apply bind_Ok in Hf as (A_WB & HA_WB%at_unchecked_Ok & Hf).
    apply bind_Ok in Hf as (V_WB & HV_WB%at_unchecked_Ok & Hf).
    apply bind_Ok in Hf as (children & Hchildren & Hf). injection Hf as <-.
    rewrite HA in HA_WB by done. injection HA_WB as <-.
    rewrite Hvc in HV_WB. apply lookup_replicate in HV_WB as [-> _].
    apply node_force_zero; [done|].
    apply (children_forces_zero _ _ _ _ _ Hchildren). intros c Hc.
    destruct (child_level i node c Hspec Hc) as (Hcn & Hic & _).
    apply IH; lia. }
  apply list_eq. intros k.
  destruct (decide (k < nv)) as [Hk|Hk];
    [|rewrite lookup_ge_None_2 by lia;
      symmetry; apply lookup_replicate_None; lia].
  rewrite lookup_replicate_2 by done.
  destruct (wf_cover k Hk) as (i & t & Ht & Hne & Hown1 & Hown2).
  destruct (node_at i (lookup_lt_Some _ _ _ Ht)) as (node & Hnode & Ht' & _).
  assert (t = get_topology node) as -> by congruence.
  destruct (Hrec i node Hnode Hne) as (f & _ & Hl & Hs).
  rewrite (HF (n - i) i) in Hl by (try done; by eapply lookup_lt_Some).
  injection Hl as <-.
  unfold node_segment in Hs. apply segment_of_Ok in Hs as [_ Hs].
  rewrite (segment_lookup _ _ tau k Hown1 Hown2), <- Hs.
  unfold node_tau, applied_generalized_forces. simpl.
  rewrite project_zero, length_node_H_PB_W.
  apply lookup_replicate_2. lia.
Qed.

(** C3.  For a tree over body nodes whose bias terms vanish at zero velocity,
    in any configuration: when the generalized velocities are all zero,
    [CalcBiasTerm] returns the zero vector. *)
Theorem bias_term_zero_at_zero_velocity mbt (Cv : VectorX) :
  bias_terms_vanish →
  get_velocities mbt = replicate nv Tzero →
  length Cv = nv →
  CalcBiasTerm tree (IsMultibodyTreeContext mbt) (Some Cv)
  = Ok (replicate nv Tzero).
Proof.
  intros Hbias Hv HCv. unfold CalcBiasTerm. simpl.
  rewrite num_velocities_nv, bool_decide_eq_true_2 by done. simpl.
  destruct (position_sweep mbt) as (pc & -> & Hpc). simpl.
  rewrite (velocity_sweep_at_rest mbt Hv). simpl.
  unfold DoCalcBiasTerm. rewrite num_velocities_nv, num_bodies_n.
  set (vc := mkVelocityKinematicsCache (replicate n Spatial_Zero)).
  destruct (inverse_dynamics_sweep mbt pc vc (VectorX_Zero nv)
              (Distinct []) (Distinct [])
              (replicate n Spatial_new) (replicate n Spatial_new) Cv)
    as (A & F & tau & -> & HlA & HrA & HlF & Hlt & _ & Hrec);
    simpl; try done; try apply length_replicate; try (by right).
  { by rewrite Hv, length_replicate. }
  f_equal. apply (forces_at_rest pc vc A F tau); try done.
  by apply (accelerations_at_rest mbt pc vc (VectorX_Zero nv)).
Qed.

(** *** Claims about the sweeps *)

(** C5.  Whatever the context, the caches, the known generalized
    accelerations and the array handed in, when
    [CalcSpatialAccelerationsFromVdot] returns the world's entry of the array
    is zero; every turn of the sweep that follows the write of the world's
    entry leaves that entry as it is; and the operation does return on
    arguments of the right sizes. *)
Theorem world_acceleration_is_zero :
  (∀ context pc vc vdot A A',
     CalcSpatialAccelerationsFromVdot tree context pc vc vdot A = Ok A' →
     A' !! world_index = Some Spatial_Zero)
  ∧ (∀ depth body_node_level i node mbt pc vc vdot
       (A A' : list SpatialAcceleration),
       body_node_levels_ tree !! depth = Some body_node_level →
       i ∈ body_node_level →
       body_nodes_ tree !! i = Some node →
       CalcSpatialAcceleration_BaseToTip node mbt pc vc vdot A = Ok A' →
       A' !! world_index = A !! world_index)
  ∧ (∀ mbt pc vc vdot (A : list SpatialAcceleration),
       length (X_WB_pool pc) = n → length (V_WB_pool vc) = n →
       length (get_velocities mbt) = nv → length vdot = nv → length A = n →
       ∃ A', CalcSpatialAccelerationsFromVdot tree (IsMultibodyTreeContext mbt)
               pc vc vdot (Some A) = Ok A').
Proof.
  split; [|split].
  - intros context pc vc vdot A A'. apply acceleration_sweep_world.
  - intros depth lv i node mbt pc vc vdot A A' Hlv Hi Hnode Hstep.
    rewrite (body_node_levels_spec _ _ _ _ Hfin Hwf) in Hlv.
    rewrite list_lookup_fmap in Hlv.
    destruct (seq 0 (topology_tree_height topology) !! depth) as [d|] eqn:Hd;
      [|done].
    injection Hlv as <-. apply elem_of_level_list in Hi as (H1 & _).
    eapply acceleration_step_preserves_world; [done|lia|done].
  - intros mbt pc vc vdot A Hpc Hvc Hv Hvdot HA.
    destruct (acceleration_sweep mbt pc vc vdot A Hpc Hvc Hv Hvdot HA)
      as (A' & Hrun & _). eauto.
Qed.

(** The positive half of C6: with an array of applied spatial forces and a
    vector of applied generalized forces, [CalcInverseDynamics] returns the
    same accelerations, the same generalized forces and the same forces of
    all nodes but the world whether these are separate objects or the output
    objects themselves.  The world's force entry is not written: it comes
    back as the output buffer had it. *)
Lemma CalcInverseDynamics_same_input_and_output mbt pc vc vdot
    (Fapplied : list SpatialForce) (tau_applied : VectorX)
    (A1 A2 : list SpatialAcceleration) (F0 : list SpatialForce) (tau0 : VectorX) :
  length (X_WB_pool pc) = n → length (V_WB_pool vc) = n →
  length (get_velocities mbt) = nv → length vdot = nv →
  length A1 = n → length A2 = n → length F0 = n → length tau0 = nv →
  length Fapplied = n → length tau_applied = nv →
  ∃ A F F' tau,
    CalcInverseDynamics tree (IsMultibodyTreeContext mbt) pc vc vdot
      (Distinct Fapplied) (Distinct tau_applied) (Some A1) (Some F0) (Some tau0)
    = Ok (A, F, tau)
    ∧ CalcInverseDynamics tree (IsMultibodyTreeContext mbt) pc vc vdot
        SameAsOutput SameAsOutput (Some A2) (Some Fapplied) (Some tau_applied)
      = Ok (A, F', tau)
    ∧ (∀ i, i ≠ world_index → F !! i = F' !! i)
    ∧ F !! world_index = F0 !! world_index
    ∧ F' !! world_index = Fapplied !! world_index.
Proof.
  intros Hpc Hvc Hv Hvdot HA1 HA2 HF0 Htau0 HFa Hta.
  destruct (inverse_dynamics_determined mbt pc vc vdot
              (Distinct Fapplied) (Distinct tau_applied) A1 F0 tau0
              SameAsOutput SameAsOutput A2 Fapplied tau_applied)
    as (A & F & F' & tau & H1 & H2 & _ & _ & _ & _ & HF & Hw & Hw');
    simpl; try done; try (by left).
  exists A, F, F', tau. done.
Qed.




End Recursions.

(** ** The example mechanism *)

Lemma Example_finalized :
  FinalizeInternals Example.topology Example.bodies None = Ok Example.tree.
Proof. vm_compute. reflexivity. Defined.

Lemma Example_wf : topology_wf Example.topology.
Proof. apply (bool_decide_unpack _). vm_compute. exact I. Defined.

Lemma Example_bias_terms_vanish : bias_terms_vanish (K := Example.kernels).
Proof. split; intros; reflexivity. Defined.

Lemma CalcGravityGeneralizedForces_without_gravity_witness :
  topology_is_valid Example.tree = true
  ∧ gravity_field_ Example.tree = None
  ∧ CalcGravityGeneralizedForces Example.tree Example.context = Ok [0; 0; 0]%Z.
Proof.
  split; [reflexivity|]. split; [reflexivity|].
  exact (CalcGravityGeneralizedForces_without_gravity Example.tree Example.context
           eq_refl eq_refl).
Defined.

Lemma CalcAllBody_resizes_and_fills_witness :
  ∃ X, CalcAllBodyPosesInWorld (impl := Example.impl) Example.tree Example.context
         (Some []) = Ok X
       ∧ length X = 4.
Proof.
  destruct (CalcAllBody_resizes_and_fills (impl := Example.impl)
              Example.tree Example.context Example.pc Example.vc [] [])
    as [(X & HX & Hlen & _) _].
  - vm_compute. reflexivity.
  - vm_compute. reflexivity.
  - repeat constructor.
  - repeat constructor.
  - exists X. split; [exact HX|exact Hlen].
Defined.



(** The drivers hand the body nodes the context of the caller, generalized
    velocities included, with the zeroed velocity cache.  Body nodes whose
    bias terms vanish at zero velocity, but whose acceleration bias on a
    velocity cache at rest still takes in the generalized velocities of the
    context, put these into the columns: the matrix is then not the one the
    same call yields at rest. *)
Lemma mass_matrix_of_body_nodes_reading_context :
  bias_terms_vanish (K := Example.kernels_reading_context)
  ∧ CalcMassMatrixViaInverseDynamics
      (impl := BodyNode_of_kernels (K := Example.kernels_reading_context))
      Example.tree Example.context_at_rest (Some Example.H0)
    = Ok (Some (mkMatrixX 3 [ [6; 1; -2]; [1; 1; 0]; [-2; 0; 2] ]%Z))
  ∧ CalcMassMatrixViaInverseDynamics
      (impl := BodyNode_of_kernels (K := Example.kernels_reading_context))
      Example.tree Example.context (Some Example.H0)
    ≠ Ok (Some (mkMatrixX 3 [ [6; 1; -2]; [1; 1; 0]; [-2; 0; 2] ]%Z)).
Proof.
  split; [|split].
  - split; intros; [|reflexivity]. simpl. unfold Spatial_Zero, Vector3_Zero.
    f_equal. simpl. f_equal; try reflexivity.
    induction n as [|n IH]; simpl; [reflexivity|]. exact IH.
  - vm_compute. reflexivity.
  - vm_compute. discriminate.
Qed.

Lemma bias_term_zero_at_zero_velocity_witness :
  bias_terms_vanish (K := Example.kernels)
  ∧ get_velocities Example.mbt_at_rest = [0; 0; 0]%Z
  ∧ CalcBiasTerm (impl := Example.impl) Example.tree Example.context_at_rest
      (Some [7; 7; 7]%Z) = Ok [0; 0; 0]%Z.
Proof.
  split; [exact Example_bias_terms_vanish|]. split; [reflexivity|].
  exact (bias_term_zero_at_zero_velocity (K := Example.kernels)
           Example.topology Example.bodies None Example.tree
           Example_finalized Example_wf eq_refl
           Example.mbt_at_rest [7; 7; 7]%Z
           Example_bias_terms_vanish eq_refl eq_refl).
Defined.

Lemma world_acceleration_is_zero_witness :
  ∃ A, CalcSpatialAccelerationsFromVdot (impl := Example.impl) Example.tree
         Example.context Example.pc Example.vc [1; 0; 0]%Z
         (Some (replicate 4 Spatial_new)) = Ok A
       ∧ A !! world_index = Some Spatial_Zero.
Proof.
  destruct (world_acceleration_is_zero (K := Example.kernels)
              Example.topology Example.bodies None Example.tree
              Example_finalized Example_wf eq_refl) as (Hworld & _ & Hreturns).
  destruct (Hreturns Example.mbt Example.pc Example.vc [1; 0; 0]%Z
              (replicate 4 Spatial_new) eq_refl eq_refl eq_refl eq_refl eq_refl)
    as [A HA].
  exists A. split; [exact HA|]. exact (Hworld _ _ _ _ _ _ HA).
Defined.


(** C8, as stated, fails: an argument that breaks the checks of
    [CalcPointsPositions] (a matrix of points with two rows, a null output
    pointer) does not end the process; it raises an exception that the
    caller can catch.  And an output vector of the wrong size is accepted by
    [CalcAllBodyPosesInWorld]. *)
Lemma precondition_violation_not_always_fatal :
  CalcPointsPositions (impl := Example.impl) Example.tree Example.context
    Example.frame (mkMatrixX 2 []) Example.frame None
  = Thrown throw_unless_error
  ∧ CalcPointsPositions (impl := Example.impl) Example.tree Example.context
      Example.frame (mkMatrixX 2 []) Example.frame None
    ≠ Fatal
  ∧ CalcAllBodyPosesInWorld (impl := Example.impl) Example.tree Example.context
      (Some [])
    = Ok (X_WB_pool Example.pc).
Proof.
  split; [vm_compute; reflexivity|]. split; [vm_compute; discriminate|].
  vm_compute. reflexivity.
Qed.

(** C6 at a concrete call.  With applied forces on the four bodies, passing
    the applied arrays as separate objects and passing them as the output
    objects give the same accelerations and the same generalized forces, but
    not the same force array: no turn of the tip-to-base loop visits the
    world, since [FinalizeInternals] fills the level lists from body node 1
    on, so the world's entry comes back as the output buffer held it, zero in
    the one call and the force applied to the world in the other. *)
Theorem CalcInverseDynamics_world_force_entry_depends_on_aliasing :
  ∃ A F F' tau,
    CalcInverseDynamics (impl := Example.impl) Example.tree Example.context
      Example.pc Example.vc [1; 0; 2]%Z
      (Distinct Example.Fapplied) (Distinct Example.tau_applied)
      (Some (replicate 4 Spatial_Zero)) (Some (replicate 4 Spatial_Zero))
      (Some [0; 0; 0]%Z) = Ok (A, F, tau)
    ∧ CalcInverseDynamics (impl := Example.impl) Example.tree Example.context
        Example.pc Example.vc [1; 0; 2]%Z SameAsOutput SameAsOutput
        (Some (replicate 4 Spatial_Zero)) (Some Example.Fapplied)
        (Some Example.tau_applied) = Ok (A, F', tau)
    ∧ F !! world_index = Some Spatial_Zero
    ∧ F' !! world_index = Some (mkSpatial (Example.e 0 0 0) (Example.e 0 0 5))
    ∧ F ≠ F'
    ∧ body_node_levels_ Example.tree !! 0 = Some [].
Proof.
  eexists _, _, _, _.
  split; [vm_compute; reflexivity|].
  split; [vm_compute; reflexivity|].
  split; [vm_compute; reflexivity|].
  split; [vm_compute; reflexivity|].
  split; [vm_compute; discriminate|].
  reflexivity.
Qed.

(** * Further properties of the drivers *)

Lemma for_each_cons {A S} (a : A) (l : list A) (body : A → S → Outcome S) (s : S) :
  for_each (a :: l) body s = body a s ≫= for_each l body.
Proof. reflexivity. Qed.

Lemma seq_prefix_length m (l1 : list nat) a l2 :
  seq 0 m = l1 ++ a :: l2 → a = length l1.
Proof.
  intros Hl. assert (seq 0 m !! length l1 = Some a) as Ha.
  { rewrite Hl, lookup_app_r, Nat.sub_diag by done. done. }
  apply lookup_seq in Ha. lia.
Qed.

(** ** FinalizeInternals *)

Section FinalizeInternals_properties.
Context {T : Type} {ST : Scalar T}.
Context (topology : MultibodyTreeTopology) (bodies : list Body).
Context (gravity : option (UniformGravityFieldElement (T := T))).

Lemma StronglySorted_filter {A} (R : relation A) (P : A → Prop)
    `{∀ x, Decision (P x)} (l : list A) :
  StronglySorted R l → StronglySorted R (filter P l).
Proof.
  induction 1 as [|x l Hs IH Hall]; [constructor|].
  rewrite filter_cons. case_decide; [|done]. constructor; [done|].
  apply Forall_forall. intros y Hy. apply list_elem_of_filter in Hy as [_ Hy].
  by apply (proj1 (Forall_forall _ _) Hall).
Qed.

Lemma StronglySorted_seq_lt j m : StronglySorted lt (seq j m).
Proof.
  revert j. induction m as [|m IH]; intros j; simpl; constructor; [done|].
  apply Forall_forall. intros k Hk. apply elem_of_seq in Hk. lia.
Qed.

(** X2.  The level lists that [FinalizeInternals] builds: there is one per
    level of the tree; the list of level [d] holds, in ascending order and
    once each, the nodes of level [d] other than the world.  The world is in
    no list, not even in that of level 0. *)
Theorem FinalizeInternals_level_lists tree :
  FinalizeInternals topology bodies gravity = Ok tree →
  topology_wf topology →
  length (body_node_levels_ tree) = topology_tree_height topology
  ∧ ∀ d l, body_node_levels_ tree !! d = Some l →
      StronglySorted lt l
      ∧ (world_index ∉ l)
      ∧ ∀ i, i ∈ l ↔ i ≠ world_index
                     ∧ ∃ t, body_nodes topology !! i = Some t ∧ level t = d.
Proof.
  intros Hfin Hwf.
  rewrite (body_node_levels_spec topology bodies gravity tree Hfin Hwf).
  split; [by rewrite length_fmap, length_seq|].
  intros d l Hl. rewrite list_lookup_fmap in Hl.
  destruct (seq 0 (topology_tree_height topology) !! d) as [d'|] eqn:Hd; [|done].
  apply lookup_seq in Hd as [-> _]. simpl in Hl. injection Hl as <-.
  split; [apply StronglySorted_filter, StronglySorted_seq_lt|].
  assert (∀ i, i ∈ nodes_of_level topology d ↔
            i ≠ world_index ∧ ∃ t, body_nodes topology !! i = Some t ∧ level t = d)
    as Hin.
  { intros i. rewrite elem_of_level_list. unfold world_index, node_level. split.
    - intros (H1 & Hn & Hlev).
      destruct (lookup_lt_is_Some_2 (body_nodes topology) i Hn) as [t Ht].
      rewrite Ht in Hlev. split; [lia|]. by exists t.
    - intros (H0 & t & Ht & Hlev). split; [lia|].
      split; [by eapply lookup_lt_Some|]. by rewrite Ht. }
  split; [|done]. intros H0. by apply Hin in H0 as [? _].
Qed.


(** X3.  The body nodes that [FinalizeInternals] builds: one per node of the
    topology, node [i] carrying the topology of node [i]; every node but the
    world has a mobilizer; and the child list of node [i] holds, in ascending
    order and once each, exactly the nodes whose parent is node [i]. *)
Theorem FinalizeInternals_body_nodes tree :
  FinalizeInternals topology bodies gravity = Ok tree →
  topology_wf topology →
  length (body_nodes_ tree) = length (body_nodes topology)
  ∧ ∀ i node, body_nodes_ tree !! i = Some node →
      body_nodes topology !! i = Some (get_topology node)
      ∧ has_mobilizer node = bool_decide (i ≠ world_index)
      ∧ children_ node
        = filter (λ c, parent_body_node <$> body_nodes topology !! c = Some i)
                 (seq 1 (length (body_nodes topology) - 1)).
Proof.
  intros Hfin Hwf.
  destruct (body_nodes_spec topology bodies gravity tree Hfin Hwf)
    as (_ & _ & Hlen & Hspec).
  split; [done|]. intros i node Hi.
  destruct (Hspec i node Hi) as (Ht & Hm & _). split; [done|]. split; [done|].
  clear Hspec Ht Hm. revert i node Hi.
  unfold FinalizeInternals in Hfin.
  destruct (is_valid topology); simpl in Hfin; [|discriminate].
  apply bind_Ok in Hfin as (levels & _ & Hrest).
  apply bind_Ok in Hrest as (nodes & Hnodes & Hrest). injection Hrest as <-.
  simpl in *.
  apply (for_each_partial (λ l1 (nodes : list BodyNode),
    length nodes = length l1
    ∧ ∀ i node, nodes !! i = Some node →
        children_ node
        = filter (λ c, parent_body_node <$> body_nodes topology !! c = Some i)
                 (seq 1 (length l1 - 1)))) in Hnodes.
  - destruct Hnodes as [Hlen' Hch]. intros i node Hi.
    rewrite (Hch i node Hi). unfold get_num_body_nodes. by rewrite length_seq.
  - split; [done|]. intros i node Hi. by rewrite lookup_nil in Hi.
  - intros l1 a l2 s s' Hl [Hlen' Hch] Hstep.
    pose proof (seq_prefix_length _ _ _ _ Hl) as ->.
    assert (length l1 ∈ seq 0 (get_num_body_nodes topology)) as Ha
      by (rewrite Hl; apply elem_of_app; right; left).
    apply elem_of_seq in Ha. unfold get_num_body_nodes in Ha.
    unfold CreateBodyNode, get_body_node in Hstep.
    apply bind_Ok in Hstep as (t & Ht & Hstep). apply at_unchecked_Ok in Ht.
    apply bind_Ok in Hstep as (? & _ & Hstep).
    rewrite length_app. simpl.
    (* the nodes before [length l1] do not have node [length l1] as parent *)
    assert (∀ i, filter (λ c, parent_body_node <$> body_nodes topology !! c = Some i)
                   (seq 1 (length l1 + 1 - 1))
                 = filter (λ c, parent_body_node <$> body_nodes topology !! c = Some i)
                     (seq 1 (length l1 - 1))
                   ++ (if decide (length l1 ≠ 0 ∧ parent_body_node t = i)
                       then [length l1] else [])) as Hsplit.
    { intros i. destruct (decide (length l1 = 0)) as [H0|H0].
      - rewrite decide_False by (intros [? _]; done). by rewrite H0.
      - replace (length l1 + 1 - 1) with (S (length l1 - 1)) by lia.
        rewrite seq_S, filter_app. f_equal.
        replace (1 + (length l1 - 1)) with (length l1) by lia.
        rewrite filter_cons, filter_nil, Ht. simpl.
        destruct (decide (parent_body_node t = i)) as [Hp|Hp].
        + rewrite decide_True by congruence. by rewrite decide_True.
        + rewrite decide_False by congruence. rewrite decide_False; [done|].
          by intros [_ ?]. }
    assert (filter (λ c, parent_body_node <$> body_nodes topology !! c
                         = Some (length l1)) (seq 1 (length l1 + 1 - 1)) = [])
      as Hnew.
    { apply list_eq. intros k. rewrite lookup_nil.
      destruct (_ !! k) as [c|] eqn:Hc; [|done].
      apply list_elem_of_lookup_2, list_elem_of_filter in Hc as [Hp Hc].
      apply elem_of_seq in Hc.
      destruct (body_nodes topology !! c) as [tc|] eqn:Htc; [|done].
      simpl in Hp. injection Hp as Hp.
      destruct (wf_parent topology Hwf c tc Htc) as (_ & Hlt & _); lia. }
    destruct (decide (body t = world_index)) as [Hworld|Hworld].
    + injection Hstep as <-. split; [rewrite !length_app; simpl; lia|].
      assert (length l1 = 0) as H0.
      { destruct (decide (length l1 = 0)) as [|Hne]; [done|].
        by destruct (wf_parent topology Hwf _ _ Ht Hne) as [? _]. }
      intros i node Hi. apply lookup_app_Some in Hi as [Hi|[Hge Hi]].
      * apply lookup_lt_Some in Hi. lia.
      * apply list_lookup_singleton_Some in Hi as [Hi <-].
        assert (i = length l1) as -> by lia. simpl. by rewrite Hnew.
    + apply bind_Ok in Hstep as (parent & Hparent & Hstep).
      apply at_unchecked_Ok in Hparent. injection Hstep as <-.
      split; [rewrite !length_app, length_insert; simpl; lia|].
      assert (length l1 ≠ 0) as Hne.
      { intros H0. rewrite H0 in Ht. by destruct (wf_world topology Hwf _ Ht) as [? _]. }
      intros i node Hi. apply lookup_app_Some in Hi as [Hi|[Hge Hi]].
      * rewrite Hsplit. destruct (decide (i = parent_body_node t)) as [->|Hnp].
        -- rewrite list_lookup_insert_eq in Hi by (by eapply lookup_lt_Some).
           injection Hi as <-. simpl. rewrite (Hch _ _ Hparent).
           by rewrite decide_True.
        -- rewrite list_lookup_insert_ne in Hi by done.
           rewrite (Hch _ _ Hi). rewrite decide_False, app_nil_r; [done|].
           intros [_ ?]. congruence.
      * rewrite length_insert in Hge, Hi.
        apply list_lookup_singleton_Some in Hi as [Hi <-].
        assert (i = length l1) as -> by lia. simpl. by rewrite Hnew.
Qed.

(** ** The order of the sweeps *)

(** X4.  On the tree that [FinalizeInternals] builds, a base-to-tip sweep
    (the loops of [CalcPositionKinematicsCache], [CalcVelocityKinematicsCache]
    and [CalcSpatialAccelerationsFromVdot]) hands the per-node step every
    node but the world exactly once, never the world, and each node only
    after its parent. *)
Theorem base_to_tip_sweep_order tree :
  FinalizeInternals topology bodies gravity = Ok tree →
  topology_wf topology →
  ∃ order,
    (∀ (S : Type) (body : nat → BodyNode → S → Outcome S) (s : S),
       sweep tree (base_to_tip tree) body s
       = for_each order
           (λ i s, node ← at_unchecked (body_nodes_ tree) i; body i node s) s)
    ∧ NoDup order
    ∧ (∀ i, i ∈ order ↔ i ≠ world_index ∧ i < length (body_nodes topology))
    ∧ ∀ l1 i l2 t, order = l1 ++ i :: l2 → body_nodes topology !! i = Some t →
        parent_body_node t = world_index ∨ parent_body_node t ∈ l1.
Proof.
  intros Hfin Hwf. exists (base_to_tip tree ≫= nodes_of_level topology).
  split; [|split; [|split]].
  - intros S body s. apply (sweep_flat topology bodies gravity tree Hfin Hwf).
    apply (base_to_tip_depths topology bodies gravity tree Hfin Hwf).
  - apply NoDup_order, NoDup_seq.
  - intros i. rewrite (elem_of_base_to_tip topology bodies gravity tree Hfin Hwf).
    unfold world_index. lia.
  - intros l1 i l2 t Ho Ht.
    destruct (base_to_tip_before topology bodies gravity tree Hfin Hwf _ _ _ Ho)
      as (H1 & Hn & _ & _ & Hbefore).
    destruct (wf_parent topology Hwf i t Ht) as (_ & Hlt & p & Hp & Hlev); [lia|].
    destruct (decide (parent_body_node t = world_index)) as [|Hne]; [by left|].
    right. apply Hbefore; [unfold world_index in Hne; lia|lia|].
    rewrite (lev_lookup topology _ _ Hp), (lev_lookup topology _ _ Ht). lia.
Qed.

(** X5.  On the tree that [FinalizeInternals] builds, the tip-to-base sweep
    of [CalcInverseDynamics], whose loop runs from the deepest level down to
    depth 0, hands the per-node step every node but the world exactly once,
    each node only after all its children, and never the world: no
    [F_BMo_W_array[world_index()]] is computed. *)
Theorem tip_to_base_sweep_order tree :
  FinalizeInternals topology bodies gravity = Ok tree →
  topology_wf topology →
  ∃ order,
    (∀ (S : Type) (body : nat → BodyNode → S → Outcome S) (s : S),
       sweep tree (tip_to_base tree) body s
       = for_each order
           (λ i s, node ← at_unchecked (body_nodes_ tree) i; body i node s) s)
    ∧ NoDup order
    ∧ (∀ i, i ∈ order ↔ i ≠ world_index ∧ i < length (body_nodes topology))
    ∧ ∀ l1 i l2 c tc, order = l1 ++ i :: l2 →
        body_nodes topology !! c = Some tc → c ≠ world_index →
        parent_body_node tc = i → c ∈ l1.
Proof.
  intros Hfin Hwf. exists (tip_to_base tree ≫= nodes_of_level topology).
  split; [|split; [|split]].
  - intros S body s. apply (sweep_flat topology bodies gravity tree Hfin Hwf).
    apply (tip_to_base_depths topology bodies gravity tree Hfin Hwf).
  - apply NoDup_order, NoDup_reverse_seq.
  - intros i. rewrite (elem_of_tip_to_base topology bodies gravity tree Hfin Hwf).
    unfold world_index. lia.
  - intros l1 i l2 c tc Ho Htc Hc Hparent.
    destruct (tip_to_base_before topology bodies gravity tree Hfin Hwf _ _ _ Ho)
      as (H1 & Hn & _ & _ & Hbefore).
    destruct (wf_parent topology Hwf c tc Htc Hc) as (_ & Hlt & p & Hp & Hlev).
    unfold world_index in Hc.
    apply Hbefore; [lia|by eapply lookup_lt_Some|].
    rewrite (lev_lookup topology _ _ Htc). rewrite Hparent in Hp.
    rewrite (lev_lookup topology _ _ Hp). lia.
Qed.

(** X6.  On the tree that [FinalizeInternals] builds, the loop of
    [CalcArticulatedBodyInertiaCache], which stops above depth 0, and the
    loop of [CalcInverseDynamics], which goes on to depth 0, are the same
    sweep: whatever the per-node step, they run it on the same nodes in the
    same order, since level 0 has no node to visit. *)
Theorem tip_to_base_sweeps_agree tree :
  FinalizeInternals topology bodies gravity = Ok tree →
  topology_wf topology →
  ∀ (S : Type) (body : nat → BodyNode → S → Outcome S) (s : S),
    sweep tree (tip_to_base_skipping_world tree) body s
    = sweep tree (tip_to_base tree) body s.
Proof.
  intros Hfin Hwf S body s.
  destruct (body_nodes_spec topology bodies gravity tree Hfin Hwf) as (Htopo & _).
  rewrite !(sweep_flat topology bodies gravity tree Hfin Hwf).
  - f_equal. unfold tip_to_base, tip_to_base_skipping_world, tree_height.
    rewrite Htopo.
    pose proof (n_pos topology Hwf) as Hn.
    destruct (lookup_lt_is_Some_2 (body_nodes topology) 0 Hn) as [w Hw].
    pose proof (wf_level_lt topology Hwf 0 w Hw) as Hh.
    destruct (topology_tree_height topology) as [|h]; [lia|].
    simpl. rewrite Nat.sub_0_r, reverse_cons, bind_app. simpl.
    assert (nodes_of_level topology 0 = []) as ->; [|by rewrite !app_nil_r].
    apply list_eq. intros k. rewrite lookup_nil.
    destruct (_ !! k) as [i|] eqn:Hi; [|done].
    apply list_elem_of_lookup_2, elem_of_level_list in Hi as (H1 & Hlt & Hlev).
    pose proof (lev_pos topology Hwf i H1 Hlt). lia.
  - apply (tip_to_base_depths topology bodies gravity tree Hfin Hwf).
  - intros d Hd. unfold tip_to_base_skipping_world in Hd.
    apply elem_of_reverse, elem_of_seq in Hd. unfold tree_height in Hd.
    rewrite Htopo in Hd. lia.
Qed.

End FinalizeInternals_properties.

(** ** Contexts of another system *)

Section Foreign_context.
Context {T : Type} {ST : Scalar T} {impl : BodyNodeImpl (T := T)}.
Implicit Types (tree : MultibodyTree (T := T)).
Implicit Types (pc : PositionKinematicsCache (T := T)).
Implicit Types (vc : VelocityKinematicsCache (T := T)).

(** X7.  Handed a context that is not a [MultibodyTreeContext], every sweep
    driver whose argument checks pass throws [std::bad_cast], which a caller
    can catch, before it computes anything: the position, velocity and
    acceleration sweeps, the across-node Jacobians, inverse dynamics, the
    articulated-body sweep and the two velocity maps. *)
Theorem foreign_context_is_bad_cast tree (elements : MultibodyTreeElements) pc vc :
  CalcPositionKinematicsCache tree OtherContext (Some pc) = Thrown bad_cast
  ∧ CalcVelocityKinematicsCache tree OtherContext pc (Some vc) = Thrown bad_cast
  ∧ (∀ H_PB_W_cache : list Vector6,
       length H_PB_W_cache = num_velocities tree →
       CalcAcrossNodeGeometricJacobianExpressedInWorld tree OtherContext pc
         (Some H_PB_W_cache) = Thrown bad_cast)
  ∧ (∀ vdot (A : list SpatialAcceleration),
       length A = num_bodies tree → length vdot = num_velocities tree →
       CalcSpatialAccelerationsFromVdot tree OtherContext pc vc vdot (Some A)
       = Thrown bad_cast)
  ∧ (∀ vdot Fapp tauapp (A : list SpatialAcceleration) (F : list SpatialForce)
       (tau : list T),
       length vdot = num_velocities tree →
       length (read_input Fapp F) = num_bodies tree
       ∨ length (read_input Fapp F) = 0 →
       length (read_input tauapp tau) = num_velocities tree
       ∨ length (read_input tauapp tau) = 0 →
       length A = num_bodies tree → length F = num_bodies tree →
       length tau = num_velocities tree →
       CalcInverseDynamics tree OtherContext pc vc vdot Fapp tauapp
         (Some A) (Some F) (Some tau) = Thrown bad_cast)
  ∧ (∀ ABC step (abc : ABC),
       CalcArticulatedBodyInertiaCache step tree OtherContext pc (Some abc)
       = Thrown bad_cast)
  ∧ (∀ qdot v : list T,
       length qdot = num_positions tree → length v = num_velocities tree →
       MapQDotToVelocity tree elements OtherContext qdot (Some v) = Thrown bad_cast
       ∧ MapVelocityToQDot tree elements OtherContext v (Some qdot)
         = Thrown bad_cast).
Proof.
  repeat split; intros;
    unfold CalcAcrossNodeGeometricJacobianExpressedInWorld,
      CalcSpatialAccelerationsFromVdot, CalcInverseDynamics, MapQDotToVelocity,
      MapVelocityToQDot; simpl;
    rewrite ?bool_decide_eq_true_2 by done; done.
Qed.

End Foreign_context.

(** ** The frame Jacobian *)

Section Frame_Jacobian.
Context {T : Type} {ST : Scalar T} {impl : BodyNodeImpl (T := T)}.
Implicit Types (tree : MultibodyTree (T := T)) (M J : MatrixX (T := T)).
Implicit Types (B : list (list T)).

Lemma set_block_mcols row col B M : mcols (set_block row col B M) = mcols M.
Proof. unfold mcols, set_block. simpl. by rewrite length_imap. Qed.

Lemma set_block_lookup_out row col B M k :
  k < col ∨ col + length B ≤ k →
  mcolumns (set_block row col B M) !! k = mcolumns M !! k.
Proof.
  intros Hk. unfold set_block. simpl. rewrite list_lookup_imap.
  destruct (mcolumns M !! k) as [c|]; simpl; [|done]. f_equal.
  case_decide; [|done]. rewrite lookup_ge_None_2 by lia. done.
Qed.

Lemma set_block_column_lengths row col B M n :
  Forall (λ c, length c = n) (mcolumns M) →
  Forall (λ b, row + length b ≤ n) B →
  Forall (λ c, length c = n) (mcolumns (set_block row col B M)).
Proof.
  intros HM HB. apply Forall_lookup. intros k c Hc.
  unfold set_block in Hc. simpl in Hc. rewrite list_lookup_imap in Hc.
  destruct (mcolumns M !! k) as [c0|] eqn:Hc0; [|done]. simpl in Hc.
  injection Hc as <-.
  pose proof (proj1 (Forall_lookup _ _) HM _ _ Hc0) as Hlen. simpl in Hlen.
  case_decide; [|done].
  destruct (B !! (k - col)) as [b|] eqn:Hb; simpl; [|done].
  pose proof (proj1 (Forall_lookup _ _) HB _ _ Hb) as Hb'. simpl in Hb'.
  rewrite length_set_segment; lia.
Qed.

Lemma setZero_is_Zero M : setZero M = MatrixX_Zero (mrows M) (mcols M).
Proof. reflexivity. Qed.

(** X8.  For a frame attached to the world body,
    [CalcFrameJacobianExpressedInWorld] returns zero Jacobians: every matrix
    it was asked for comes back as the zero matrix of the checked size,
    whatever it held and whatever the context is; neither the context nor
    the kinematics is looked at. *)
Theorem CalcFrameJacobianExpressedInWorld_world_frame tree context frame_F
    p_WQ_list (Jw_WFq Jv_WFq : option MatrixX) :
  body_index (frame_body frame_F) = world_index →
  is_Some Jw_WFq ∨ is_Some Jv_WFq →
  (∀ Jw, Jw_WFq = Some Jw → mrows Jw = 3 ∧ mcols Jw = num_velocities tree) →
  (∀ Jv, Jv_WFq = Some Jv →
     mrows Jv = 3 * mcols p_WQ_list ∧ mcols Jv = num_velocities tree) →
  CalcFrameJacobianExpressedInWorld tree context frame_F p_WQ_list Jw_WFq Jv_WFq
  = Ok ((λ _, MatrixX_Zero 3 (num_velocities tree)) <$> Jw_WFq,
        (λ _, MatrixX_Zero (3 * mcols p_WQ_list) (num_velocities tree)) <$> Jv_WFq).
Proof.
  intros Hworld Hsome Hw Hv. unfold CalcFrameJacobianExpressedInWorld.
  rewrite bool_decide_eq_true_2 by done. simpl.
  rewrite decide_True by done.
  destruct Jw_WFq as [Jw|]; simpl.
  - destruct (Hw Jw eq_refl) as [Hr Hc].
    rewrite !bool_decide_eq_true_2 by done. simpl.
    destruct Jv_WFq as [Jv|]; simpl.
    + destruct (Hv Jv eq_refl) as [Hr' Hc'].
      rewrite !bool_decide_eq_true_2 by done. simpl.
      by rewrite !setZero_is_Zero, Hr, Hc, Hr', Hc'.
    + by rewrite !setZero_is_Zero, Hr, Hc.
  - destruct Jv_WFq as [Jv|]; simpl.
    + destruct (Hv Jv eq_refl) as [Hr' Hc'].
      rewrite !bool_decide_eq_true_2 by done. simpl.
      by rewrite !setZero_is_Zero, Hr', Hc'.
    + destruct Hsome as [[? ?]|[? ?]]; discriminate.
Qed.

(** A Jacobian of the right size whose columns, outside the velocity slices
    of the nodes on the kinematic path, are zero. *)
Lemma setZero_shape M r n :
  mrows M = r → mcols M = n →
  mrows (setZero M) = r ∧ mcols (setZero M) = n
  ∧ Forall (λ c, length c = r) (mcolumns (setZero M))
  ∧ ∀ k, k < n → mcolumns (setZero M) !! k = Some (replicate r Tzero).
Proof.
  intros <- <-. unfold setZero, mcols. simpl. rewrite length_replicate.
  split; [done|]. split; [done|]. split.
  - apply Forall_forall. intros c Hc. apply elem_of_replicate in Hc as [-> _].
    by rewrite length_replicate.
  - intros k Hk. by apply lookup_replicate_2.
Qed.

Lemma set_block_shape row col B M r n (keep : nat → Prop) :
  (mrows M = r ∧ mcols M = n ∧ Forall (λ c, length c = r) (mcolumns M)
   ∧ ∀ k, keep k → mcolumns M !! k = Some (replicate r Tzero)) →
  Forall (λ b, row + length b ≤ r) B →
  (∀ k, keep k → k < col ∨ col + length B ≤ k) →
  mrows (set_block row col B M) = r ∧ mcols (set_block row col B M) = n
  ∧ Forall (λ c, length c = r) (mcolumns (set_block row col B M))
  ∧ ∀ k, keep k → mcolumns (set_block row col B M) !! k = Some (replicate r Tzero).
Proof.
  intros (Hr & Hn & Hlen & Hkeep) HB Hout.
  split; [done|]. split; [by rewrite set_block_mcols|].
  split; [by apply set_block_column_lengths|].
  intros k Hk. rewrite set_block_lookup_out by auto. auto.
Qed.

Lemma CalcFrameJacobianExpressedInWorld_result tree context frame_F p_WQ_list
    (Jw_WFq Jv_WFq Jw Jv : option MatrixX) :
  CalcFrameJacobianExpressedInWorld tree context frame_F p_WQ_list Jw_WFq Jv_WFq
  = Ok (Jw, Jv) →
  ∀ keep : nat → Prop,
  (∀ k, keep k → k < num_velocities tree) →
  (body_index (frame_body frame_F) ≠ world_index →
   ∃ path,
     GetKinematicPathToWorld (topology_ tree) (node_index (frame_body frame_F))
     = Ok path
     ∧ ∀ k i node, keep k → i ∈ drop 1 path → body_nodes_ tree !! i = Some node →
         ¬ owns (get_topology node) k) →
  (is_Some Jw ↔ is_Some Jw_WFq) ∧ (is_Some Jv ↔ is_Some Jv_WFq)
  ∧ (∀ M, Jw = Some M →
       mrows M = 3 ∧ mcols M = num_velocities tree
       ∧ Forall (λ c, length c = 3) (mcolumns M)
       ∧ ∀ k, keep k → mcolumns M !! k = Some (replicate 3 Tzero))
  ∧ (∀ M, Jv = Some M →
       mrows M = 3 * mcols p_WQ_list ∧ mcols M = num_velocities tree
       ∧ Forall (λ c, length c = 3 * mcols p_WQ_list) (mcolumns M)
       ∧ ∀ k, keep k →
           mcolumns M !! k = Some (replicate (3 * mcols p_WQ_list) Tzero)).
Proof.
  unfold CalcFrameJacobianExpressedInWorld. intros Hrun keep Hkeep Hpath'.
  apply bind_Ok in Hrun as (? & Hsome & Hrun).
  apply bind_Ok in Hrun as (? & HwOK & Hrun).
  apply bind_Ok in Hrun as (? & HvOK & Hrun).
  set (nv := num_velocities tree) in *. set (np := mcols p_WQ_list) in *.
  (* the matrices after [setZero] *)
  assert (∀ M0, Jw_WFq = Some M0 →
            mrows (setZero M0) = 3 ∧ mcols (setZero M0) = nv
            ∧ Forall (λ c, length c = 3) (mcolumns (setZero M0))
            ∧ ∀ k, keep k → mcolumns (setZero M0) !! k = Some (replicate 3 Tzero))
    as Hw0.
  { intros M0 ->. simpl in HwOK.
    apply bind_Ok in HwOK as (? & Hr & Hc).
    apply DRAKE_THROW_UNLESS_Ok, bool_decide_eq_true_1 in Hr, Hc.
    destruct (setZero_shape M0 3 nv Hr Hc) as (? & ? & ? & Hz). auto 10. }
  assert (∀ M0, Jv_WFq = Some M0 →
            mrows (setZero M0) = 3 * np ∧ mcols (setZero M0) = nv
            ∧ Forall (λ c, length c = 3 * np) (mcolumns (setZero M0))
            ∧ ∀ k, keep k →
                mcolumns (setZero M0) !! k = Some (replicate (3 * np) Tzero))
    as Hv0.
  { intros M0 ->. simpl in HvOK.
    apply bind_Ok in HvOK as (? & Hr & Hc).
    apply DRAKE_THROW_UNLESS_Ok, bool_decide_eq_true_1 in Hr, Hc.
    destruct (setZero_shape M0 (3 * np) nv Hr Hc) as (? & ? & ? & Hz). auto 10. }
  clear HwOK HvOK Hsome.
  case_decide as Hworld.
  { injection Hrun as <- <-. rewrite !fmap_is_Some.
    split; [done|]. split; [done|]. split.
    - intros M HM. apply fmap_Some in HM as (M0 & -> & ->). by apply Hw0.
    - intros M HM. apply fmap_Some in HM as (M0 & -> & ->). by apply Hv0. }
  destruct (Hpath' Hworld) as (path & Hpath & Hoff). clear Hpath'.
  rewrite Hpath in Hrun. simpl in Hrun.
  apply bind_Ok in Hrun as (pc & Hpc & Hrun).
  apply bind_Ok in Hrun as (Hc & HHc & Hrun).
  apply (for_each_partial (λ _ (s : option MatrixX * option MatrixX),
    (is_Some s.1 ↔ is_Some Jw_WFq) ∧ (is_Some s.2 ↔ is_Some Jv_WFq)
    ∧ (∀ M, s.1 = Some M →
         mrows M = 3 ∧ mcols M = nv ∧ Forall (λ c, length c = 3) (mcolumns M)
         ∧ ∀ k, keep k → mcolumns M !! k = Some (replicate 3 Tzero))
    ∧ (∀ M, s.2 = Some M →
         mrows M = 3 * np ∧ mcols M = nv
         ∧ Forall (λ c, length c = 3 * np) (mcolumns M)
         ∧ ∀ k, keep k → mcolumns M !! k = Some (replicate (3 * np) Tzero))))
    in Hrun; [exact Hrun| |].
  - simpl. rewrite !fmap_is_Some. split; [done|]. split; [done|]. split.
    + intros M HM. apply fmap_Some in HM as (M0 & -> & ->). by apply Hw0.
    + intros M HM. apply fmap_Some in HM as (M0 & -> & ->). by apply Hv0.
  - intros l1 ilevel l2 [Jw1 Jv1] [Jw2 Jv2] Hl (HsW & HsV & HW & HV) Hstep.
    simpl in HsW, HsV, HW, HV.
    assert (ilevel ∈ seq 1 (length path - 1)) as Hil
      by (rewrite Hl; apply elem_of_app; right; left).
    apply elem_of_seq in Hil.
    apply bind_Ok in Hstep as (idx & Hidx & Hstep). apply at_unchecked_Ok in Hidx.
    apply bind_Ok in Hstep as (node & Hnode & Hstep). apply at_unchecked_Ok in Hnode.
    apply bind_Ok in Hstep as (H_PB_W & HH & Hstep).
    unfold GetJacobianFromArray in HH. apply segment_of_Ok in HH as [HHr ->].
    apply bind_Ok in Hstep as (Jv3 & HJv & Hstep). injection Hstep as <- <-.
    set (start := mobilizer_velocities_start_in_v (get_topology node)) in *.
    set (nmv := num_mobilizer_velocities (get_topology node)) in *.
    assert (idx ∈ drop 1 path) as Hin.
    { apply (list_elem_of_lookup_2 _ (ilevel - 1)). rewrite lookup_drop.
      replace (1 + (ilevel - 1)) with ilevel by lia. done. }
    assert (∀ k, keep k → k < start ∨ start + nmv ≤ k) as Hout.
    { intros k Hk. pose proof (Hoff k idx node Hk Hin Hnode) as Hno.
      unfold owns in Hno. fold start nmv in Hno. lia. }
    simpl. split; [by rewrite fmap_is_Some|]. split; [|split].
    + destruct Jv1 as [Jv1|]; simpl in HJv.
      * apply bind_Ok in HJv as (? & _ & HJv).
        apply bind_Ok in HJv as (? & _ & HJv). injection HJv as <-.
        rewrite <- HsV. split; eauto.
      * injection HJv as <-. done.
    + intros M HM. apply fmap_Some in HM as (M1 & -> & ->).
      apply set_block_shape; [by apply HW| |].
      * apply Forall_forall. intros b Hb.
        apply list_elem_of_fmap in Hb as (h & -> & _). simpl. lia.
      * intros k Hk. rewrite length_fmap, length_segment by done. by apply Hout.
    + intros M HM. subst Jv3. destruct Jv1 as [Jv1|]; simpl in HJv; [|done].
      apply bind_Ok in HJv as (X_WBi & _ & HJv).
      apply bind_Ok in HJv as (Jv4 & Hpoints & HJv). injection HJv as ->.
      apply (for_each_partial (λ _ (Jv0 : MatrixX),
        mrows Jv0 = 3 * np ∧ mcols Jv0 = nv
        ∧ Forall (λ c, length c = 3 * np) (mcolumns Jv0)
        ∧ ∀ k, keep k → mcolumns Jv0 !! k = Some (replicate (3 * np) Tzero)))
        in Hpoints; [exact Hpoints|by apply HV|].
      intros l1' ipoint l2' Jv0 Jv0' Hl' HJv0 Hstep.
      assert (ipoint ∈ seq 0 np) as Hip
        by (rewrite Hl'; apply elem_of_app; right; left).
      apply elem_of_seq in Hip.
      apply bind_Ok in Hstep as (p_WQ & _ & Hstep). injection Hstep as <-.
      apply set_block_shape; [done| |].
      * apply Forall_forall. intros b Hb.
        apply list_elem_of_fmap in Hb as (h & -> & _). simpl. lia.
      * intros k Hk. rewrite length_fmap, length_segment by done. by apply Hout.
Qed.

(** X9.  When [CalcFrameJacobianExpressedInWorld] returns, it returns the
    Jacobians it was asked for and no other, each a matrix of the size the
    argument checks required: three rows for the angular part and three rows
    per point for the translational part, a column per generalized velocity,
    every column complete. *)
Theorem CalcFrameJacobianExpressedInWorld_keeps_shape tree context frame_F
    p_WQ_list (Jw_WFq Jv_WFq Jw Jv : option MatrixX) :
  CalcFrameJacobianExpressedInWorld tree context frame_F p_WQ_list Jw_WFq Jv_WFq
  = Ok (Jw, Jv) →
  (is_Some Jw ↔ is_Some Jw_WFq) ∧ (is_Some Jv ↔ is_Some Jv_WFq)
  ∧ (∀ M, Jw = Some M →
       mrows M = 3 ∧ mcols M = num_velocities tree
       ∧ Forall (λ c, length c = 3) (mcolumns M))
  ∧ (∀ M, Jv = Some M →
       mrows M = 3 * mcols p_WQ_list ∧ mcols M = num_velocities tree
       ∧ Forall (λ c, length c = 3 * mcols p_WQ_list) (mcolumns M)).
Proof.
  intros Hrun.
  destruct (CalcFrameJacobianExpressedInWorld_result _ _ _ _ _ _ _ _ Hrun
              (λ _, False)) as (HsW & HsV & HW & HV); [done| |].
  - intros Hworld. unfold CalcFrameJacobianExpressedInWorld in Hrun.
    apply bind_Ok in Hrun as (? & _ & Hrun).
    apply bind_Ok in Hrun as (? & _ & Hrun).
    apply bind_Ok in Hrun as (? & _ & Hrun).
    rewrite decide_False in Hrun by done.
    apply bind_Ok in Hrun as (path & Hpath & _). exists path. done.
  - split; [done|]. split; [done|]. split.
    + intros M HM. destruct (HW M HM) as (? & ? & ? & _). done.
    + intros M HM. destruct (HV M HM) as (? & ? & ? & _). done.
Qed.

(** X10.  The Jacobians that [CalcFrameJacobianExpressedInWorld] returns are
    zero outside the kinematic path: the column of a generalized velocity
    that belongs to no node on the path from the world to the frame's body
    is zero, in the angular and in the translational Jacobian. *)
Theorem CalcFrameJacobianExpressedInWorld_zero_off_path tree context frame_F
    p_WQ_list (Jw_WFq Jv_WFq Jw Jv : option MatrixX) path k :
  CalcFrameJacobianExpressedInWorld tree context frame_F p_WQ_list Jw_WFq Jv_WFq
  = Ok (Jw, Jv) →
  GetKinematicPathToWorld (topology_ tree) (node_index (frame_body frame_F))
  = Ok path →
  k < num_velocities tree →
  (∀ i node, i ∈ drop 1 path → body_nodes_ tree !! i = Some node →
     ¬ owns (get_topology node) k) →
  (∀ M, Jw = Some M → mcolumns M !! k = Some (replicate 3 Tzero))
  ∧ (∀ M, Jv = Some M →
       mcolumns M !! k = Some (replicate (3 * mcols p_WQ_list) Tzero)).
Proof.
  intros Hrun Hpath Hk Hoff.
  destruct (CalcFrameJacobianExpressedInWorld_result _ _ _ _ _ _ _ _ Hrun
              (λ k', k' = k)) as (_ & _ & HW & HV).
  - by intros ? ->.
  - intros _. exists path. split; [done|]. intros ? i node -> Hi Hnode.
    by apply (Hoff i node).
  - split.
    + intros M HM. destruct (HW M HM) as (_ & _ & _ & Hz). by apply Hz.
    + intros M HM. destruct (HV M HM) as (_ & _ & _ & Hz). by apply Hz.
Qed.

End Frame_Jacobian.

(** ** The actuator selector matrices *)

Section Actuator_selector.
Context {T : Type} {ST : Scalar T}.
Implicit Types (tree : MultibodyTree (T := T)).
Implicit Types (elements : MultibodyTreeElements (T := T)).

Lemma lookup_VectorX_Unit n j i :
  i < n → VectorX_Unit (T := T) n j !! i = Some (if decide (i = j) then Tone else Tzero).
Proof.
  intros Hi. unfold VectorX_Unit. rewrite list_lookup_fmap, lookup_seq_lt by done.
  done.
Qed.

Lemma length_VectorX_Unit n j : length (VectorX_Unit (T := T) n j) = n.
Proof. unfold VectorX_Unit. by rewrite length_fmap, length_seq. Qed.

Lemma VectorX_Unit_insert n j :
  j < n → <[j := Tone]> (VectorX_Zero (T := T) n) = VectorX_Unit n j.
Proof.
  intros Hj. apply list_eq. intros i. unfold VectorX_Zero.
  destruct (decide (i < n)) as [Hi|Hi].
  - rewrite lookup_VectorX_Unit by done. destruct (decide (i = j)) as [->|Hne].
    + by rewrite list_lookup_insert_eq by (by rewrite length_replicate).
    + rewrite list_lookup_insert_ne by done. by apply lookup_replicate_2.
  - rewrite !lookup_ge_None_2; [done| |].
    + rewrite length_VectorX_Unit. lia.
    + rewrite length_insert, length_replicate. lia.
Qed.

Lemma actuator_selector_loop nd (done_ todo : list nat) :
  Forall (λ a, a < nd) todo →
  for_each todo
    (λ actuator_index '(Su, user_index),
       Su ← assign_coeff actuator_index user_index Tone Su;
       Ok (Su, S user_index))
    (mkMatrixX nd ((VectorX_Unit nd <$> done_)
                   ++ replicate (length todo) (VectorX_Zero nd)),
     length done_)
  = Ok (mkMatrixX nd (VectorX_Unit (T := T) nd <$> (done_ ++ todo)),
        length (done_ ++ todo)).
Proof.
  revert done_. induction todo as [|a todo IH]; intros done_ Hall.
  - simpl. by rewrite !app_nil_r.
  - apply Forall_cons in Hall as [Ha Hall]. simpl.
    unfold assign_coeff. simpl. unfold mcols. simpl.
    rewrite decide_True.
    2:{ split; [done|]. rewrite length_app, length_fmap. simpl. lia. }
    simpl.
    replace (alter _ _ _)
      with ((VectorX_Unit nd <$> (done_ ++ [a]))
            ++ replicate (length todo) (VectorX_Zero (T := T) nd)).
    + replace (S (length done_)) with (length (done_ ++ [a]))
        by (rewrite length_app; simpl; lia).
      rewrite IH by done. by rewrite <- app_assoc.
    + rewrite fmap_app, <- app_assoc. simpl.
      apply list_eq. intros i.
      destruct (decide (i = length done_)) as [->|Hne].
      * rewrite list_lookup_alter_eq.
        rewrite !lookup_app_r by (rewrite length_fmap; lia).
        rewrite length_fmap, Nat.sub_diag. simpl. f_equal.
        symmetry. by apply VectorX_Unit_insert.
      * rewrite list_lookup_alter_ne by done.
        destruct (decide (i < length done_)) as [Hlt|Hge].
        -- by rewrite !lookup_app_l by (rewrite length_fmap; lia).
        -- rewrite !lookup_app_r by (rewrite length_fmap; lia).
           rewrite length_fmap.
           destruct (i - length done_) as [|m] eqn:Hm; [lia|]. done.
Qed.

(** X11.  [MakeActuatorSelectorMatrix], handed actuator indexes, throws
    [std::logic_error] before [Finalize()]; after it, for indexes below the
    number of actuated degrees of freedom, it returns the matrix with a row
    per actuated degree of freedom and a column per selected actuator whose
    [k]-th column is the unit vector of the [k]-th selected actuator: [Su]
    times the selected actuation puts entry [k] at that actuator's place.
    An actuator may be selected twice. *)
Theorem MakeActuatorSelectorMatrix_unit_columns tree elements
    (user_to_actuator_index_map : list nat) :
  (topology_is_valid tree = false →
   MakeActuatorSelectorMatrix tree elements user_to_actuator_index_map
   = Thrown logic_error)
  ∧ (topology_is_valid tree = true →
     Forall (λ a, a < num_actuated_dofs elements) user_to_actuator_index_map →
     MakeActuatorSelectorMatrix tree elements user_to_actuator_index_map
     = Ok (mkMatrixX (num_actuated_dofs elements)
             (VectorX_Unit (num_actuated_dofs elements)
                <$> user_to_actuator_index_map))).
Proof.
  unfold MakeActuatorSelectorMatrix, ThrowIfNotFinalized. split.
  - by intros ->.
  - intros -> Hall. simpl. unfold MatrixX_Zero.
    pose proof (actuator_selector_loop (num_actuated_dofs elements) []
                  user_to_actuator_index_map Hall) as Hloop.
    simpl in Hloop. rewrite Hloop. done.
Qed.

(** The table from joints to actuators that the overload taking joint
    indexes fills first: the entry of a joint is the last actuator acting on
    it, and is not valid when no actuator does. *)
Lemma joint_to_actuator_index_loop elements :
  Forall (λ actuator, actuator_joint_index actuator < num_joints elements)
         (owned_actuators_ elements) →
  ∃ table : list (option nat),
    for_each (seq 0 (num_actuators elements))
      (λ actuator_index joint_to_actuator_index,
         actuator ← get_joint_actuator elements actuator_index;
         assign_unchecked joint_to_actuator_index (actuator_joint_index actuator)
           (Some actuator_index))
      (replicate (num_joints elements) None) = Ok table
    ∧ length table = num_joints elements
    ∧ ∀ j, j < num_joints elements →
        match table !! j with
        | Some (Some a) =>
            (∃ actuator, owned_actuators_ elements !! a = Some actuator
                         ∧ actuator_joint_index actuator = j)
            ∧ ∀ a' actuator', a < a' →
                owned_actuators_ elements !! a' = Some actuator' →
                actuator_joint_index actuator' ≠ j
        | Some None =>
            ∀ a' actuator', owned_actuators_ elements !! a' = Some actuator' →
                            actuator_joint_index actuator' ≠ j
        | None => False
        end.
Proof.
  intros Hrange. unfold num_actuators.
  destruct (for_each_total (A := nat)
    (λ l1 (table : list (option nat)),
       length table = num_joints elements
       ∧ ∀ j, j < num_joints elements →
           match table !! j with
           | Some (Some a) =>
               (∃ actuator, owned_actuators_ elements !! a = Some actuator
                            ∧ actuator_joint_index actuator = j)
               ∧ ∀ a' actuator', a < a' → a' < length l1 →
                   owned_actuators_ elements !! a' = Some actuator' →
                   actuator_joint_index actuator' ≠ j
           | Some None =>
               ∀ a' actuator', a' < length l1 →
                 owned_actuators_ elements !! a' = Some actuator' →
                 actuator_joint_index actuator' ≠ j
           | None => False
           end)
    (seq 0 (length (owned_actuators_ elements)))
    (λ actuator_index joint_to_actuator_index,
       actuator ← get_joint_actuator elements actuator_index;
       assign_unchecked joint_to_actuator_index (actuator_joint_index actuator)
         (Some actuator_index))
    (replicate (num_joints elements) None)) as (table & Hrun & Hlen & Htable).
  - split; [by rewrite length_replicate|]. intros j Hj.
    rewrite lookup_replicate_2 by done. simpl. intros; lia.
  - intros l1 a l2 table Hl [Hlen Htable].
    pose proof (seq_prefix_length _ _ _ _ Hl) as ->.
    assert (length l1 ∈ seq 0 (length (owned_actuators_ elements))) as Ha
      by (rewrite Hl; apply elem_of_app; right; left).
    apply elem_of_seq in Ha.
    destruct (lookup_lt_is_Some_2 (owned_actuators_ elements) (length l1))
      as [actuator Hact]; [lia|].
    pose proof (proj1 (Forall_lookup _ _) Hrange _ _ Hact) as Hj. simpl in Hj.
    eexists. split.
    { unfold get_joint_actuator. rewrite (at_unchecked_lookup _ _ _ Hact). simpl.
      unfold assign_unchecked. rewrite decide_True by lia. reflexivity. }
    split; [by rewrite length_insert|].
    intros j Hjn. rewrite length_app. simpl.
    destruct (decide (j = actuator_joint_index actuator)) as [->|Hne].
    + rewrite list_lookup_insert_eq by lia. split; [by exists actuator|].
      intros a' actuator' H1 H2. lia.
    + rewrite list_lookup_insert_ne by done. specialize (Htable j Hjn).
      destruct (table !! j) as [[a0|]|]; [| |done].
      * destruct Htable as [Hex Hlast]. split; [done|].
        intros a' actuator' H1 H2 Ha'.
        destruct (decide (a' = length l1)) as [->|Hne'].
        -- rewrite Hact in Ha'. injection Ha' as <-. done.
        -- apply (Hlast a' actuator'); [done|lia|done].
      * intros a' actuator' H2 Ha'.
        destruct (decide (a' = length l1)) as [->|Hne'].
        -- rewrite Hact in Ha'. injection Ha' as <-. done.
        -- apply (Htable a' actuator'); [lia|done].
  - exists table. split; [done|]. split; [done|]. intros j Hj.
    specialize (Htable j Hj). rewrite length_seq in Htable.
    destruct (table !! j) as [[a0|]|]; [| |done].
    + destruct Htable as [Hex Hlast]. split; [done|].
      intros a' actuator' H1 Ha'. apply (Hlast a' actuator'); [done| |done].
      by eapply lookup_lt_Some.
    + intros a' actuator' Ha'. apply (Htable a' actuator'); [|done].
      by eapply lookup_lt_Some.
Qed.

(** What a valid table makes of the joints handed in. *)
Lemma user_to_actuator_loop elements (table : list (option nat))
    (joint_indexes : list nat) :
  Forall (λ j, j < num_joints elements) joint_indexes →
  (∀ j, j < num_joints elements →
     match table !! j with
     | Some (Some a) =>
         (∃ actuator, owned_actuators_ elements !! a = Some actuator
                      ∧ actuator_joint_index actuator = j)
         ∧ ∀ a' actuator', a < a' →
             owned_actuators_ elements !! a' = Some actuator' →
             actuator_joint_index actuator' ≠ j
     | Some None =>
         ∀ a' actuator', owned_actuators_ elements !! a' = Some actuator' →
                         actuator_joint_index actuator' ≠ j
     | None => False
     end) →
  ∀ acc,
    ((∃ j, j ∈ joint_indexes
           ∧ ∀ actuator, actuator ∈ owned_actuators_ elements →
                         actuator_joint_index actuator ≠ j) →
     for_each joint_indexes
       (λ joint_index user_to_actuator_index_map,
          _ ← get_joint elements joint_index;
          actuator_index ← at_unchecked table joint_index;
          match actuator_index with
          | None => Thrown logic_error
          | Some actuator_index =>
              Ok (user_to_actuator_index_map ++ [actuator_index])
          end) acc = Thrown logic_error)
    ∧ ∀ actuator_indexes,
        Forall2 (λ j a,
                   (∃ actuator, owned_actuators_ elements !! a = Some actuator
                                ∧ actuator_joint_index actuator = j)
                   ∧ ∀ a' actuator', a < a' →
                       owned_actuators_ elements !! a' = Some actuator' →
                       actuator_joint_index actuator' ≠ j)
          joint_indexes actuator_indexes →
        for_each joint_indexes
          (λ joint_index user_to_actuator_index_map,
             _ ← get_joint elements joint_index;
             actuator_index ← at_unchecked table joint_index;
             match actuator_index with
             | None => Thrown logic_error
             | Some actuator_index =>
                 Ok (user_to_actuator_index_map ++ [actuator_index])
             end) acc = Ok (acc ++ actuator_indexes).
Proof.
  intros Hmap Htable.
  induction joint_indexes as [|j0 l IH]; intros acc.
  { split.
    - intros (j & Hj & _). by apply elem_of_nil in Hj.
    - intros acts Hacts. apply Forall2_nil_inv_l in Hacts as ->.
      by rewrite app_nil_r. }
  apply Forall_cons in Hmap as [Hj0 Hmap]. specialize (IH Hmap).
  destruct (lookup_lt_is_Some_2 (owned_joints_ elements) j0 Hj0) as [joint Hjoint].
  assert (get_joint elements j0 = Ok joint) as Hget
    by (by apply at_unchecked_lookup).
  specialize (Htable j0 Hj0).
  destruct (table !! j0) as [o|] eqn:Ho; [|done].
  rewrite for_each_cons, Hget, (at_unchecked_lookup _ _ _ Ho).
  destruct o as [a0|]; simpl.
  - destruct Htable as [(actuator0 & Ha0 & Hja0) Hlast0]. split.
    + intros (j & Hj & Hnone). apply elem_of_cons in Hj as [->|Hj].
      * destruct (Hnone actuator0); [|done]. by eapply list_elem_of_lookup_2.
      * apply IH. eauto.
    + intros acts Hacts.
      apply Forall2_cons_inv_l in Hacts
        as (a & acts' & [(actuator & Ha & Hja) Hlast] & Hacts & ->).
      assert (a0 = a) as ->.
      { destruct (Nat.lt_trichotomy a0 a) as [Hlt|[Heq|Hgt]]; [|done|].
        - by destruct (Hlast0 a actuator Hlt Ha).
        - by destruct (Hlast a0 actuator0 Hgt Ha0). }
      destruct (IH (acc ++ [a])) as [_ Hrest].
      rewrite (Hrest acts' Hacts). by rewrite <- app_assoc.
  - split; [done|]. intros acts Hacts.
    apply Forall2_cons_inv_l in Hacts
      as (a & acts' & [(actuator & Ha & Hja) Hlast] & Hacts & ->).
    by destruct (Htable a actuator Ha).
Qed.

(** X12.  [MakeActuatorSelectorMatrix], handed joint indexes, throws
    [std::logic_error] as soon as one of the joints has no actuator.  When
    every joint has one, it returns what the overload taking actuator indexes
    returns for the actuators of the joints, in the order of the joints; of
    several actuators on one joint, the one added last counts. *)
Theorem MakeActuatorSelectorMatrix_of_joints_selects_actuators tree elements
    (user_to_joint_index_map : list nat) :
  topology_is_valid tree = true →
  Forall (λ actuator, actuator_joint_index actuator < num_joints elements)
         (owned_actuators_ elements) →
  Forall (λ j, j < num_joints elements) user_to_joint_index_map →
  ((∃ j, j ∈ user_to_joint_index_map
         ∧ ∀ actuator, actuator ∈ owned_actuators_ elements →
                       actuator_joint_index actuator ≠ j) →
   MakeActuatorSelectorMatrix_of_joints tree elements user_to_joint_index_map
   = Thrown logic_error)
  ∧ ∀ user_to_actuator_index_map,
      Forall2 (λ j a,
                 (∃ actuator, owned_actuators_ elements !! a = Some actuator
                              ∧ actuator_joint_index actuator = j)
                 ∧ ∀ a' actuator', a < a' →
                     owned_actuators_ elements !! a' = Some actuator' →
                     actuator_joint_index actuator' ≠ j)
        user_to_joint_index_map user_to_actuator_index_map →
      MakeActuatorSelectorMatrix_of_joints tree elements user_to_joint_index_map
      = MakeActuatorSelectorMatrix tree elements user_to_actuator_index_map.
Proof.
  intros Hvalid Hact Hmap.
  destruct (joint_to_actuator_index_loop elements Hact)
    as (table & Hrun & Hlen & Htable).
  unfold MakeActuatorSelectorMatrix_of_joints, ThrowIfNotFinalized.
  rewrite Hvalid. simpl. rewrite Hrun. simpl.
  destruct (user_to_actuator_loop elements table user_to_joint_index_map
              Hmap Htable []) as [Hthrows Hreturns].
  split.
  - intros Hnone. by rewrite Hthrows.
  - intros acts Hacts. by rewrite (Hreturns acts Hacts).
Qed.

End Actuator_selector.

(** ** The state selector matrix *)

Section State_selector.
Context {T : Type} {ST : Scalar T}.
Implicit Types (tree : MultibodyTree (T := T)) (M : MatrixX (T := T)).
Implicit Types (elements : MultibodyTreeElements (T := T)).

(** The loop that looks for a joint selected twice. *)
Lemma unique_joints_loop elements (joint_indexes : list nat) (seen : gset nat) :
  Forall (λ j, j < num_joints elements) joint_indexes →
  (NoDup joint_indexes ∧ (∀ j, j ∈ joint_indexes → j ∉ seen) →
   ∃ s, for_each joint_indexes
          (λ joint_index (already_selected_joints : gset nat),
             if decide (joint_index ∈ already_selected_joints)
             then (_ ← get_joint elements joint_index; Thrown logic_error)
             else Ok ({[joint_index]} ∪ already_selected_joints)) seen = Ok s)
  ∧ (¬ (NoDup joint_indexes ∧ ∀ j, j ∈ joint_indexes → j ∉ seen) →
     for_each joint_indexes
       (λ joint_index (already_selected_joints : gset nat),
          if decide (joint_index ∈ already_selected_joints)
          then (_ ← get_joint elements joint_index; Thrown logic_error)
          else Ok ({[joint_index]} ∪ already_selected_joints)) seen
     = Thrown logic_error).
Proof.
  revert seen. induction joint_indexes as [|j l IH]; intros seen Hrange.
  { split; [by eexists|]. intros Hno. destruct Hno. split; [constructor|].
    intros j Hj. by apply elem_of_nil in Hj. }
  apply Forall_cons in Hrange as [Hj Hrange]. rewrite for_each_cons.
  destruct (lookup_lt_is_Some_2 (owned_joints_ elements) j Hj) as [joint Hjoint].
  destruct (decide (j ∈ seen)) as [Hseen|Hseen].
  - rewrite (at_unchecked_lookup _ _ _ Hjoint : get_joint elements j = Ok joint).
    simpl. split; [|done]. intros [_ Hfresh]. destruct (Hfresh j); [left|done].
  - simpl. destruct (IH ({[j]} ∪ seen) Hrange) as [IHok IHthrow]. split.
    + intros [Hnd Hfresh]. apply NoDup_cons in Hnd as [Hjl Hnd].
      apply IHok. split; [done|]. intros j' Hj'.
      apply not_elem_of_union. split.
      * apply not_elem_of_singleton. by intros ->.
      * apply Hfresh. by right.
    + intros Hno. apply IHthrow. intros [Hnd Hfresh]. apply Hno.
      assert (j ∉ l) as Hjl.
      { intros Hjl. apply (Hfresh j Hjl). apply elem_of_union. left.
        by apply elem_of_singleton. }
      split; [by constructor|]. intros j' Hj'.
      apply elem_of_cons in Hj' as [->|Hj']; [done|].
      intros Hs. apply (Hfresh j' Hj'). apply elem_of_union. by right.
Qed.

(** X13.  [MakeStateSelectorMatrix] throws [std::logic_error] when the
    tree is not finalized, and when a joint index is handed in more than
    once. *)
Theorem MakeStateSelectorMatrix_rejects_repeated_joint tree elements
    (user_to_joint_index_map : list nat) :
  (topology_is_valid tree = false →
   MakeStateSelectorMatrix tree elements user_to_joint_index_map
   = Thrown logic_error)
  ∧ (topology_is_valid tree = true →
     Forall (λ j, j < num_joints elements) user_to_joint_index_map →
     ¬ NoDup user_to_joint_index_map →
     MakeStateSelectorMatrix tree elements user_to_joint_index_map
     = Thrown logic_error).
Proof.
  unfold MakeStateSelectorMatrix, ThrowIfNotFinalized. split.
  - intros ->. reflexivity.
  - intros -> Hrange Hdup. simpl.
    destruct (unique_joints_loop elements user_to_joint_index_map ∅ Hrange)
      as [_ Hthrow].
    rewrite Hthrow; [done|]. intros [Hnd _]. done.
Qed.

(** The loop that counts the selected positions and velocities. *)
Lemma count_selected_loop elements (joint_indexes : list nat) p0 v0 :
  Forall (λ j, j < num_joints elements) joint_indexes →
  for_each joint_indexes
    (λ joint_index '(num_selected_positions, num_selected_velocities),
       joint ← get_joint elements joint_index;
       Ok (num_selected_positions + joint_num_positions joint,
           num_selected_velocities + joint_num_velocities joint)) (p0, v0)
  = Ok (p0 + selected_positions elements joint_indexes,
        v0 + selected_velocities elements joint_indexes).
Proof.
  revert p0 v0. induction joint_indexes as [|j l IH]; intros p0 v0 Hrange.
  { simpl. by rewrite !Nat.add_0_r. }
  apply Forall_cons in Hrange as [Hj Hrange]. rewrite for_each_cons.
  destruct (lookup_lt_is_Some_2 (owned_joints_ elements) j Hj) as [joint Hjoint].
  rewrite (at_unchecked_lookup _ _ _ Hjoint : get_joint elements j = Ok joint).
  simpl. rewrite IH by done. unfold selected_positions, selected_velocities.
  simpl. rewrite Hjoint. simpl. f_equal. f_equal; lia.
Qed.

Lemma selected_positions_app elements (l1 l2 : list nat) :
  selected_positions elements (l1 ++ l2)
  = selected_positions elements l1 + selected_positions elements l2.
Proof. apply sum_list_with_app. Qed.

Lemma selected_velocities_app elements (l1 l2 : list nat) :
  selected_velocities elements (l1 ++ l2)
  = selected_velocities elements l1 + selected_velocities elements l2.
Proof. apply sum_list_with_app. Qed.

Lemma selected_singleton elements j joint :
  owned_joints_ elements !! j = Some joint →
  selected_positions elements [j] = joint_num_positions joint
  ∧ selected_velocities elements [j] = joint_num_velocities joint.
Proof.
  intros Hj. unfold selected_positions, selected_velocities. simpl.
  rewrite Hj. simpl. lia.
Qed.

(** The rows of a joint come before the rows of the joints selected after
    it. *)
Lemma selected_before elements (l1 : list nat) k j joint :
  l1 !! k = Some j → owned_joints_ elements !! j = Some joint →
  selected_positions elements (take k l1) + joint_num_positions joint
  ≤ selected_positions elements l1
  ∧ selected_velocities elements (take k l1) + joint_num_velocities joint
    ≤ selected_velocities elements l1.
Proof.
  intros Hk Hj. rewrite <- (take_drop_middle l1 k j Hk) at 2 4.
  rewrite selected_positions_app, selected_velocities_app.
  change (j :: drop (S k) l1) with ([j] ++ drop (S k) l1).
  rewrite selected_positions_app, selected_velocities_app.
  destruct (selected_singleton elements j joint Hj) as [-> ->]. lia.
Qed.

(** Writing an identity block into a matrix. *)
Lemma assign_block_Identity row col n M rows cols :
  mrows M = rows → mcols M = cols → Forall (λ c, length c = rows) (mcolumns M) →
  row + n ≤ rows → col + n ≤ cols →
  ∃ M', assign_block row col (MatrixX_Identity n) M = Ok M'
    ∧ mrows M' = rows ∧ mcols M' = cols
    ∧ Forall (λ c, length c = rows) (mcolumns M')
    ∧ (∀ r c, row ≤ r → r < row + n → col ≤ c → c < col + n →
         coeff M' r c = Some (if decide (r - row = c - col) then Tone else Tzero))
    ∧ (∀ r c, ¬ (row ≤ r ∧ r < row + n ∧ col ≤ c ∧ c < col + n) →
         coeff M' r c = coeff M r c).
Proof.
  intros Hrows Hcols Hshape Hr Hc.
  assert (length (mcolumns (MatrixX_Identity (T := T) n)) = n) as HlenB
    by (simpl; by rewrite length_fmap, length_seq).
  assert (∀ i, i < n → mcolumns (MatrixX_Identity (T := T) n) !! i
                       = Some (VectorX_Unit n i)) as HB.
  { intros i Hi. simpl. by rewrite list_lookup_fmap, lookup_seq_lt. }
  unfold assign_block.
  rewrite decide_True by (unfold mcols in *; rewrite HlenB; simpl; lia).
  eexists. split; [reflexivity|]. split; [done|].
  split; [by rewrite set_block_mcols|]. split; [|split].
  - apply set_block_column_lengths; [done|].
    apply Forall_forall. intros b Hb. simpl in Hb.
    apply list_elem_of_fmap in Hb as (i & -> & _).
    rewrite length_VectorX_Unit. lia.
  - intros r c Hr1 Hr2 Hc1 Hc2. unfold coeff, set_block. simpl.
    rewrite list_lookup_imap.
    destruct (lookup_lt_is_Some_2 (mcolumns M) c) as [column Hcolumn];
      [unfold mcols in Hcols; lia|].
    rewrite Hcolumn. simpl. rewrite decide_True by done.
    pose proof (HB (c - col)) as HBc. simpl in HBc. rewrite HBc by lia. simpl.
    pose proof (proj1 (Forall_lookup _ _) Hshape _ _ Hcolumn) as Hlen.
    simpl in Hlen.
    rewrite lookup_set_segment_in by (rewrite ?length_VectorX_Unit; lia).
    apply lookup_VectorX_Unit. lia.
  - intros r c Hout. unfold coeff, set_block. simpl. rewrite list_lookup_imap.
    destruct (mcolumns M !! c) as [column|] eqn:Hcolumn; simpl; [|done].
    pose proof (proj1 (Forall_lookup _ _) Hshape _ _ Hcolumn) as Hlen.
    simpl in Hlen.
    case_decide as Hc1; [|done].
    destruct (decide (c < col + n)) as [Hc2|Hc2].
    + pose proof (HB (c - col)) as HBc. simpl in HBc. rewrite HBc by lia. simpl.
      apply lookup_set_segment_out; rewrite length_VectorX_Unit; lia.
    + rewrite (lookup_ge_None_2 (VectorX_Unit n <$> seq 0 n)); [done|].
      simpl in HlenB. rewrite HlenB. lia.
Qed.

Lemma coeff_MatrixX_Zero rows cols r c :
  r < rows → c < cols → coeff (MatrixX_Zero (T := T) rows cols) r c = Some Tzero.
Proof.
  intros Hr Hc. unfold coeff, MatrixX_Zero, VectorX_Zero. simpl.
  rewrite lookup_replicate_2 by done. simpl. by apply lookup_replicate_2.
Qed.

(** X14.  [MakeStateSelectorMatrix], handed distinct joints whose positions
    and velocities lie within the state, returns a matrix [Sx] with a row
    per selected position and velocity and a column per state, positions
    first.  The row of the [a]-th position of the [k]-th selected joint is
    the unit row at that position's place in the state, and likewise for the
    velocities, which sit after all [nq] positions: [Sx] times a state picks
    out the states of the selected joints, in the order of the joints. *)
Theorem MakeStateSelectorMatrix_selects tree elements
    (user_to_joint_index_map : list nat) :
  topology_is_valid tree = true →
  NoDup user_to_joint_index_map →
  (∀ j, j ∈ user_to_joint_index_map →
     ∃ joint, owned_joints_ elements !! j = Some joint
              ∧ position_start joint + joint_num_positions joint
                ≤ num_states elements
              ∧ num_positions tree + velocity_start joint
                + joint_num_velocities joint ≤ num_states elements) →
  ∃ Sx,
    MakeStateSelectorMatrix tree elements user_to_joint_index_map = Ok Sx
    ∧ mrows Sx = selected_positions elements user_to_joint_index_map
                 + selected_velocities elements user_to_joint_index_map
    ∧ mcols Sx = num_states elements
    ∧ ∀ k j joint,
        user_to_joint_index_map !! k = Some j →
        owned_joints_ elements !! j = Some joint →
        (∀ a c, a < joint_num_positions joint → c < num_states elements →
           coeff Sx (selected_positions elements (take k user_to_joint_index_map)
                     + a) c
           = Some (if decide (c = position_start joint + a) then Tone else Tzero))
        ∧ (∀ a c, a < joint_num_velocities joint → c < num_states elements →
             coeff Sx (selected_positions elements user_to_joint_index_map
                       + selected_velocities elements
                           (take k user_to_joint_index_map) + a) c
             = Some (if decide (c = num_positions tree + velocity_start joint + a)
                     then Tone else Tzero)).
Proof.
  intros Hvalid Hnd Hjoints.
  rename user_to_joint_index_map into map.
  assert (Forall (λ j, j < num_joints elements) map) as Hrange.
  { apply Forall_forall. intros j Hj. destruct (Hjoints j Hj) as (joint & Hjj & _).
    by eapply lookup_lt_Some. }
  unfold MakeStateSelectorMatrix, ThrowIfNotFinalized. rewrite Hvalid. simpl.
  destruct (unique_joints_loop elements map ∅ Hrange) as [Hok _].
  destruct Hok as [seen Hseen].
  { split; [done|]. intros j _. apply not_elem_of_empty. }
  rewrite Hseen. simpl. rewrite count_selected_loop by done. simpl.
  set (NP := selected_positions elements map).
  set (NV := selected_velocities elements map).
  set (ns := num_states elements). set (nq := num_positions tree).
  pose (Inv := λ (l1 : list nat) (s : StateSelectorState (T := T)),
    selected_positions_index s = selected_positions elements l1
    ∧ selected_velocities_index s = NP + selected_velocities elements l1
    ∧ mrows (Sx_ s) = NP + NV ∧ mcols (Sx_ s) = ns
    ∧ Forall (λ c, length c = NP + NV) (mcolumns (Sx_ s))
    ∧ (∀ k j joint, k < length l1 → map !! k = Some j →
         owned_joints_ elements !! j = Some joint →
         (∀ a c, a < joint_num_positions joint → c < ns →
            coeff (Sx_ s) (selected_positions elements (take k map) + a) c
            = Some (if decide (c = position_start joint + a) then Tone else Tzero))
         ∧ (∀ a c, a < joint_num_velocities joint → c < ns →
              coeff (Sx_ s) (NP + selected_velocities elements (take k map) + a) c
              = Some (if decide (c = nq + velocity_start joint + a)
                      then Tone else Tzero)))
    ∧ (∀ r c, (selected_positions elements l1 ≤ r ∧ r < NP)
              ∨ (NP + selected_velocities elements l1 ≤ r ∧ r < NP + NV) →
              c < ns → coeff (Sx_ s) r c = Some Tzero)).
  match goal with
  | |- ∃ Sx, for_each ?l ?body ?s0 ≫= _ = Ok Sx ∧ _ =>
      destruct (for_each_total (A := nat) Inv l body s0) as (s' & Hrun & Hinv)
  end.
  - (* before the first joint *)
    unfold Inv. simpl. split; [done|]. split; [unfold selected_velocities; simpl; lia|].
    split; [done|]. split; [unfold mcols; simpl; by rewrite length_replicate|].
    split.
    { apply Forall_forall. intros c Hc. apply elem_of_replicate in Hc as [-> _].
      apply length_VectorX_Zero. }
    split; [intros; lia|]. intros r c Hr Hc. apply coeff_MatrixX_Zero; lia.
  - (* one joint *)
    intros l1 j l2 s Hl (Hspi & Hsvi & Hrows & Hcols & Hshape & Hdone & Hzero).
    destruct (Hjoints j) as (joint & Hjoint & Hpos & Hvel).
    { rewrite Hl. apply elem_of_app. right. left. }
    destruct (selected_singleton elements j joint Hjoint) as [Hp1 Hv1].
    assert (NP = selected_positions elements l1 + joint_num_positions joint
                 + selected_positions elements l2) as HNP.
    { unfold NP. rewrite Hl. change (j :: l2) with ([j] ++ l2).
      rewrite !selected_positions_app, Hp1. lia. }
    assert (NV = selected_velocities elements l1 + joint_num_velocities joint
                 + selected_velocities elements l2) as HNV.
    { unfold NV. rewrite Hl. change (j :: l2) with ([j] ++ l2).
      rewrite !selected_velocities_app, Hv1. lia. }
    set (P1 := selected_positions elements l1) in *.
    set (V1 := selected_velocities elements l1) in *.
    set (np := joint_num_positions joint) in *.
    set (nv := joint_num_velocities joint) in *.
    destruct (assign_block_Identity P1 (position_start joint) np (Sx_ s)
                (NP + NV) ns Hrows Hcols Hshape)
      as (M1 & HM1 & Hrows1 & Hcols1 & Hshape1 & Hin1 & Hout1); [lia|done|].
    destruct (assign_block_Identity (NP + V1) (nq + velocity_start joint) nv M1
                (NP + NV) ns Hrows1 Hcols1 Hshape1)
      as (M2 & HM2 & Hrows2 & Hcols2 & Hshape2 & Hin2 & Hout2); [lia|done|].
    exists (mkStateSelectorState M2 (P1 + np) (NP + V1 + nv)). split.
    { rewrite (at_unchecked_lookup _ _ _ Hjoint : get_joint elements j = Ok joint).
      simpl. rewrite Hspi, Hsvi. fold np nv. rewrite HM1. simpl.
      rewrite HM2. reflexivity. }
    unfold Inv. simpl.
    rewrite selected_positions_app, selected_velocities_app, Hp1, Hv1.
    fold P1 V1. split; [done|]. split; [lia|]. split; [done|]. split; [done|].
    split; [done|]. split.
    + intros k j' joint' Hk Hj' Hjoint'. rewrite length_app in Hk. simpl in Hk.
      destruct (decide (k < length l1)) as [Hlt|Hge].
      * (* a joint placed earlier: its rows are left alone *)
        assert (l1 !! k = Some j') as Hl1.
        { rewrite Hl in Hj'. by rewrite lookup_app_l in Hj'. }
        assert (take k map = take k l1) as Htake
          by (rewrite Hl; apply take_app_le; lia).
        destruct (selected_before elements l1 k j' joint' Hl1 Hjoint') as [Hbp Hbv].
        fold P1 V1 in Hbp, Hbv.
        destruct (Hdone k j' joint' Hlt Hj' Hjoint') as [Hp Hv].
        rewrite Htake in Hp, Hv |- *. split.
        -- intros a c Ha Hc. rewrite Hout2, Hout1 by lia. by apply Hp.
        -- intros a c Ha Hc. rewrite Hout2, Hout1 by lia. by apply Hv.
      * (* the joint placed now *)
        assert (k = length l1) as -> by lia.
        assert (j' = j) as ->.
        { rewrite Hl, list_lookup_middle in Hj' by done.
          congruence. }
        assert (joint' = joint) as -> by congruence.
        assert (take (length l1) map = l1) as ->
          by (rewrite Hl; apply take_app_length).
        fold P1 V1 np nv. split.
        -- intros a c Ha Hc. rewrite Hout2 by lia.
           destruct (decide (position_start joint ≤ c
                             ∧ c < position_start joint + np)) as [Hcin|Hcout].
           ++ rewrite Hin1 by lia. f_equal.
              destruct (decide (P1 + a - P1 = c - position_start joint)),
                (decide (c = position_start joint + a)); try done; lia.
           ++ rewrite Hout1 by lia. rewrite Hzero by lia.
              rewrite decide_False by lia. done.
        -- intros a c Ha Hc.
           destruct (decide (nq + velocity_start joint ≤ c
                             ∧ c < nq + velocity_start joint + nv)) as [Hcin|Hcout].
           ++ rewrite Hin2 by lia. f_equal.
              destruct (decide (NP + V1 + a - (NP + V1)
                                = c - (nq + velocity_start joint))),
                (decide (c = nq + velocity_start joint + a)); try done; lia.
           ++ rewrite Hout2, Hout1 by lia. rewrite Hzero by lia.
              rewrite decide_False by lia. done.
    + intros r c Hr Hc. rewrite Hout2, Hout1 by lia. apply Hzero; lia.
  - (* after the last joint *)
    rewrite Hrun. simpl. exists (Sx_ s'). split; [done|].
    destruct Hinv as (_ & _ & Hrows & Hcols & _ & Hdone & _).
    split; [done|]. split; [done|].
    intros k j joint Hk Hjoint.
    apply (Hdone k j joint); [by eapply lookup_lt_Some|done|done].
Qed.

End State_selector.

(** ** The maps between velocities and time derivatives of positions *)

(** Decide the check at the head of an operation: it passes, or the
    operation ends there. *)
Ltac first_check :=
  match goal with
  | |- DRAKE_DEMAND (bool_decide ?P) ≫= _ = _ =>
      destruct (decide P);
      [rewrite (bool_decide_eq_true_2 P) by assumption; simpl
      |apply DRAKE_DEMAND_bind_false; by apply bool_decide_eq_false_2]
  | |- DRAKE_THROW_UNLESS (bool_decide ?P) ≫= _ = _ =>
      destruct (decide P);
      [rewrite (bool_decide_eq_true_2 P) by assumption; simpl
      |apply DRAKE_THROW_UNLESS_bind_false; by apply bool_decide_eq_false_2]
  end.

Section Velocity_maps.
Context {T : Type} {ST : Scalar T}.
Implicit Types (tree : MultibodyTree (T := T)).
Implicit Types (elements : MultibodyTreeElements (T := T)).
Implicit Types (c : MultibodyTreeContext (T := T)).

Lemma assign_segment_Ok {A} start n (w v v' : list A) :
  assign_segment start n w v = Ok v' ↔
  start + n ≤ length v ∧ length w = n ∧ v' = set_segment start w v.
Proof.
  unfold assign_segment. case_decide as H; split.
  - intros [= <-]. by destruct H.
  - by intros (_ & _ & ->).
  - done.
  - intros (? & ? & _). destruct H. done.
Qed.

(** X15.  [MapQDotToVelocity] undoes [MapVelocityToQDot].  For mobilizers
    whose position slices lie apart within the positions and whose velocity
    slices cover the velocities, with at most seven positions and six
    velocities each, and each of which maps the time derivative it makes of
    a velocity slice back to that slice: mapping generalized velocities [v]
    to [qdot] and [qdot] back returns, and gives [v] again, whatever the
    output buffers held. *)
Theorem MapQDotToVelocity_undoes_MapVelocityToQDot tree elements c
    (v qdot0 v0 : list T) :
  length v = num_velocities tree →
  length qdot0 = num_positions tree →
  length v0 = num_velocities tree →
  Forall (λ m,
            mobilizer_positions_start m + mobilizer_num_positions m
            ≤ num_positions tree
            ∧ mobilizer_velocities_start m + mobilizer_num_velocities m
              ≤ num_velocities tree
            ∧ mobilizer_num_positions m ≤ kMaxQdot
            ∧ mobilizer_num_velocities m ≤ 6)
         (owned_mobilizers_ elements) →
  (∀ i j mi mj, i ≠ j →
     owned_mobilizers_ elements !! i = Some mi →
     owned_mobilizers_ elements !! j = Some mj →
     mobilizer_positions_start mi + mobilizer_num_positions mi
     ≤ mobilizer_positions_start mj
     ∨ mobilizer_positions_start mj + mobilizer_num_positions mj
       ≤ mobilizer_positions_start mi) →
  (∀ k, k < num_velocities tree →
     ∃ m, m ∈ owned_mobilizers_ elements
          ∧ mobilizer_velocities_start m ≤ k
          ∧ k < mobilizer_velocities_start m + mobilizer_num_velocities m) →
  Forall (λ m, ∀ v_mobilizer : list T,
            length v_mobilizer = mobilizer_num_velocities m →
            ∃ qdot_mobilizer,
              mobilizer_MapVelocityToQDot m c v_mobilizer = Ok qdot_mobilizer
              ∧ length qdot_mobilizer = mobilizer_num_positions m
              ∧ mobilizer_MapQDotToVelocity m c qdot_mobilizer = Ok v_mobilizer)
         (owned_mobilizers_ elements) →
  ∃ qdot,
    MapVelocityToQDot tree elements (IsMultibodyTreeContext c) v (Some qdot0)
    = Ok qdot
    ∧ length qdot = num_positions tree
    ∧ MapQDotToVelocity tree elements (IsMultibodyTreeContext c) qdot (Some v0)
      = Ok v.
Proof.
  intros Hv Hqdot0 Hv0 Hrange Hapart Hcover Hcontract.
  set (nq := num_positions tree) in *. set (nv := num_velocities tree) in *.
  set (mobilizers := owned_mobilizers_ elements) in *.
  (* velocities to qdot *)
  assert (∃ qdot,
    for_each mobilizers (λ mobilizer qdot,
      v_mobilizer ← get_velocities_from_array mobilizer v;
      _ ← DRAKE_DEMAND (bool_decide (mobilizer_num_positions mobilizer ≤ kMaxQdot));
      qdot_mobilizer ← mobilizer_MapVelocityToQDot mobilizer c v_mobilizer;
      set_positions_in_array mobilizer qdot_mobilizer qdot) qdot0 = Ok qdot
    ∧ length qdot = nq
    ∧ ∀ i m, mobilizers !! i = Some m →
        mobilizer_MapQDotToVelocity m c
          (segment (mobilizer_positions_start m) (mobilizer_num_positions m) qdot)
        = Ok (segment (mobilizer_velocities_start m)
                (mobilizer_num_velocities m) v)) as (qdot & Hto & Hlen & Hslices).
  { edestruct (for_each_total (A := Mobilizer)
      (λ l1 (qdot : list T), length qdot = nq
         ∧ ∀ i m, i < length l1 → mobilizers !! i = Some m →
             mobilizer_MapQDotToVelocity m c
               (segment (mobilizer_positions_start m)
                  (mobilizer_num_positions m) qdot)
             = Ok (segment (mobilizer_velocities_start m)
                     (mobilizer_num_velocities m) v)) mobilizers)
      as (qdot & Hrun & Hlen & Hinv); [| |exists qdot; split; [exact Hrun|]].
    - split; [done|]. intros; simpl in *; lia.
    - intros l1 m l2 qdot Hl [Hlen Hinv].
      assert (mobilizers !! length l1 = Some m) as Hm
        by (rewrite Hl; by apply list_lookup_middle).
      pose proof (proj1 (Forall_lookup _ _) Hrange _ _ Hm)
        as (Hp & Hvr & Hmax & H6). simpl in Hp, Hvr, Hmax, H6.
      destruct (proj1 (Forall_lookup _ _) Hcontract _ _ Hm
                  (segment (mobilizer_velocities_start m)
                     (mobilizer_num_velocities m) v))
        as (qd & HN & Hqd & HNinv); [apply length_segment; lia|].
      exists (set_segment (mobilizer_positions_start m) qd qdot). split.
      { unfold get_velocities_from_array, segment_of.
        rewrite decide_True by lia. simpl.
        rewrite bool_decide_eq_true_2 by done. simpl. rewrite HN. simpl.
        unfold set_positions_in_array. apply assign_segment_Ok.
        split; [lia|]. done. }
      split; [rewrite length_set_segment; lia|].
      intros i m' Hi Hm'. rewrite length_app in Hi. simpl in Hi.
      destruct (decide (i = length l1)) as [->|Hne].
      + assert (m' = m) as -> by congruence. rewrite <- Hqd.
        rewrite segment_set_segment by lia. done.
      + rewrite segment_set_segment_disjoint.
        * apply (Hinv i m'); [lia|done].
        * lia.
        * rewrite Hqd. destruct (Hapart i (length l1) m' m Hne Hm' Hm); lia.
    - split; [done|]. intros i m Hm.
      apply (Hinv i m); [by eapply lookup_lt_Some|done]. }
  exists qdot. split.
  { unfold MapVelocityToQDot. simpl. rewrite !bool_decide_eq_true_2 by done.
    simpl. exact Hto. }
  split; [done|].
  (* and back *)
  unfold MapQDotToVelocity. simpl. rewrite !bool_decide_eq_true_2 by done. simpl.
  edestruct (for_each_total (A := Mobilizer)
    (λ l1 (v' : list T), length v' = nv
       ∧ ∀ i m k, i < length l1 → mobilizers !! i = Some m →
           mobilizer_velocities_start m ≤ k →
           k < mobilizer_velocities_start m + mobilizer_num_velocities m →
           v' !! k = v !! k) mobilizers)
    as (v' & Hrun & Hlen' & Hinv); [| |rewrite Hrun].
  - split; [exact Hv0|]. intros; simpl in *; lia.
  - intros l1 m l2 v' Hl [Hlen' Hinv].
    assert (mobilizers !! length l1 = Some m) as Hm
      by (rewrite Hl; by apply list_lookup_middle).
    pose proof (proj1 (Forall_lookup _ _) Hrange _ _ Hm)
      as (Hp & Hvr & Hmax & H6). simpl in Hp, Hvr, Hmax, H6.
    exists (set_segment (mobilizer_velocities_start m)
              (segment (mobilizer_velocities_start m)
                 (mobilizer_num_velocities m) v) v').
    assert (length (segment (mobilizer_velocities_start m)
                      (mobilizer_num_velocities m) v)
            = mobilizer_num_velocities m) as Hseg by (apply length_segment; lia).
    split.
    { unfold get_positions_from_array, segment_of.
      rewrite decide_True by lia. simpl.
      unfold resize_up_to. rewrite decide_True by done. simpl.
      rewrite (Hslices _ _ Hm). simpl.
      unfold set_velocities_in_array. apply assign_segment_Ok.
      split; [lia|]. done. }
    split; [rewrite length_set_segment; lia|].
    intros i m' k Hi Hm' Hk1 Hk2. rewrite length_app in Hi. simpl in Hi.
    destruct (decide (mobilizer_velocities_start m ≤ k
                      ∧ k < mobilizer_velocities_start m
                            + mobilizer_num_velocities m)) as [Hin|Hout].
    + rewrite lookup_set_segment_in by lia.
      symmetry. apply segment_lookup; lia.
    + rewrite lookup_set_segment_out by lia.
      destruct (decide (i = length l1)) as [->|Hne].
      * assert (m' = m) as -> by congruence. lia.
      * apply (Hinv i m' k); [lia|done..].
  - f_equal. apply list_eq. intros k.
    destruct (decide (k < nv)) as [Hk|Hk].
    + destruct (Hcover k Hk) as (m & Hm & Hk1 & Hk2).
      apply list_elem_of_lookup in Hm as [i Hm].
      apply (Hinv i m k); [by eapply lookup_lt_Some|done..].
    + rewrite !lookup_ge_None_2; [done|lia..].
Qed.

(** X16.  The two maps check their arguments with [DRAKE_DEMAND]: a vector
    of the wrong size or a null output ends the process, before the context
    is looked at.  [MapVelocityToQDot] also ends the process at the first
    mobilizer that has more than seven positions, when the mobilizers before
    it went through. *)
Theorem velocity_maps_demands tree elements context :
  (∀ qdot (v : option (list T)),
     ¬ (length qdot = num_positions tree ∧ is_Some v
        ∧ from_option length 0 v = num_velocities tree) →
     MapQDotToVelocity tree elements context qdot v = Fatal)
  ∧ (∀ v (qdot : option (list T)),
       ¬ (length v = num_velocities tree ∧ is_Some qdot
          ∧ from_option length 0 qdot = num_positions tree) →
       MapVelocityToQDot tree elements context v qdot = Fatal)
  ∧ (∀ c v qdot0 before m after qdot1,
       context = IsMultibodyTreeContext c →
       length v = num_velocities tree →
       length qdot0 = num_positions tree →
       owned_mobilizers_ elements = before ++ m :: after →
       for_each before (λ mobilizer qdot,
         v_mobilizer ← get_velocities_from_array mobilizer v;
         _ ← DRAKE_DEMAND
               (bool_decide (mobilizer_num_positions mobilizer ≤ kMaxQdot));
         qdot_mobilizer ← mobilizer_MapVelocityToQDot mobilizer c v_mobilizer;
         set_positions_in_array mobilizer qdot_mobilizer qdot) qdot0 = Ok qdot1 →
       mobilizer_velocities_start m + mobilizer_num_velocities m
       ≤ num_velocities tree →
       kMaxQdot < mobilizer_num_positions m →
       MapVelocityToQDot tree elements context v (Some qdot0) = Fatal).
Proof.
  split; [|split].
  - intros qdot v Hbad. unfold MapQDotToVelocity.
    first_check. first_check. destruct v as [v|]; [|exfalso; by eapply is_Some_None].
    simpl in *. first_check. exfalso. apply Hbad. done.
  - intros v qdot Hbad. unfold MapVelocityToQDot.
    first_check. first_check.
    destruct qdot as [qdot|]; [|exfalso; by eapply is_Some_None].
    simpl in *. first_check. exfalso. apply Hbad. done.
  - intros c v qdot0 before m after qdot1 -> Hv Hq Hmob Hbefore Hslice Hmax.
    unfold MapVelocityToQDot. simpl. rewrite !bool_decide_eq_true_2 by done.
    simpl. rewrite Hmob, for_each_app, Hbefore. simpl.
    unfold get_velocities_from_array, segment_of.
    rewrite decide_True by lia. simpl.
    rewrite bool_decide_eq_false_2 by lia. done.
Qed.

End Velocity_maps.

(** ** The mass matrix does not read its output *)

(** Two runs of a loop that start from related states and whose turns keep
    the states related end alike: both return, in related states, or both
    stop in the same way. *)
Lemma for_each_related {A S} (R : list A → S → S → Prop) (l : list A)
    (body : A → S → Outcome S) (s1 s2 : S) :
  R [] s1 s2 →
  (∀ l1 a l2 s1 s2, l = l1 ++ a :: l2 → R l1 s1 s2 →
     match body a s1, body a s2 with
     | Ok s1', Ok s2' => R (l1 ++ [a]) s1' s2'
     | Fatal, Fatal | Undefined, Undefined => True
     | Thrown e1, Thrown e2 => e1 = e2
     | _, _ => False
     end) →
  match for_each l body s1, for_each l body s2 with
  | Ok s1', Ok s2' => R l s1' s2'
  | Fatal, Fatal | Undefined, Undefined => True
  | Thrown e1, Thrown e2 => e1 = e2
  | _, _ => False
  end.
Proof.
  intros H0 Hstep.
  assert (∀ l2 l1 s1 s2, l = l1 ++ l2 → R l1 s1 s2 →
            match for_each l2 body s1, for_each l2 body s2 with
            | Ok s1', Ok s2' => R l s1' s2'
            | Fatal, Fatal | Undefined, Undefined => True
            | Thrown e1, Thrown e2 => e1 = e2
            | _, _ => False
            end) as Hgen.
  { induction l2 as [|a l2 IH]; intros l1 t1 t2 Hl HR.
    - rewrite app_nil_r in Hl. subst. done.
    - specialize (Hstep l1 a l2 t1 t2 Hl HR). rewrite !for_each_cons.
      destruct (body a t1) as [t1'| | |], (body a t2) as [t2'| | |]; simpl;
        try done.
      apply (IH (l1 ++ [a])); [|done]. by rewrite <- app_assoc. }
  by apply (Hgen l []).
Qed.

Section Mass_matrix_output.
Context {T : Type} {ST : Scalar T} {impl : BodyNodeImpl (T := T)}.
Implicit Types (tree : MultibodyTree (T := T)) (H : MatrixX (T := T)).

(** X17.  [CalcMassMatrixViaInverseDynamics] never reads the matrix it is
    handed: two matrices of the same size, whatever they hold, give the same
    outcome, the same mass matrix when the operation returns. *)
Theorem CalcMassMatrixViaInverseDynamics_ignores_old_entries tree context H1 H2 :
  mrows H1 = mrows H2 → mcols H1 = mcols H2 →
  CalcMassMatrixViaInverseDynamics tree context (Some H1)
  = CalcMassMatrixViaInverseDynamics tree context (Some H2).
Proof.
  intros Hrows Hcols. unfold CalcMassMatrixViaInverseDynamics. simpl.
  rewrite <- Hrows, <- Hcols.
  destruct (DRAKE_DEMAND (bool_decide (mrows H1 = num_velocities tree)))
    as [[]| | |]; simpl; [|done..].
  destruct (DRAKE_DEMAND (bool_decide (mcols H1 = num_velocities tree)))
    as [[]| | |] eqn:Hc; simpl; [|done..].
  apply DRAKE_DEMAND_Ok, bool_decide_eq_true_1 in Hc.
  destruct (EvalPositionKinematics tree context) as [pc| | |]; simpl; [|done..].
  unfold DoCalcMassMatrixViaInverseDynamics.
  set (vc := InitializeToZero (VelocityKinematicsCache_new (topology_ tree))).
  set (nv := num_velocities tree) in *.
  set (s01 := mkMassMatrixState (VectorX_new nv) (VectorX_new nv)
                (replicate (num_bodies tree) Spatial_new)
                (replicate (num_bodies tree) Spatial_new) (Some H1)).
  set (s02 := mkMassMatrixState (VectorX_new nv) (VectorX_new nv)
                (replicate (num_bodies tree) Spatial_new)
                (replicate (num_bodies tree) Spatial_new) (Some H2)).
  pose (R := λ (l1 : list nat) (s1 s2 : MassMatrixState (T := T)),
    mm_tau s1 = mm_tau s2 ∧ mm_A_WB_array s1 = mm_A_WB_array s2
    ∧ mm_F_BMo_W_array s1 = mm_F_BMo_W_array s2
    ∧ ∃ M1 M2, mm_H s1 = Some M1 ∧ mm_H s2 = Some M2
        ∧ mrows M1 = mrows M2 ∧ mcols M1 = nv ∧ mcols M2 = nv
        ∧ ∀ j, j ∈ l1 → mcolumns M1 !! j = mcolumns M2 !! j).
  assert (R [] s01 s02) as H0.
  { unfold R. simpl. repeat (split; [done|]). exists H1, H2.
    rewrite <- Hcols. repeat (split; [done|]).
    intros j Hj. by apply elem_of_nil in Hj. }
  assert (∀ l1 a l2 s1 s2, seq 0 nv = l1 ++ a :: l2 → R l1 s1 s2 →
            match mass_matrix_probe tree context pc vc a s1,
                  mass_matrix_probe tree context pc vc a s2 with
            | Ok s1', Ok s2' => R (l1 ++ [a]) s1' s2'
            | Fatal, Fatal | Undefined, Undefined => True
            | Thrown e1, Thrown e2 => e1 = e2
            | _, _ => False
            end) as Hstep.
  { intros l1 a l2 t1 t2 Hl
      (Htau & HA & HF & M1 & M2 & HM1 & HM2 & Hr12 & Hc1 & Hc2 & Hcols12).
    unfold mass_matrix_probe. rewrite Htau, HA, HF.
    destruct (CalcInverseDynamics _ _ _ _ _ _ _ _ _ _)
      as [[[A F] tau]| | |]; simpl; [|done..].
    unfold set_col. rewrite HM1, HM2. simpl. rewrite Hc1, Hc2, Hr12.
    destruct (decide (a < nv ∧ length tau = mrows M2)) as [[Ha Hlen]|?];
      simpl; [|done].
    unfold R. simpl. repeat (split; [done|]).
    eexists _, _. split; [reflexivity|]. split; [reflexivity|]. simpl.
    split; [done|]. unfold mcols in *. simpl. rewrite !length_insert.
    split; [done|]. split; [done|].
    intros j Hj. destruct (decide (j = a)) as [->|Hne].
    - by rewrite !list_lookup_insert_eq by lia.
    - rewrite !list_lookup_insert_ne by done. apply Hcols12.
      apply elem_of_app in Hj as [Hj|Hj]; [done|].
      by apply list_elem_of_singleton in Hj. }
  pose proof (for_each_related R (seq 0 nv) (mass_matrix_probe tree context pc vc)
                s01 s02 H0 Hstep) as Hrel.
  destruct (for_each (seq 0 nv) _ s01) as [s1| | |],
    (for_each (seq 0 nv) _ s02) as [s2| | |]; simpl; try done;
    [|by rewrite Hrel].
  destruct Hrel as (_ & _ & _ & M1 & M2 & -> & -> & Hr12 & Hc1 & Hc2 & Hcols12).
  f_equal. f_equal. destruct M1 as [r1 c1], M2 as [r2 c2].
  simpl in *. subst r2. f_equal. unfold mcols in *. simpl in *.
  apply list_eq. intros j. destruct (decide (j < nv)) as [Hj|Hj].
  - apply Hcols12. apply elem_of_seq. lia.
  - rewrite !lookup_ge_None_2; [done|lia..].
Qed.

End Mass_matrix_output.

(** ** The entries of the frame Jacobian *)

Section Frame_Jacobian_entries.
Context {T : Type} {ST : Scalar T} {impl : BodyNodeImpl (T := T)}.
Implicit Types (tree : MultibodyTree (T := T)) (M J : MatrixX (T := T)).
Implicit Types (B : list (list T)).

Lemma set_block_lookup_in row col B M c b column :
  col ≤ c → B !! (c - col) = Some b → mcolumns M !! c = Some column →
  mcolumns (set_block row col B M) !! c = Some (set_segment row b column).
Proof.
  intros Hc Hb Hcolumn. unfold set_block. simpl.
  rewrite list_lookup_imap, Hcolumn. simpl. rewrite decide_True by done.
  by rewrite Hb.
Qed.

Lemma set_segment_all {A} (w v : list A) :
  length w = length v → set_segment 0 w v = w.
Proof.
  intros Hlen. unfold set_segment. simpl.
  rewrite drop_ge by lia. by rewrite app_nil_r.
Qed.

(** The loop over the points: it fills, in the columns of one node, the
    three rows of every point. *)
Lemma points_loop (f : list T → SpatialVector (T := T) → list T)
    (P : list (list T)) (start : nat) (H : list (SpatialVector (T := T)))
    J1 J2 np nv :
  (∀ p h, length (f p h) = 3) →
  for_each (seq 0 np)
    (λ ipoint J,
       p_WQ ← at_unchecked P ipoint;
       Ok (set_block (3 * ipoint) start (f p_WQ <$> H) J)) J1 = Ok J2 →
  mrows J1 = 3 * np → mcols J1 = nv →
  Forall (λ c, length c = 3 * np) (mcolumns J1) →
  start + length H ≤ nv →
  (mrows J2 = 3 * np ∧ mcols J2 = nv
   ∧ Forall (λ c, length c = 3 * np) (mcolumns J2))
  ∧ (∀ c, c < start ∨ start + length H ≤ c → mcolumns J2 !! c = mcolumns J1 !! c)
  ∧ ∀ k h, H !! k = Some h →
      ∃ column, mcolumns J2 !! (start + k) = Some column
                ∧ ∀ ipoint p, ipoint < np → P !! ipoint = Some p →
                    segment (3 * ipoint) 3 column = f p h.
Proof.
  intros Hf Hrun Hrows Hcols Hshape Hslice.
  apply (for_each_partial (λ l1 J,
    (mrows J = 3 * np ∧ mcols J = nv ∧ Forall (λ c, length c = 3 * np) (mcolumns J))
    ∧ (∀ c, c < start ∨ start + length H ≤ c → mcolumns J !! c = mcolumns J1 !! c)
    ∧ ∀ k h, H !! k = Some h →
        ∃ column, mcolumns J !! (start + k) = Some column
                  ∧ ∀ ipoint p, ipoint ∈ l1 → P !! ipoint = Some p →
                      segment (3 * ipoint) 3 column = f p h)) in Hrun.
  - destruct Hrun as (Hs & Hout & Hin). split; [done|]. split; [done|].
    intros k h Hk. destruct (Hin k h Hk) as (column & Hcolumn & Hrowsok).
    exists column. split; [done|]. intros ipoint p Hip Hp.
    apply Hrowsok; [|done]. apply elem_of_seq. lia.
  - split; [done|]. split; [done|]. intros k h Hk.
    pose proof (lookup_lt_Some _ _ _ Hk) as Hlt.
    destruct (lookup_lt_is_Some_2 (mcolumns J1) (start + k)) as [column Hcolumn];
      [unfold mcols in Hcols; lia|].
    exists column. split; [done|]. intros ipoint p Hip. by apply elem_of_nil in Hip.
  - intros l1 a l2 J J' Hl ((Hr & Hc & Hsh) & Hout & Hin) Hstep.
    assert (a ∈ seq 0 np) as Ha by (rewrite Hl; apply elem_of_app; right; left).
    apply elem_of_seq in Ha.
    apply bind_Ok in Hstep as (p_WQ & Hp & Hstep). apply at_unchecked_Ok in Hp.
    injection Hstep as <-. split; [|split].
    + split; [done|]. split; [by rewrite set_block_mcols|].
      apply set_block_column_lengths; [done|].
      apply Forall_forall. intros b Hb. apply list_elem_of_fmap in Hb as (h & -> & _).
      rewrite Hf. lia.
    + intros c Hc'. rewrite set_block_lookup_out by (rewrite length_fmap; lia).
      by apply Hout.
    + intros k h Hk. destruct (Hin k h Hk) as (column & Hcolumn & Hrowsok).
      pose proof (proj1 (Forall_lookup _ _) Hsh _ _ Hcolumn) as Hlen. simpl in Hlen.
      exists (set_segment (3 * a) (f p_WQ h) column). split.
      * apply set_block_lookup_in; [lia| |done].
        replace (start + k - start) with k by lia.
        by rewrite list_lookup_fmap, Hk.
      * intros ipoint p Hip Hp'. apply elem_of_app in Hip as [Hip|Hip].
        -- rewrite segment_set_segment_disjoint.
           ++ by apply Hrowsok.
           ++ rewrite Hf. lia.
           ++ rewrite Hf.
              assert (ipoint ≠ a) as Hne.
              { intros ->. pose proof (NoDup_seq 0 np) as Hnd. rewrite Hl in Hnd.
                apply NoDup_app in Hnd as (_ & Hnd & _). apply (Hnd a Hip). left. }
              lia.
        -- apply list_elem_of_singleton in Hip as ->.
           assert (p = p_WQ) as -> by congruence.
           rewrite <- (Hf p_WQ h) at 2. apply segment_set_segment. rewrite Hf. lia.
Qed.

(** X18.  The entries of the Jacobians that
    [CalcFrameJacobianExpressedInWorld] returns, for a frame [F] off the
    world.  For every node on the kinematic path and every mobility [k] of
    it, with [h] the column of the across-node Jacobian for that mobility:
    the column of the angular Jacobian is the angular part of [h], and in
    the translational Jacobian the three rows of a point [Q] hold the
    translational part of [h] plus its angular part crossed with the position
    of [Q] from the node's body origin.  The nodes on the path do not
    overwrite each other's columns. *)
Theorem CalcFrameJacobianExpressedInWorld_entries tree context frame_F p_WQ_list
    (Jw_WFq Jv_WFq Jw Jv : option MatrixX) path pc
    (H_PB_W_cache : list (SpatialVector (T := T))) :
  CalcFrameJacobianExpressedInWorld tree context frame_F p_WQ_list Jw_WFq Jv_WFq
  = Ok (Jw, Jv) →
  body_index (frame_body frame_F) ≠ world_index →
  GetKinematicPathToWorld (topology_ tree) (node_index (frame_body frame_F))
  = Ok path →
  EvalPositionKinematics tree context = Ok pc →
  CalcAcrossNodeGeometricJacobianExpressedInWorld tree context pc
    (Some (replicate (num_velocities tree) Spatial_new)) = Ok H_PB_W_cache →
  NoDup (drop 1 path) →
  (∀ i node, i ∈ drop 1 path → body_nodes_ tree !! i = Some node →
     mobilizer_velocities_start_in_v (get_topology node)
     + num_mobilizer_velocities (get_topology node) ≤ num_velocities tree) →
  (∀ i1 i2 n1 n2, i1 ∈ drop 1 path → i2 ∈ drop 1 path → i1 ≠ i2 →
     body_nodes_ tree !! i1 = Some n1 → body_nodes_ tree !! i2 = Some n2 →
     mobilizer_velocities_start_in_v (get_topology n1)
     + num_mobilizer_velocities (get_topology n1)
     ≤ mobilizer_velocities_start_in_v (get_topology n2)
     ∨ mobilizer_velocities_start_in_v (get_topology n2)
       + num_mobilizer_velocities (get_topology n2)
       ≤ mobilizer_velocities_start_in_v (get_topology n1)) →
  ∀ i node k h X_WBi,
    i ∈ drop 1 path → body_nodes_ tree !! i = Some node →
    k < num_mobilizer_velocities (get_topology node) →
    H_PB_W_cache !! (mobilizer_velocities_start_in_v (get_topology node) + k)
    = Some h →
    get_X_WB pc i = Ok X_WBi →
    (∀ M, Jw = Some M →
       mcolumns M !! (mobilizer_velocities_start_in_v (get_topology node) + k)
       = Some (v3_coeffs (rotational h)))
    ∧ (∀ M, Jv = Some M →
         ∃ column,
           mcolumns M !! (mobilizer_velocities_start_in_v (get_topology node) + k)
           = Some column
           ∧ ∀ ipoint p_WQ, mcolumns p_WQ_list !! ipoint = Some p_WQ →
               segment (3 * ipoint) 3 column
               = v3_coeffs
                   (v3_add (translational h)
                      (cross (rotational h)
                         (v3_sub (v3_of_coeffs p_WQ) (translation X_WBi))))).
Proof.
  unfold CalcFrameJacobianExpressedInWorld.
  intros Hrun Hworld Hpath Hpc HHc Hnodup Hwithin Hapart.
  apply bind_Ok in Hrun as (? & Hsome & Hrun).
  apply bind_Ok in Hrun as (? & HwOK & Hrun).
  apply bind_Ok in Hrun as (? & HvOK & Hrun).
  rewrite decide_False in Hrun by done.
  rewrite Hpath in Hrun. simpl in Hrun. rewrite Hpc in Hrun. simpl in Hrun.
  rewrite HHc in Hrun. simpl in Hrun.
  set (nv := num_velocities tree) in *. set (np := mcols p_WQ_list) in *.
  assert (∀ M0, Jw_WFq = Some M0 →
            mrows (setZero M0) = 3 ∧ mcols (setZero M0) = nv
            ∧ Forall (λ c, length c = 3) (mcolumns (setZero M0))) as Hw0.
  { intros M0 ->. simpl in HwOK.
    apply bind_Ok in HwOK as (? & Hr & Hc).
    apply DRAKE_THROW_UNLESS_Ok, bool_decide_eq_true_1 in Hr, Hc.
    destruct (setZero_shape M0 3 nv Hr Hc) as (? & ? & ? & _). done. }
  assert (∀ M0, Jv_WFq = Some M0 →
            mrows (setZero M0) = 3 * np ∧ mcols (setZero M0) = nv
            ∧ Forall (λ c, length c = 3 * np) (mcolumns (setZero M0))) as Hv0.
  { intros M0 ->. simpl in HvOK.
    apply bind_Ok in HvOK as (? & Hr & Hc).
    apply DRAKE_THROW_UNLESS_Ok, bool_decide_eq_true_1 in Hr, Hc.
    destruct (setZero_shape M0 (3 * np) nv Hr Hc) as (? & ? & ? & _). done. }
  clear HwOK HvOK Hsome.
  set (content := λ (Jw Jv : option MatrixX) (i : nat),
    ∀ node k h X_WBi,
      body_nodes_ tree !! i = Some node →
      k < num_mobilizer_velocities (get_topology node) →
      H_PB_W_cache !! (mobilizer_velocities_start_in_v (get_topology node) + k)
      = Some h →
      get_X_WB pc i = Ok X_WBi →
      (∀ M, Jw = Some M →
         mcolumns M !! (mobilizer_velocities_start_in_v (get_topology node) + k)
         = Some (v3_coeffs (rotational h)))
      ∧ (∀ M, Jv = Some M →
           ∃ column,
             mcolumns M !! (mobilizer_velocities_start_in_v (get_topology node) + k)
             = Some column
             ∧ ∀ ipoint p_WQ, mcolumns p_WQ_list !! ipoint = Some p_WQ →
                 segment (3 * ipoint) 3 column
                 = v3_coeffs
                     (v3_add (translational h)
                        (cross (rotational h)
                           (v3_sub (v3_of_coeffs p_WQ) (translation X_WBi)))))).
  apply (for_each_partial (λ l1 (s : option MatrixX * option MatrixX),
    (∀ M, s.1 = Some M →
       mrows M = 3 ∧ mcols M = nv ∧ Forall (λ c, length c = 3) (mcolumns M))
    ∧ (∀ M, s.2 = Some M →
         mrows M = 3 * np ∧ mcols M = nv
         ∧ Forall (λ c, length c = 3 * np) (mcolumns M))
    ∧ ∀ ilevel i, ilevel ∈ l1 → path !! ilevel = Some i → content s.1 s.2 i))
    in Hrun.
  - destruct Hrun as (_ & _ & Hcontent). simpl in Hcontent.
    intros i node k h X_WBi Hi. apply list_elem_of_lookup in Hi as [il Hil].
    rewrite lookup_drop in Hil.
    apply (Hcontent (1 + il) i); [|done].
    apply elem_of_seq. apply lookup_lt_Some in Hil. lia.
  - simpl. split; [|split].
    + intros M HM. apply fmap_Some in HM as (M0 & -> & ->). by apply Hw0.
    + intros M HM. apply fmap_Some in HM as (M0 & -> & ->). by apply Hv0.
    + intros ilevel i Hil. by apply elem_of_nil in Hil.
  - intros l1 ilevel l2 [Jw1 Jv1] [Jw2 Jv2] Hl (HW & HV & Hcontent) Hstep.
    simpl in HW, HV, Hcontent.
    assert (ilevel ∈ seq 1 (length path - 1)) as Hil
      by (rewrite Hl; apply elem_of_app; right; left).
    apply elem_of_seq in Hil.
    apply bind_Ok in Hstep as (idx & Hidx & Hstep). apply at_unchecked_Ok in Hidx.
    apply bind_Ok in Hstep as (node & Hnode & Hstep). apply at_unchecked_Ok in Hnode.
    apply bind_Ok in Hstep as (H_PB_W & HH & Hstep).
    unfold GetJacobianFromArray in HH. apply segment_of_Ok in HH as [HHr ->].
    apply bind_Ok in Hstep as (Jv3 & HJv & Hstep). injection Hstep as <- <-.
    set (start := mobilizer_velocities_start_in_v (get_topology node)) in *.
    set (nmv := num_mobilizer_velocities (get_topology node)) in *.
    assert (length (segment start nmv H_PB_W_cache) = nmv) as Hlenseg
      by (by apply length_segment).
    assert (idx ∈ drop 1 path) as Hin.
    { apply (list_elem_of_lookup_2 _ (ilevel - 1)). rewrite lookup_drop.
      replace (1 + (ilevel - 1)) with ilevel by lia. done. }
    pose proof (Hwithin idx node Hin Hnode) as Hslice. fold start nmv nv in Hslice.
    (* what the loop over the points made of [Jv1] *)
    assert (∀ M1, Jv1 = Some M1 →
              ∃ M3, Jv3 = Some M3
                ∧ (mrows M3 = 3 * np ∧ mcols M3 = nv
                   ∧ Forall (λ c, length c = 3 * np) (mcolumns M3))
                ∧ (∀ c, c < start ∨ start + nmv ≤ c →
                     mcolumns M3 !! c = mcolumns M1 !! c)
                ∧ ∀ X_WBi, get_X_WB pc idx = Ok X_WBi →
                  ∀ k h, segment start nmv H_PB_W_cache !! k = Some h →
                    ∃ column, mcolumns M3 !! (start + k) = Some column
                      ∧ ∀ ipoint p, ipoint < np →
                          mcolumns p_WQ_list !! ipoint = Some p →
                          segment (3 * ipoint) 3 column
                          = v3_coeffs
                              (v3_add (translational h)
                                 (cross (rotational h)
                                    (v3_sub (v3_of_coeffs p) (translation X_WBi)))))
      as Hpoints.
    { intros M1 ->. simpl in HJv.
      apply bind_Ok in HJv as (X & HX & HJv).
      apply bind_Ok in HJv as (M3 & Hloop & HJv). injection HJv as <-.
      exists M3. split; [done|].
      destruct (HV M1 eq_refl) as (Hr1 & Hc1 & Hs1).
      destruct (points_loop
                  (λ p h, v3_coeffs
                            (v3_add (translational h)
                               (cross (rotational h)
                                  (v3_sub (v3_of_coeffs p) (translation X)))))
                  (mcolumns p_WQ_list) start (segment start nmv H_PB_W_cache)
                  M1 M3 np nv) as (Hs3 & Hout3 & Hin3);
        [done|exact Hloop|done|done|done|lia|].
      split; [done|]. split; [by rewrite <- Hlenseg|].
      intros X_WBi HX'. assert (X_WBi = X) as -> by congruence. exact Hin3. }
    simpl. split; [|split].
    + intros M HM. apply fmap_Some in HM as (M1 & -> & ->).
      destruct (HW M1 eq_refl) as (Hr1 & Hc1 & Hs1).
      split; [done|]. split; [by rewrite set_block_mcols|].
      apply set_block_column_lengths; [done|].
      apply Forall_forall. intros b Hb.
      apply list_elem_of_fmap in Hb as (h & -> & _). simpl. lia.
    + intros M HM. subst Jv3. destruct Jv1 as [M1|]; simpl in HJv.
      * destruct (Hpoints M1 eq_refl) as (M3 & HM3 & Hs3 & _).
        assert (M3 = M) as -> by congruence. done.
      * discriminate HJv.
    + intros il i Hil' Hi node' k h X_WBi Hnode' Hk Hh HX.
      apply elem_of_app in Hil' as [Hil'|Hil'].
      * (* a node visited before: its columns are left alone *)
        destruct (Hcontent il i Hil' Hi node' k h X_WBi Hnode' Hk Hh HX)
          as [HJw HJv'].
        assert (il ∈ seq 1 (length path - 1)) as Hilr
          by (rewrite Hl; apply elem_of_app; by left).
        apply elem_of_seq in Hilr.
        assert (il ≠ ilevel) as Hne.
        { intros ->. pose proof (NoDup_seq 1 (length path - 1)) as Hnd.
          rewrite Hl in Hnd. apply NoDup_app in Hnd as (_ & Hnd & _).
          apply (Hnd ilevel Hil'). left. }
        assert (i ∈ drop 1 path) as Hin'.
        { apply (list_elem_of_lookup_2 _ (il - 1)). rewrite lookup_drop.
          replace (1 + (il - 1)) with il by lia. done. }
        assert (i ≠ idx) as Hneq.
        { intros ->.
          apply Hne. assert (il - 1 = ilevel - 1); [|lia].
          apply (NoDup_lookup _ _ _ idx Hnodup); rewrite lookup_drop.
          - replace (1 + (il - 1)) with il by lia. done.
          - replace (1 + (ilevel - 1)) with ilevel by lia. done. }
        pose proof (Hapart i idx node' node Hin' Hin Hneq Hnode' Hnode) as Hdis.
        fold start nmv in Hdis. split.
        -- intros M HM. apply fmap_Some in HM as (M1 & -> & ->).
           rewrite set_block_lookup_out by (rewrite length_fmap, Hlenseg; lia).
           by apply HJw.
        -- intros M HM. subst Jv3. destruct Jv1 as [M1|]; simpl in HJv;
             [|discriminate HJv].
           destruct (Hpoints M1 eq_refl) as (M3 & HM3 & _ & Hout3 & _).
           assert (M3 = M) as -> by congruence.
           rewrite Hout3 by lia. by apply HJv'.
      * (* the node visited now *)
        apply list_elem_of_singleton in Hil' as ->.
        assert (i = idx) as -> by congruence.
        assert (node' = node) as -> by congruence. fold start nmv in Hk, Hh |- *.
        assert (segment start nmv H_PB_W_cache !! k = Some h) as Hseg
          by (rewrite lookup_segment by done; exact Hh).
        split.
        -- intros M HM. apply fmap_Some in HM as (M1 & -> & ->).
           destruct (HW M1 eq_refl) as (Hr1 & Hc1 & Hs1).
           destruct (lookup_lt_is_Some_2 (mcolumns M1) (start + k))
             as [column Hcolumn]; [unfold mcols in Hc1; lia|].
           pose proof (proj1 (Forall_lookup _ _) Hs1 _ _ Hcolumn) as Hlen.
           simpl in Hlen.
           rewrite (set_block_lookup_in 0 start _ M1 (start + k)
                      (v3_coeffs (rotational h)) column); [|lia| |done].
           ++ by rewrite set_segment_all.
           ++ replace (start + k - start) with k by lia.
              by rewrite list_lookup_fmap, Hseg.
        -- intros M HM. subst Jv3. destruct Jv1 as [M1|]; simpl in HJv;
             [|discriminate HJv].
           destruct (Hpoints M1 eq_refl) as (M3 & HM3 & _ & _ & Hin3).
           assert (M3 = M) as -> by congruence.
           destruct (Hin3 X_WBi HX k h Hseg) as (column & Hcolumn & Hrowsok).
           exists column. split; [done|]. intros ipoint p_WQ Hp.
           apply Hrowsok; [|done]. apply lookup_lt_Some in Hp. done.
Qed.

End Frame_Jacobian_entries.

(** ** The assertions of the sweeps *)

Section Sweep_assertions.
Context {T : Type} {ST : Scalar T}.
Context (topology : MultibodyTreeTopology) (bodies : list Body).
Context (gravity : option (UniformGravityFieldElement (T := T))).

(** X19.  The two [DRAKE_ASSERT]s at the head of every sweep's inner loop
    cannot fail on the tree that [FinalizeInternals] builds: an index taken
    from the list of level [depth] is the index of a body node that exists,
    that carries this very index, and whose level is [depth]. *)
Theorem sweep_assertions_hold tree depth body_node_level body_node_index :
  FinalizeInternals topology bodies gravity = Ok tree →
  topology_wf topology →
  body_node_levels_ tree !! depth = Some body_node_level →
  body_node_index ∈ body_node_level →
  ∃ node,
    at_unchecked (body_nodes_ tree) body_node_index = Ok node
    ∧ level (get_topology node) = depth
    ∧ index (get_topology node) = body_node_index.
Proof.
  intros Hfin Hwf Hlevel Hin.
  rewrite (body_node_levels_spec topology bodies gravity tree Hfin Hwf) in Hlevel.
  rewrite list_lookup_fmap in Hlevel.
  destruct (seq 0 (topology_tree_height topology) !! depth) as [d|] eqn:Hd;
    [|done].
  apply lookup_seq in Hd as [-> _]. simpl in Hlevel. injection Hlevel as <-.
  apply elem_of_level_list in Hin as (_ & Hlt & Hdepth).
  destruct (body_nodes_spec topology bodies gravity tree Hfin Hwf)
    as (_ & _ & Hlen & Hspec).
  destruct (lookup_lt_is_Some_2 (body_nodes_ tree) body_node_index)
    as [node Hnode]; [by rewrite Hlen|].
  destruct (Hspec _ _ Hnode) as (Htopo & _).
  exists node. split; [by apply at_unchecked_lookup|]. split.
  - by rewrite <- (lev_lookup topology _ _ Htopo).
  - by apply (wf_index topology Hwf).
Qed.

End Sweep_assertions.

(** ** The checks at the head of the operations *)

Section Argument_checks.
Context {T : Type} {ST : Scalar T} {impl : BodyNodeImpl (T := T)}.
Implicit Types (tree : MultibodyTree (T := T)) (context : systems_Context (T := T)).
Implicit Types (elements : MultibodyTreeElements (T := T)).

(** The checks at the head of [CalcInverseDynamics]. *)
Lemma CalcInverseDynamics_demands tree context pc vc vdot Fapp tauapp A F
    (tau : list T) :
  ¬ (length vdot = num_velocities tree
     ∧ (length (read_input Fapp (default [] F)) = num_bodies tree
        ∨ length (read_input Fapp (default [] F)) = 0)
     ∧ (length (read_input tauapp tau) = num_velocities tree
        ∨ length (read_input tauapp tau) = 0)
     ∧ is_Some A ∧ length (default [] A) = num_bodies tree
     ∧ is_Some F ∧ length (default [] F) = num_bodies tree
     ∧ length tau = num_velocities tree) →
  CalcInverseDynamics tree context pc vc vdot Fapp tauapp A F (Some tau) = Fatal.
Proof.
  intros Hbad. unfold CalcInverseDynamics.
  simpl. repeat first_check.
  destruct F as [F|]; [|exfalso; by eapply is_Some_None]. simpl in *.
  first_check. first_check. exfalso. apply Hbad. done.
Qed.

(** The checks of an optional output: its number of rows, then its number
    of columns, when it is there. *)
Lemma optional_output_check {A B} (o : option A) (P Q : A → Prop)
    `{∀ a, Decision (P a)} `{∀ a, Decision (Q a)} (k : unit → Outcome B) :
  (from_option (λ a, P a ∧ Q a) True o →
   from_option (λ a, _ ← DRAKE_THROW_UNLESS (bool_decide (P a));
                     DRAKE_THROW_UNLESS (bool_decide (Q a))) (Ok tt) o ≫= k
   = k tt)
  ∧ (¬ from_option (λ a, P a ∧ Q a) True o →
     from_option (λ a, _ ← DRAKE_THROW_UNLESS (bool_decide (P a));
                       DRAKE_THROW_UNLESS (bool_decide (Q a))) (Ok tt) o ≫= k
     = Thrown throw_unless_error).
Proof.
  destruct o as [a|]; simpl; [|done]. split.
  - intros [HP HQ]. by rewrite !bool_decide_eq_true_2.
  - intros Hno. destruct (decide (P a)) as [HP|HP].
    + rewrite (bool_decide_eq_true_2 _ HP). simpl.
      rewrite bool_decide_eq_false_2; [done|]. intros HQ. by apply Hno.
    + by rewrite (bool_decide_eq_false_2 _ HP).
Qed.

(** C8, as the code has it.  Every operation that checks the size of a
    buffer, an output pointer or the length of a vector does so at its head,
    and an argument that breaks the check is not let through.  In the
    operations that check with [DRAKE_DEMAND] it ends the process: the
    position, velocity and acceleration kinematics, the spatial
    accelerations, inverse dynamics in its two forms (handed a non-null
    [tau_array]; the form that returns the generalized forces once the
    kinematics of the context are there), the force elements' contribution
    and the joint damping, the two velocity maps, the mass matrix, the bias
    term, the across-node Jacobians and the articulated body inertias.  In
    the operations that check with [DRAKE_THROW_UNLESS] it raises an
    exception that the caller can catch: the per-body queries (for a null
    output), the point positions, both forms of the point Jacobians, the
    bias of the point Jacobians, the frame geometric Jacobian and the frame
    Jacobian. *)
Theorem precondition_violation_outcomes tree elements context :
  CalcPositionKinematicsCache tree context None = Fatal
  ∧ (∀ pc, CalcVelocityKinematicsCache tree context pc None = Fatal)
  ∧ (∀ pc vc vdot A,
       ¬ (is_Some A ∧ length (default [] A) = num_bodies tree
          ∧ length vdot = num_velocities tree) →
       CalcSpatialAccelerationsFromVdot tree context pc vc vdot A = Fatal)
  ∧ (∀ pc vc vdot ac,
       ¬ (is_Some ac ∧ length vdot = num_velocities tree
          ∧ length (from_option A_WB_pool [] ac) = num_bodies tree) →
       CalcAccelerationKinematicsCache tree context pc vc vdot ac = Fatal)
  ∧ (∀ pc vc vdot Fapp tauapp A F tau,
       ¬ (length vdot = num_velocities tree
          ∧ (length (read_input Fapp (default [] F)) = num_bodies tree
             ∨ length (read_input Fapp (default [] F)) = 0)
          ∧ (length (read_input tauapp tau) = num_velocities tree
             ∨ length (read_input tauapp tau) = 0)
          ∧ is_Some A ∧ length (default [] A) = num_bodies tree
          ∧ is_Some F ∧ length (default [] F) = num_bodies tree
          ∧ length tau = num_velocities tree) →
       CalcInverseDynamics tree context pc vc vdot Fapp tauapp A F (Some tau) = Fatal)
  ∧ (∀ pc vc vdot external_forces,
       EvalPositionKinematics tree context = Ok pc →
       EvalVelocityKinematics tree context = Ok vc →
       ¬ (length vdot = num_velocities tree
          ∧ (length (body_forces external_forces) = num_bodies tree
             ∨ length (body_forces external_forces) = 0)
          ∧ (length (generalized_forces external_forces) = num_velocities tree
             ∨ length (generalized_forces external_forces) = 0)) →
       CalcInverseDynamics_of_forces tree context vdot external_forces = Fatal)
  ∧ (∀ AddInDamping owned_force_elements_ pc vc forces,
       ¬ (is_Some forces
          ∧ length (from_option generalized_forces [] forces) = num_velocities tree
          ∧ length (from_option body_forces [] forces) = num_bodies tree) →
       CalcForceElementsContribution AddInDamping owned_force_elements_ tree
         elements context pc vc forces = Fatal)
  ∧ (∀ AddInDamping,
       AddJointDampingForces AddInDamping elements context None = Fatal)
  ∧ (∀ qdot (v : option (list T)),
       ¬ (length qdot = num_positions tree ∧ is_Some v
          ∧ from_option length 0 v = num_velocities tree) →
       MapQDotToVelocity tree elements context qdot v = Fatal)
  ∧ (∀ v (qdot : option (list T)),
       ¬ (length v = num_velocities tree ∧ is_Some qdot
          ∧ from_option length 0 qdot = num_positions tree) →
       MapVelocityToQDot tree elements context v qdot = Fatal)
  ∧ (∀ H,
       ¬ (is_Some H ∧ from_option mrows 0 H = num_velocities tree
          ∧ from_option mcols 0 H = num_velocities tree) →
       CalcMassMatrixViaInverseDynamics tree context H = Fatal)
  ∧ (∀ Cv,
       ¬ (is_Some Cv ∧ from_option length 0 Cv = num_velocities tree) →
       CalcBiasTerm tree context Cv = Fatal)
  ∧ (∀ pc H_PB_W_cache,
       ¬ (is_Some H_PB_W_cache
          ∧ length (default [] H_PB_W_cache) = num_velocities tree) →
       CalcAcrossNodeGeometricJacobianExpressedInWorld tree context pc H_PB_W_cache
       = Fatal)
  ∧ (∀ (ArticulatedBodyInertiaCache : Type)
       (CalcArticulatedBodyInertiaCache_TipToBase :
          BodyNode → MultibodyTreeContext (T := T) → PositionKinematicsCache (T := T) →
          list (Vector6 (T := T)) → ArticulatedBodyInertiaCache →
          Outcome ArticulatedBodyInertiaCache) pc,
       CalcArticulatedBodyInertiaCache CalcArticulatedBodyInertiaCache_TipToBase
         tree context pc None = Fatal)
  ∧ CalcAllBodyPosesInWorld tree context None = Thrown throw_unless_error
  ∧ CalcAllBodySpatialVelocitiesInWorld tree context None
    = Thrown throw_unless_error
  ∧ (∀ frame_B p_BQi frame_A p_AQi,
       ¬ (mrows p_BQi = 3 ∧ is_Some p_AQi ∧ from_option mrows 0 p_AQi = 3
          ∧ from_option mcols 0 p_AQi = mcols p_BQi) →
       CalcPointsPositions tree context frame_B p_BQi frame_A p_AQi
       = Thrown throw_unless_error)
  ∧ (∀ frame_B p_BQi_set p_WQi_set Jv_WQi,
       ¬ (mrows p_BQi_set = 3 ∧ is_Some p_WQi_set
          ∧ from_option mcols 0 p_WQi_set = mcols p_BQi_set
          ∧ from_option mrows 0 p_WQi_set = 3
          ∧ is_Some Jv_WQi
          ∧ from_option mrows 0 Jv_WQi = 3 * mcols p_BQi_set
          ∧ from_option mcols 0 Jv_WQi = num_velocities tree) →
       CalcPointsGeometricJacobianExpressedInWorld tree context frame_B
         p_BQi_set p_WQi_set Jv_WQi = Thrown throw_unless_error)
  ∧ (∀ frame_F p_WQ_list Jv_WFq,
       ¬ (mrows p_WQ_list = 3 ∧ is_Some Jv_WFq
          ∧ from_option mrows 0 Jv_WFq = 3 * mcols p_WQ_list
          ∧ from_option mcols 0 Jv_WFq = num_velocities tree) →
       CalcPointsGeometricJacobianExpressedInWorld_W tree context frame_F
         p_WQ_list Jv_WFq = Thrown throw_unless_error)
  ∧ (∀ GetFixedPoseInBodyFrame frame_F p_FQ_list,
       mrows p_FQ_list ≠ 3 →
       CalcBiasForPointsGeometricJacobianExpressedInWorld GetFixedPoseInBodyFrame
         tree context frame_F p_FQ_list = Thrown throw_unless_error)
  ∧ (∀ frame_F p_FQ Jv_WFq,
       ¬ (is_Some Jv_WFq ∧ from_option mrows 0 Jv_WFq = 6
          ∧ from_option mcols 0 Jv_WFq = num_velocities tree) →
       CalcFrameGeometricJacobianExpressedInWorld tree context frame_F p_FQ Jv_WFq
       = Thrown throw_unless_error)
  ∧ (∀ frame_F p_WQ_list Jw_WFq Jv_WFq,
       ¬ ((is_Some Jw_WFq ∨ is_Some Jv_WFq)
          ∧ from_option (λ Jw, mrows Jw = 3 ∧ mcols Jw = num_velocities tree)
                        True Jw_WFq
          ∧ from_option (λ Jv, mrows Jv = 3 * mcols p_WQ_list
                               ∧ mcols Jv = num_velocities tree)
                        True Jv_WFq) →
       CalcFrameJacobianExpressedInWorld tree context frame_F p_WQ_list
         Jw_WFq Jv_WFq = Thrown throw_unless_error).
Proof.
  repeat match goal with |- _ ∧ _ => split end.
  - reflexivity.
  - intros pc. reflexivity.
  - intros pc vc vdot A Hbad. unfold CalcSpatialAccelerationsFromVdot.
    first_check. destruct A as [A|]; [|exfalso; by eapply is_Some_None]. simpl in *.
    repeat first_check. exfalso. apply Hbad. done.
  - intros pc vc vdot ac Hbad. unfold CalcAccelerationKinematicsCache.
    first_check. first_check.
    destruct ac as [ac|]; [|exfalso; by eapply is_Some_None]. simpl in *.
    unfold CalcSpatialAccelerationsFromVdot. simpl.
    destruct (decide (length (A_WB_pool ac) = num_bodies tree)) as [Hlen|Hlen].
    + exfalso. apply Hbad. done.
    + by rewrite (bool_decide_eq_false_2 _ Hlen).
  - intros pc vc vdot Fapp tauapp A F tau. apply CalcInverseDynamics_demands.
  - intros pc vc vdot external_forces Hpc Hvc Hbad.
    unfold CalcInverseDynamics_of_forces. rewrite Hpc, Hvc. simpl.
    rewrite CalcInverseDynamics_demands; [done|].
    intros (Hvdot & HF & Htau & _). apply Hbad. done.
  - intros AddInDamping force_elements pc vc forces Hbad.
    unfold CalcForceElementsContribution. first_check.
    destruct forces as [forces|]; [|exfalso; by eapply is_Some_None]. simpl in *.
    unfold CheckHasRightSizeForModel. first_check.
    exfalso. apply Hbad. split; [done|]. tauto.
  - intros AddInDamping. reflexivity.
  - intros qdot v Hbad. unfold MapQDotToVelocity.
    first_check. first_check. destruct v as [v|]; [|exfalso; by eapply is_Some_None].
    simpl in *. first_check. exfalso. apply Hbad. done.
  - intros v qdot Hbad. unfold MapVelocityToQDot.
    first_check. first_check.
    destruct qdot as [qdot|]; [|exfalso; by eapply is_Some_None].
    simpl in *. first_check. exfalso. apply Hbad. done.
  - intros H Hbad. unfold CalcMassMatrixViaInverseDynamics.
    repeat first_check. exfalso. apply Hbad. done.
  - intros Cv Hbad. unfold CalcBiasTerm.
    repeat first_check. exfalso. apply Hbad. done.
  - intros pc H Hbad. unfold CalcAcrossNodeGeometricJacobianExpressedInWorld.
    first_check. destruct H as [H|]; [|exfalso; by eapply is_Some_None]. simpl in *.
    first_check. exfalso. apply Hbad. done.
  - intros ABIC step pc. reflexivity.
  - reflexivity.
  - reflexivity.
  - intros frame_B p_BQi frame_A p_AQi Hbad. unfold CalcPointsPositions.
    repeat first_check.
    destruct p_AQi as [p_AQi|]; [|exfalso; by eapply is_Some_None]. simpl in *.
    repeat first_check. exfalso. apply Hbad. done.
  - intros frame_B p_BQi_set p_WQi_set Jv_WQi Hbad.
    unfold CalcPointsGeometricJacobianExpressedInWorld.
    repeat first_check.
    destruct p_WQi_set as [p_WQi_set|]; [|exfalso; by eapply is_Some_None].
    unfold CalcPointsPositions.
    rewrite (bool_decide_eq_true_2 (mrows p_BQi_set = 3)) by done.
    rewrite (bool_decide_eq_true_2 (is_Some (Some p_WQi_set))) by done.
    simpl in *.
    destruct (decide (mrows p_WQi_set = 3)) as [Hrows|Hrows].
    + exfalso. apply Hbad. done.
    + by rewrite (bool_decide_eq_false_2 _ Hrows).
  - intros frame_F p_WQ_list Jv_WFq Hbad.
    unfold CalcPointsGeometricJacobianExpressedInWorld_W.
    repeat first_check. exfalso. apply Hbad. done.
  - intros GetFixedPoseInBodyFrame frame_F p_FQ_list Hbad.
    unfold CalcBiasForPointsGeometricJacobianExpressedInWorld.
    by rewrite bool_decide_eq_false_2.
  - intros frame_F p_FQ Jv_WFq Hbad.
    unfold CalcFrameGeometricJacobianExpressedInWorld.
    repeat first_check. exfalso. apply Hbad. done.
  - intros frame_F p_WQ_list Jw_WFq Jv_WFq Hbad.
    unfold CalcFrameJacobianExpressedInWorld.
    destruct (decide (is_Some Jw_WFq ∨ is_Some Jv_WFq)) as [Hsome|Hsome];
      [|by rewrite (bool_decide_eq_false_2 _ Hsome)].
    rewrite (bool_decide_eq_true_2 _ Hsome). cbn [mbind Outcome_bind DRAKE_THROW_UNLESS].
    assert (∀ (P : MatrixX (T := T) → Prop) `{∀ M, Decision (P M)} o,
              Decision (from_option P True o)) as Hdec
      by (intros P ? [M|]; simpl; apply _).
    destruct (Hdec (λ Jw, mrows Jw = 3 ∧ mcols Jw = num_velocities tree) _ Jw_WFq)
      as [HJw|HJw];
      [|by erewrite (proj2 (optional_output_check Jw_WFq (λ Jw, mrows Jw = 3)
                             (λ Jw, mcols Jw = num_velocities tree) _) HJw)].
    erewrite (proj1 (optional_output_check Jw_WFq (λ Jw, mrows Jw = 3)
                       (λ Jw, mcols Jw = num_velocities tree) _) HJw).
    destruct (Hdec (λ Jv, mrows Jv = 3 * mcols p_WQ_list
                          ∧ mcols Jv = num_velocities tree) _ Jv_WFq)
      as [HJv|HJv];
      [|by erewrite (proj2 (optional_output_check Jv_WFq
                             (λ Jv, mrows Jv = 3 * mcols p_WQ_list)
                             (λ Jv, mcols Jv = num_velocities tree) _) HJv)].
    exfalso. apply Hbad. done.
Qed.

End Argument_checks.

(** ** The properties above, on the small mechanism *)

Lemma precondition_violation_outcomes_witness :
  CalcInverseDynamics (impl := Example.impl) Example.tree Example.context
    Example.pc Example.vc [0; 0]%Z (Distinct []) (Distinct [])
    (Some (replicate 4 Spatial_new)) (Some (replicate 4 Spatial_new))
    (Some [0; 0; 0]%Z) = Fatal
  ∧ MapQDotToVelocity Example.tree ExampleElements.elements Example.context
      [0; 0; 0]%Z None = Fatal
  ∧ CalcPointsPositions (impl := Example.impl) Example.tree Example.context
      Example.frame (mkMatrixX 3 []) Example.frame None
    = Thrown throw_unless_error
  ∧ CalcFrameJacobianExpressedInWorld (impl := Example.impl) Example.tree
      Example.context Example.frame ExampleElements.points
      (Some (mkMatrixX 2 [ [0; 0]; [0; 0]; [0; 0] ]%Z)) None
    = Thrown throw_unless_error.
Proof.
  destruct (precondition_violation_outcomes (impl := Example.impl)
              Example.tree ExampleElements.elements Example.context)
    as (_ & _ & _ & _ & HID & _ & _ & _ & HQV & _ & _ & _ & _ & _ & _ & _ & HPP
        & _ & _ & _ & _ & HFJ).
  split; [|split; [|split]].
  - apply HID. vm_compute. intros [Hlen _]. discriminate Hlen.
  - apply HQV. intros (_ & Hsome & _). destruct Hsome as [? Hsome].
    discriminate Hsome.
  - apply HPP. intros (_ & Hsome & _). destruct Hsome as [? Hsome].
    discriminate Hsome.
  - apply HFJ. simpl. intros (_ & [Hrows _] & _). discriminate Hrows.
Defined.

Lemma FinalizeInternals_level_lists_witness :
  length (body_node_levels_ Example.tree) = 3
  ∧ ∀ d l, body_node_levels_ Example.tree !! d = Some l → world_index ∉ l.
Proof.
  destruct (FinalizeInternals_level_lists Example.topology Example.bodies None
              Example.tree Example_finalized Example_wf) as [Hlen Hlists].
  split; [exact Hlen|]. intros d l Hl.
  destruct (Hlists d l Hl) as (_ & Hworld & _). exact Hworld.
Defined.

Lemma FinalizeInternals_body_nodes_witness :
  length (body_nodes_ Example.tree) = 4
  ∧ ∀ node, body_nodes_ Example.tree !! 0 = Some node → children_ node = [1; 2].
Proof.
  destruct (FinalizeInternals_body_nodes Example.topology Example.bodies None
              Example.tree Example_finalized Example_wf) as [Hlen Hnodes].
  split; [exact Hlen|]. intros node Hnode.
  destruct (Hnodes 0 node Hnode) as (_ & _ & Hchildren). exact Hchildren.
Defined.

Lemma base_to_tip_sweep_order_witness :
  ∃ order,
    (∀ s : list nat,
       sweep Example.tree (base_to_tip Example.tree)
         (λ i _ visited, Ok (visited ++ [i])) s
       = for_each order
           (λ i s, node ← at_unchecked (body_nodes_ Example.tree) i;
                   Ok (s ++ [i])) s)
    ∧ NoDup order ∧ (world_index ∉ order).
Proof.
  destruct (base_to_tip_sweep_order Example.topology Example.bodies None
              Example.tree Example_finalized Example_wf)
    as (order & Hsweep & Hnodup & Hin & _).
  exists order. split; [|split; [exact Hnodup|]].
  - intros s. exact (Hsweep (list nat) (λ i _ visited, Ok (visited ++ [i])) s).
  - intros Hworld. apply Hin in Hworld as [Hne _]. exact (Hne eq_refl).
Defined.

Lemma tip_to_base_sweep_order_witness :
  ∃ order,
    (∀ s : list nat,
       sweep Example.tree (tip_to_base Example.tree)
         (λ i _ visited, Ok (visited ++ [i])) s
       = for_each order
           (λ i s, node ← at_unchecked (body_nodes_ Example.tree) i;
                   Ok (s ++ [i])) s)
    ∧ NoDup order ∧ (world_index ∉ order).
Proof.
  destruct (tip_to_base_sweep_order Example.topology Example.bodies None
              Example.tree Example_finalized Example_wf)
    as (order & Hsweep & Hnodup & Hin & _).
  exists order. split; [|split; [exact Hnodup|]].
  - intros s. exact (Hsweep (list nat) (λ i _ visited, Ok (visited ++ [i])) s).
  - intros Hworld. apply Hin in Hworld as [Hne _]. exact (Hne eq_refl).
Defined.

Lemma tip_to_base_sweeps_agree_witness :
  sweep Example.tree (tip_to_base_skipping_world Example.tree)
    (λ i _ visited, Ok (visited ++ [i])) []
  = sweep Example.tree (tip_to_base Example.tree)
      (λ i _ visited, Ok (visited ++ [i])) [].
Proof.
  exact (tip_to_base_sweeps_agree Example.topology Example.bodies None
           Example.tree Example_finalized Example_wf (list nat)
           (λ i _ visited, Ok (visited ++ [i])) []).
Defined.

Lemma foreign_context_is_bad_cast_witness :
  CalcInverseDynamics (impl := Example.impl) Example.tree OtherContext
    Example.pc Example.vc [1; 0; 2]%Z (Distinct []) (Distinct [])
    (Some (replicate 4 Spatial_new)) (Some (replicate 4 Spatial_new))
    (Some [0; 0; 0]%Z) = Thrown bad_cast
  ∧ MapQDotToVelocity Example.tree ExampleElements.elements OtherContext
      [4; 6; 5]%Z (Some [0; 0; 0]%Z) = Thrown bad_cast.
Proof.
  destruct (foreign_context_is_bad_cast (impl := Example.impl) Example.tree
              ExampleElements.elements Example.pc Example.vc)
    as (_ & _ & _ & _ & HID & _ & Hmaps).
  split.
  - exact (HID [1; 0; 2]%Z (Distinct []) (Distinct []) (replicate 4 Spatial_new)
             (replicate 4 Spatial_new) [0; 0; 0]%Z eq_refl (or_intror eq_refl)
             (or_intror eq_refl) eq_refl eq_refl eq_refl).
  - exact (proj1 (Hmaps [4; 6; 5]%Z [0; 0; 0]%Z eq_refl eq_refl)).
Defined.

Lemma CalcFrameJacobianExpressedInWorld_world_frame_witness :
  CalcFrameJacobianExpressedInWorld (impl := Example.impl) Example.tree
    OtherContext (world_frame Example.tree) ExampleElements.points
    (Some ExampleElements.Jw0) None
  = Ok (Some (mkMatrixX 3 [ [0; 0; 0]; [0; 0; 0]; [0; 0; 0] ]%Z), None).
Proof.
  assert (∀ Jw, Some ExampleElements.Jw0 = Some Jw →
            mrows Jw = 3 ∧ mcols Jw = num_velocities Example.tree) as Hw
    by (intros Jw [= <-]; split; reflexivity).
  assert (∀ Jv : MatrixX (T := Z), None = Some Jv →
            mrows Jv = 3 * mcols ExampleElements.points
            ∧ mcols Jv = num_velocities Example.tree) as Hv
    by (intros Jv [=]).
  exact (CalcFrameJacobianExpressedInWorld_world_frame (impl := Example.impl)
           Example.tree OtherContext (world_frame Example.tree)
           ExampleElements.points (Some ExampleElements.Jw0) None
           eq_refl (or_introl (ex_intro _ _ eq_refl)) Hw Hv).
Defined.

Lemma CalcFrameJacobianExpressedInWorld_keeps_shape_witness :
  ∃ Jw Jv,
    CalcFrameJacobianExpressedInWorld (impl := Example.impl) Example.tree
      Example.context Example.frame ExampleElements.points
      (Some ExampleElements.Jw0) (Some ExampleElements.Jv0) = Ok (Some Jw, Some Jv)
    ∧ mrows Jw = 3 ∧ mcols Jw = 3 ∧ mrows Jv = 6 ∧ mcols Jv = 3.
Proof.
  assert (CalcFrameJacobianExpressedInWorld (impl := Example.impl) Example.tree
            Example.context Example.frame ExampleElements.points
            (Some ExampleElements.Jw0) (Some ExampleElements.Jv0)
          = Ok (Some (mkMatrixX 3 [ [0; 0; 1]; [0; 0; 1]; [0; 0; 0] ]%Z),
                Some (mkMatrixX 6 [ [0; 0; 0; -2; -1; 0]; [1; -1; 0; -1; -2; 0];
                                    [1; 0; 0; 1; 0; 0] ]%Z))) as Hrun
    by (vm_compute; reflexivity).
  destruct (CalcFrameJacobianExpressedInWorld_keeps_shape (impl := Example.impl)
              Example.tree Example.context Example.frame ExampleElements.points
              (Some ExampleElements.Jw0) (Some ExampleElements.Jv0) _ _ Hrun)
    as (_ & _ & HJw & HJv).
  destruct (HJw _ eq_refl) as (Hr & Hc & _).
  destruct (HJv _ eq_refl) as (Hr' & Hc' & _).
  eexists _, _. split; [exact Hrun|]. repeat split; assumption.
Defined.

Lemma CalcFrameJacobianExpressedInWorld_zero_off_path_witness :
  ∃ Jw Jv,
    CalcFrameJacobianExpressedInWorld (impl := Example.impl) Example.tree
      Example.context ExampleElements.frame_on_first_link ExampleElements.points
      (Some ExampleElements.Jw0) (Some ExampleElements.Jv0) = Ok (Some Jw, Some Jv)
    ∧ mcolumns Jw !! 2 = Some [0; 0; 0]%Z
    ∧ mcolumns Jv !! 2 = Some [0; 0; 0; 0; 0; 0]%Z.
Proof.
  assert (CalcFrameJacobianExpressedInWorld (impl := Example.impl) Example.tree
            Example.context ExampleElements.frame_on_first_link
            ExampleElements.points
            (Some ExampleElements.Jw0) (Some ExampleElements.Jv0)
          = Ok (Some (mkMatrixX 3 [ [0; 0; 1]; [0; 0; 0]; [0; 0; 0] ]%Z),
                Some (mkMatrixX 6 [ [0; 0; 0; -2; -1; 0]; [0; 0; 0; 0; 0; 0];
                                    [0; 0; 0; 0; 0; 0] ]%Z))) as Hrun
    by (vm_compute; reflexivity).
  destruct (CalcFrameJacobianExpressedInWorld_zero_off_path (impl := Example.impl)
              Example.tree Example.context ExampleElements.frame_on_first_link
              ExampleElements.points
              (Some ExampleElements.Jw0) (Some ExampleElements.Jv0) _ _ [0; 1] 2
              Hrun eq_refl) as [HJw HJv].
  - vm_compute. lia.
  - intros i node Hi Hnode. simpl in Hi. apply list_elem_of_singleton in Hi.
    subst i. vm_compute in Hnode. injection Hnode as <-.
    intros [_ Hlt]. vm_compute in Hlt. lia.
  - eexists _, _. split; [exact Hrun|].
    split; [exact (HJw _ eq_refl)|exact (HJv _ eq_refl)].
Defined.

Lemma MakeActuatorSelectorMatrix_unit_columns_witness :
  MakeActuatorSelectorMatrix Example.tree ExampleElements.elements [2; 0; 2]
  = Ok (mkMatrixX 3 [ [0; 0; 1]; [1; 0; 0]; [0; 0; 1] ]%Z).
Proof.
  destruct (MakeActuatorSelectorMatrix_unit_columns Example.tree
              ExampleElements.elements [2; 0; 2]) as [_ Hreturns].
  apply Hreturns; [reflexivity|]. repeat constructor.
Defined.

Lemma MakeActuatorSelectorMatrix_of_joints_selects_actuators_witness :
  MakeActuatorSelectorMatrix_of_joints Example.tree ExampleElements.elements [1; 0]
  = MakeActuatorSelectorMatrix Example.tree ExampleElements.elements [2; 0].
Proof.
  destruct (MakeActuatorSelectorMatrix_of_joints_selects_actuators Example.tree
              ExampleElements.elements [1; 0]) as [_ Hselects].
  - reflexivity.
  - repeat constructor.
  - repeat constructor.
  - apply Hselects. repeat constructor.
    + by eexists.
    + intros [|[|[|a']]] actuator' Hlt Hlookup; try lia. discriminate Hlookup.
    + by eexists.
    + intros [|[|[|a']]] actuator' Hlt Hlookup; try lia.
      * injection Hlookup as <-. discriminate.
      * injection Hlookup as <-. discriminate.
      * discriminate Hlookup.
Defined.

Lemma MakeStateSelectorMatrix_rejects_repeated_joint_witness :
  MakeStateSelectorMatrix Example.tree ExampleElements.elements [0; 1; 0]
  = Thrown logic_error.
Proof.
  destruct (MakeStateSelectorMatrix_rejects_repeated_joint Example.tree
              ExampleElements.elements [0; 1; 0]) as [_ Hthrows].
  apply Hthrows; [reflexivity|repeat constructor|].
  intros Hnd. apply NoDup_cons in Hnd as [Hin _]. apply Hin. right. left.
Defined.

Lemma MakeStateSelectorMatrix_selects_witness :
  ∃ Sx,
    MakeStateSelectorMatrix Example.tree ExampleElements.elements [1; 0] = Ok Sx
    ∧ mrows Sx = 6 ∧ mcols Sx = 6
    ∧ coeff Sx 0 1 = Some 1%Z ∧ coeff Sx 0 0 = Some 0%Z.
Proof.
  destruct (MakeStateSelectorMatrix_selects Example.tree ExampleElements.elements
              [1; 0]) as (Sx & Hrun & Hrows & Hcols & Hsel).
  - reflexivity.
  - repeat constructor; intros Hin.
    + apply list_elem_of_singleton in Hin. discriminate Hin.
    + by apply elem_of_nil in Hin.
  - intros j Hj. apply elem_of_cons in Hj as [->|Hj];
      [|apply list_elem_of_singleton in Hj as ->].
    + eexists. split; [reflexivity|]. vm_compute. lia.
    + eexists. split; [reflexivity|]. vm_compute. lia.
  - exists Sx. split; [exact Hrun|]. split; [exact Hrows|]. split; [exact Hcols|].
    destruct (Hsel 0 1 (mkJoint 2 1 2 1) eq_refl eq_refl) as [Hpos _].
    split.
    + apply (Hpos 0 1); vm_compute; lia.
    + apply (Hpos 0 0); vm_compute; lia.
Defined.

Lemma MapQDotToVelocity_undoes_MapVelocityToQDot_witness :
  ∃ qdot,
    MapVelocityToQDot Example.tree ExampleElements.elements Example.context
      [4; 5; 6]%Z (Some [0; 0; 0]%Z) = Ok qdot
    ∧ MapQDotToVelocity Example.tree ExampleElements.elements Example.context
        qdot (Some [9; 9; 9]%Z) = Ok [4; 5; 6]%Z.
Proof.
  destruct (MapQDotToVelocity_undoes_MapVelocityToQDot Example.tree
              ExampleElements.elements Example.mbt
              [4; 5; 6]%Z [0; 0; 0]%Z [9; 9; 9]%Z eq_refl eq_refl eq_refl)
    as (qdot & Hto & _ & Hback).
  - repeat constructor; vm_compute; lia.
  - intros [|[|[|i]]] [|[|[|j]]] mi mj Hne Hi Hj; try done;
      vm_compute in Hi, Hj; try discriminate;
      injection Hi as <-; injection Hj as <-; vm_compute; lia.
  - intros [|[|[|k]]] Hk; try (vm_compute in Hk; lia).
    + eexists. split; [left|]. vm_compute. lia.
    + eexists. split; [right; right; left|]. vm_compute. lia.
    + eexists. split; [right; right; left|]. vm_compute. lia.
  - repeat constructor.
    + intros v_m Hlen. exists v_m. done.
    + intros v_m Hlen. exists v_m. done.
    + intros [|a [|b [|? ?]]] Hlen; try discriminate Hlen.
      exists [b; a]. done.
  - exists qdot. split; [exact Hto|exact Hback].
Defined.

Lemma velocity_maps_demands_witness :
  MapQDotToVelocity Example.tree ExampleElements.elements Example.context
    [4; 6]%Z (Some [0; 0; 0]%Z) = Fatal
  ∧ MapVelocityToQDot Example.tree ExampleElements.elements Example.context
      [4; 5; 6]%Z None = Fatal.
Proof.
  destruct (velocity_maps_demands Example.tree ExampleElements.elements
              Example.context) as (Hto_v & Hto_qdot & _).
  split.
  - apply Hto_v. intros [Hlen _]. discriminate Hlen.
  - apply Hto_qdot. intros (_ & [? Hsome] & _). discriminate Hsome.
Defined.

Lemma CalcMassMatrixViaInverseDynamics_ignores_old_entries_witness :
  CalcMassMatrixViaInverseDynamics (impl := Example.impl) Example.tree
    Example.context (Some ExampleElements.Jw0)
  = CalcMassMatrixViaInverseDynamics (impl := Example.impl) Example.tree
      Example.context (Some Example.H0).
Proof.
  exact (CalcMassMatrixViaInverseDynamics_ignores_old_entries
           (impl := Example.impl) Example.tree Example.context
           ExampleElements.Jw0 Example.H0 eq_refl eq_refl).
Defined.

Lemma CalcFrameJacobianExpressedInWorld_entries_witness :
  ∃ Jw Jv column,
    CalcFrameJacobianExpressedInWorld (impl := Example.impl) Example.tree
      Example.context Example.frame ExampleElements.points
      (Some ExampleElements.Jw0) (Some ExampleElements.Jv0) = Ok (Some Jw, Some Jv)
    ∧ mcolumns Jw !! 1 = Some [0; 0; 1]%Z
    ∧ mcolumns Jv !! 1 = Some column
    ∧ segment 3 3 column = [-1; -2; 0]%Z.
Proof.
  assert (CalcFrameJacobianExpressedInWorld (impl := Example.impl) Example.tree
            Example.context Example.frame ExampleElements.points
            (Some ExampleElements.Jw0) (Some ExampleElements.Jv0)
          = Ok (Some (mkMatrixX 3 [ [0; 0; 1]; [0; 0; 1]; [0; 0; 0] ]%Z),
                Some (mkMatrixX 6 [ [0; 0; 0; -2; -1; 0]; [1; -1; 0; -1; -2; 0];
                                    [1; 0; 0; 1; 0; 0] ]%Z))) as Hrun
    by (vm_compute; reflexivity).
  assert (EvalPositionKinematics (impl := Example.impl) Example.tree
            Example.context = Ok Example.pc) as Hpc
    by (vm_compute; reflexivity).
  assert (CalcAcrossNodeGeometricJacobianExpressedInWorld (impl := Example.impl)
            Example.tree Example.context Example.pc
            (Some (replicate (num_velocities Example.tree) Spatial_new))
          = Ok [ mkSpatial (Example.e 0 0 1) (Example.e 0 0 0);
                 mkSpatial (Example.e 0 0 1) (Example.e 0 0 0);
                 mkSpatial (Example.e 0 0 0) (Example.e 1 0 0) ]) as HH
    by (vm_compute; reflexivity).
  assert (NoDup (drop 1 [0; 1; 3])) as Hnodup.
  { simpl. repeat constructor; intros Hin.
    - apply list_elem_of_singleton in Hin. discriminate Hin.
    - by apply elem_of_nil in Hin. }
  assert (∀ i node, i ∈ drop 1 [0; 1; 3] →
            body_nodes_ Example.tree !! i = Some node →
            mobilizer_velocities_start_in_v (get_topology node)
            + num_mobilizer_velocities (get_topology node)
            ≤ num_velocities Example.tree) as Hwithin.
  { intros i node Hi Hnode. simpl in Hi.
    apply elem_of_cons in Hi as [->|Hi];
      [|apply list_elem_of_singleton in Hi as ->];
      vm_compute in Hnode; injection Hnode as <-; vm_compute; lia. }
  assert (∀ i1 i2 n1 n2, i1 ∈ drop 1 [0; 1; 3] → i2 ∈ drop 1 [0; 1; 3] → i1 ≠ i2 →
            body_nodes_ Example.tree !! i1 = Some n1 →
            body_nodes_ Example.tree !! i2 = Some n2 →
            mobilizer_velocities_start_in_v (get_topology n1)
            + num_mobilizer_velocities (get_topology n1)
            ≤ mobilizer_velocities_start_in_v (get_topology n2)
            ∨ mobilizer_velocities_start_in_v (get_topology n2)
              + num_mobilizer_velocities (get_topology n2)
              ≤ mobilizer_velocities_start_in_v (get_topology n1)) as Hapart.
  { intros i1 i2 n1 n2 Hi1 Hi2 Hne Hn1 Hn2. simpl in Hi1, Hi2.
    apply elem_of_cons in Hi1 as [->|Hi1];
      [|apply list_elem_of_singleton in Hi1 as ->];
    (apply elem_of_cons in Hi2 as [->|Hi2];
      [|apply list_elem_of_singleton in Hi2 as ->]); try done;
    vm_compute in Hn1, Hn2; injection Hn1 as <-; injection Hn2 as <-;
    vm_compute; lia. }
  destruct (CalcFrameJacobianExpressedInWorld_entries (impl := Example.impl)
              Example.tree Example.context Example.frame ExampleElements.points
              (Some ExampleElements.Jw0) (Some ExampleElements.Jv0) _ _
              [0; 1; 3] Example.pc _ Hrun ltac:(vm_compute; lia) eq_refl Hpc HH
              Hnodup Hwithin Hapart
              3 (mkBodyNode (mkBodyNodeTopology 3 2 1 3 2 1) [] true) 0
              (mkSpatial (Example.e 0 0 1) (Example.e 0 0 0))
              (mkIsometry3 (Example.e 1 0 0, Example.e 0 1 0, Example.e 0 0 1)
                           (Example.e 2 1 0)))
    as [HJw HJv].
  - simpl. right. left.
  - reflexivity.
  - vm_compute. lia.
  - reflexivity.
  - reflexivity.
  - destruct (HJv _ eq_refl) as (column & Hcolumn & Hrows).
    eexists _, _, column. split; [exact Hrun|].
    split; [exact (HJw _ eq_refl)|]. split; [exact Hcolumn|].
    exact (Hrows 1 [0; 2; 0]%Z eq_refl).
Defined.

Lemma sweep_assertions_hold_witness :
  ∃ node,
    at_unchecked (body_nodes_ Example.tree) 2 = Ok node
    ∧ level (get_topology node) = 1
    ∧ index (get_topology node) = 2.
Proof.
  apply (sweep_assertions_hold Example.topology Example.bodies None Example.tree
           1 [1; 2] 2 Example_finalized Example_wf eq_refl).
  right. left.
Defined.
